(** * mmd: a miniature markdown parser (mmd.c) -- shallow embedding

    The node store, the accessors, the reference table, the inline
    tokenizer, the table lookahead, the line loop of [mmdLoadFile],
    [mmdCopyAllText], [mmdGetMetadata] and [mmdFree] are transcribed
    function by function from [src/mmd.c].

    Conventions of the embedding:
    - a [mmd_t *] is an index into the list of allocated nodes ([heap]);
      [NULL] is [None]; reading or writing through an index that is not
      allocated is a failure of the whole computation ([None]);
    - a [char *] into the line buffer is an index into a [list ascii];
      strings end at the first NUL, and a byte beyond the end of the list
      reads as NUL (the buffer is taken to be zero-filled at first);
    - owned strings ([strdup]) are [string]s;
    - inside the parser every [calloc], [strdup] and [realloc] is taken to
      succeed; [mmd_add] and [mmdCopyAllText] are also given with the outcome
      of their allocations as an argument. *)

From Stdlib Require Import Ascii String.
From stdpp Require Import base option list.

Local Open Scope char_scope.
Local Open Scope string_scope.
Local Open Scope list_scope.
Local Open Scope nat_scope.

(** ** Characters and the C library *)

Definition NUL : ascii := "000".
Definition DQUOTE : ascii := ascii_of_nat 34.
Definition BACKSLASH : ascii := ascii_of_nat 92.

Definition is_nul (c : ascii) : bool := Ascii.eqb c NUL.

(** [isspace] in the C locale: space, \t, \n, \v, \f, \r. *)
Definition isspace (c : ascii) : bool :=
  Ascii.eqb c " " || Ascii.eqb c "009" || Ascii.eqb c "010" ||
  Ascii.eqb c "011" || Ascii.eqb c "012" || Ascii.eqb c "013".

Definition isdigit (c : ascii) : bool :=
  (48 <=? nat_of_ascii c) && (nat_of_ascii c <=? 57).

Definition tolower (c : ascii) : ascii :=
  if (65 <=? nat_of_ascii c) && (nat_of_ascii c <=? 90)
  then ascii_of_nat (nat_of_ascii c + 32) else c.

(** [strcasecmp(a, b) == 0] on two owned strings. *)
Fixpoint strcasecmp_eq (a b : string) : bool :=
  match a, b with
  | EmptyString, EmptyString => true
  | String x a', String y b' => Ascii.eqb (tolower x) (tolower y) && strcasecmp_eq a' b'
  | _, _ => false
  end.

(** ** The node types of mmd.h *)

(** Modelled from the spec: [mmd.h] is not part of the sources; the
    enumeration is the closed set of node types listed in the order of
    [mmd_type_string], all block types before [MMD_TYPE_NORMAL_TEXT]. *)
Inductive mmd_type_t : Set :=
  | MMD_TYPE_NONE
  | MMD_TYPE_DOCUMENT
  | MMD_TYPE_METADATA
  | MMD_TYPE_BLOCK_QUOTE
  | MMD_TYPE_ORDERED_LIST
  | MMD_TYPE_UNORDERED_LIST
  | MMD_TYPE_LIST_ITEM
  | MMD_TYPE_TABLE
  | MMD_TYPE_TABLE_HEADER
  | MMD_TYPE_TABLE_BODY
  | MMD_TYPE_TABLE_ROW
  | MMD_TYPE_HEADING_1
  | MMD_TYPE_HEADING_2
  | MMD_TYPE_HEADING_3
  | MMD_TYPE_HEADING_4
  | MMD_TYPE_HEADING_5
  | MMD_TYPE_HEADING_6
  | MMD_TYPE_PARAGRAPH
  | MMD_TYPE_CODE_BLOCK
  | MMD_TYPE_THEMATIC_BREAK
  | MMD_TYPE_TABLE_HEADER_CELL
  | MMD_TYPE_TABLE_BODY_CELL_LEFT
  | MMD_TYPE_TABLE_BODY_CELL_CENTER
  | MMD_TYPE_TABLE_BODY_CELL_RIGHT
  | MMD_TYPE_NORMAL_TEXT
  | MMD_TYPE_EMPHASIZED_TEXT
  | MMD_TYPE_STRONG_TEXT
  | MMD_TYPE_STRUCK_TEXT
  | MMD_TYPE_LINKED_TEXT
  | MMD_TYPE_CODE_TEXT
  | MMD_TYPE_IMAGE
  | MMD_TYPE_HARD_BREAK
  | MMD_TYPE_SOFT_BREAK
  | MMD_TYPE_METADATA_TEXT.

#[global] Instance mmd_type_eq_dec : EqDecision mmd_type_t.
Proof. solve_decision. Defined.

(** [MMD_TYPE_HEADING_1 + k] for the [k] extra [#] characters of a heading
    line, [k <= 5]. *)
Definition heading_plus (k : nat) : mmd_type_t :=
  match k with
  | 0 => MMD_TYPE_HEADING_1
  | 1 => MMD_TYPE_HEADING_2
  | 2 => MMD_TYPE_HEADING_3
  | 3 => MMD_TYPE_HEADING_4
  | 4 => MMD_TYPE_HEADING_5
  | _ => MMD_TYPE_HEADING_6
  end.

(** ** struct _mmd_s and the heap of nodes *)

(** A pointer to a node: its index in the heap. *)
Abbreviation ptr := nat (only parsing).

(** [whitespace] is an [int] in C; every call of [mmd_add] passes 0 or 1. *)
Record mmd_t : Type := mk_mmd {
  type : mmd_type_t;
  whitespace : bool;
  text : option string;
  url : option string;
  parent : option ptr;
  first_child : option ptr;
  last_child : option ptr;
  prev_sibling : option ptr;
  next_sibling : option ptr
}.

Abbreviation heap := (list mmd_t) (only parsing).

(** The node [calloc(1, sizeof(mmd_t))] returns: every field zero.  The
    enumeration value 0 is [MMD_TYPE_DOCUMENT]. *)
Definition calloc_node : mmd_t :=
  mk_mmd MMD_TYPE_DOCUMENT false None None None None None None None.

Definition set_type (v : mmd_type_t) (n : mmd_t) : mmd_t :=
  mk_mmd v (whitespace n) (text n) (url n) (parent n) (first_child n)
         (last_child n) (prev_sibling n) (next_sibling n).
Definition set_whitespace (v : bool) (n : mmd_t) : mmd_t :=
  mk_mmd (type n) v (text n) (url n) (parent n) (first_child n)
         (last_child n) (prev_sibling n) (next_sibling n).
Definition set_text (v : option string) (n : mmd_t) : mmd_t :=
  mk_mmd (type n) (whitespace n) v (url n) (parent n) (first_child n)
         (last_child n) (prev_sibling n) (next_sibling n).
Definition set_url (v : option string) (n : mmd_t) : mmd_t :=
  mk_mmd (type n) (whitespace n) (text n) v (parent n) (first_child n)
         (last_child n) (prev_sibling n) (next_sibling n).
Definition set_parent (v : option ptr) (n : mmd_t) : mmd_t :=
  mk_mmd (type n) (whitespace n) (text n) (url n) v (first_child n)
         (last_child n) (prev_sibling n) (next_sibling n).
Definition set_first_child (v : option ptr) (n : mmd_t) : mmd_t :=
  mk_mmd (type n) (whitespace n) (text n) (url n) (parent n) v
         (last_child n) (prev_sibling n) (next_sibling n).
Definition set_last_child (v : option ptr) (n : mmd_t) : mmd_t :=
  mk_mmd (type n) (whitespace n) (text n) (url n) (parent n) (first_child n)
         v (prev_sibling n) (next_sibling n).
Definition set_prev_sibling (v : option ptr) (n : mmd_t) : mmd_t :=
  mk_mmd (type n) (whitespace n) (text n) (url n) (parent n) (first_child n)
         (last_child n) v (next_sibling n).
Definition set_next_sibling (v : option ptr) (n : mmd_t) : mmd_t :=
  mk_mmd (type n) (whitespace n) (text n) (url n) (parent n) (first_child n)
         (last_child n) (prev_sibling n) v.

(** [p->field = v]: a write through [p]; fails when [p] is not allocated. *)
Definition store (f : mmd_t -> mmd_t) (p : ptr) (h : heap) : option heap :=
  n ← h !! p; Some (<[p := f n]> h).

(** *** mmd_add *)

(** [calloc_ok] is the outcome of the [calloc]; on failure nothing is linked
    and [NULL] is returned. *)
Definition mmd_add (calloc_ok : bool) (h : heap) (parent_ : option ptr)
    (type_ : mmd_type_t) (whitespace_ : bool) (text_ url_ : option string)
  : option (heap * option ptr) :=
  if calloc_ok then
    let temp := length h in
    let h := h ++ [calloc_node] in
    h ← match parent_ with
        | Some par =>
            h ← store (set_parent (Some par)) temp h;
            pn ← h !! par;
            match last_child pn with
            | Some l =>
                h ← store (set_next_sibling (Some temp)) l h;
                h ← store (set_prev_sibling (Some l)) temp h;
                store (set_last_child (Some temp)) par h
            | None =>
                h ← store (set_last_child (Some temp)) par h;
                store (set_first_child (Some temp)) par h
            end
        | None => Some h
        end;
    h ← store (set_type type_) temp h;
    h ← store (set_whitespace whitespace_) temp h;
    h ← match text_ with
        | Some _ => store (set_text text_) temp h
        | None => Some h
        end;
    h ← match url_ with
        | Some _ => store (set_url url_) temp h
        | None => Some h
        end;
    Some (h, Some temp)
  else Some (h, None).

(** *** mmd_remove *)

Definition mmd_remove (h : heap) (node : ptr) : option heap :=
  n ← h !! node;
  match parent n with
  | Some par =>
      h ← match prev_sibling n with
          | Some pv => store (set_next_sibling (next_sibling n)) pv h
          | None => store (set_first_child (next_sibling n)) par h
          end;
      h ← match next_sibling n with
          | Some nx => store (set_prev_sibling (prev_sibling n)) nx h
          | None => store (set_last_child (prev_sibling n)) par h
          end;
      h ← store (set_parent None) node h;
      h ← store (set_prev_sibling None) node h;
      store (set_next_sibling None) node h
  | None => Some h
  end.

(** *** Accessors *)

(** [node ? node->field : NULL]. *)
Definition mmdGetFirstChild (h : heap) (node : option ptr) : option (option ptr) :=
  match node with
  | Some p => n ← h !! p; Some (first_child n)
  | None => Some None
  end.
Definition mmdGetNextSibling (h : heap) (node : option ptr) : option (option ptr) :=
  match node with
  | Some p => n ← h !! p; Some (next_sibling n)
  | None => Some None
  end.
Definition mmdGetParent (h : heap) (node : option ptr) : option (option ptr) :=
  match node with
  | Some p => n ← h !! p; Some (parent n)
  | None => Some None
  end.

(** *** mmdCopyAllText *)

(** The inner [while] of "find the next logical node": climb while the
    node is neither [NULL] nor [node] and has no next sibling. *)
Fixpoint climb (fuel : nat) (h : heap) (node next : option ptr)
  : option (option ptr) :=
  match fuel with
  | 0 => None
  | S fuel =>
      match next with
      | None => Some None
      | Some _ =>
          if decide (next = node) then Some next
          else
            ns ← mmdGetNextSibling h next;
            match ns with
            | None => par ← mmdGetParent h next; climb fuel h node par
            | Some _ => Some next
            end
      end
  end.

Definition next_logical (fuel : nat) (h : heap) (node current : option ptr)
  : option (option ptr) :=
  ns ← mmdGetNextSibling h current;
  match ns with
  | Some _ => Some ns
  | None =>
      par ← mmdGetParent h current;
      next ← climb fuel h node par;
      if decide (next = node) then Some next else mmdGetNextSibling h next
  end.

Definition ws_string (w : bool) : string := if w then " " else "".

(** The outer [while (current != node)].  [all] holds the bytes between
    [all] and [allptr]; [alloc_ok k] is the outcome of the [k]-th request to
    [malloc]/[realloc] made by this call.  The result [Some None] is a
    returned [NULL], [None] a crash or exhausted fuel. *)
Fixpoint copy_loop (fuel : nat) (h : heap) (node : option ptr)
    (alloc_ok : nat -> bool) (k : nat) (all : option string) (allsize : nat)
    (current : option ptr) : option (option string) :=
  match fuel with
  | 0 => None
  | S fuel =>
      if decide (current = node) then Some all
      else
        cur ← current;
        cn ← h !! cur;
        match text cn with
        | Some t =>
            let textlen := String.length t in
            if allsize =? 0 then
              if alloc_ok k then
                next ← next_logical (length h) h node current;
                copy_loop fuel h node alloc_ok (S k)
                  (Some (String.append (ws_string (whitespace cn)) t))
                  (textlen + (if whitespace cn then 1 else 0) + 1) next
              else Some None
            else
              if alloc_ok k then
                next ← next_logical (length h) h node current;
                copy_loop fuel h node alloc_ok (S k)
                  (Some (String.append (default "" all)
                           (String.append (ws_string (whitespace cn)) t)))
                  (allsize + textlen + (if whitespace cn then 1 else 0)) next
              else Some None
        | None =>
            next ← next_logical (length h) h node current;
            copy_loop fuel h node alloc_ok k all allsize next
        end
  end.

Definition mmdCopyAllText (fuel : nat) (h : heap) (alloc_ok : nat -> bool)
    (node : option ptr) : option (option string) :=
  current ← mmdGetFirstChild h node;
  copy_loop fuel h node alloc_ok 0 None 0 current.

(** ** The line buffer *)

Definition peek (buf : list ascii) (i : nat) : ascii := nth i buf NUL.

Definition poke (buf : list ascii) (i : nat) (c : ascii) : list ascii :=
  if i <? length buf then <[i := c]> buf
  else buf ++ replicate (i - length buf) NUL ++ [c].

(** The C string that starts a list of bytes. *)
Fixpoint cstr_list (l : list ascii) : string :=
  match l with
  | [] => EmptyString
  | c :: l' => if is_nul c then EmptyString else String c (cstr_list l')
  end.

(** [strdup(buf + i)] and [strlen(buf + i)]. *)
Definition cstr (buf : list ascii) (i : nat) : string := cstr_list (drop i buf).
Definition strlen (buf : list ascii) (i : nat) : nat := String.length (cstr buf i).

Fixpoint span_len (f : ascii -> bool) (l : list ascii) : nat :=
  match l with
  | [] => 0
  | c :: l' => if f c then S (span_len f l') else 0
  end.

(** The pointer reached by a [while] that advances over bytes passing the
    test [f] (false on NUL), started at [i]. *)
Definition scan (f : ascii -> bool) (buf : list ascii) (i : nat) : nat :=
  i + span_len f (drop i buf).

Fixpoint strchr_list (l : list ascii) (c : ascii) (i : nat) : option nat :=
  match l with
  | [] => None
  | x :: l' =>
      if Ascii.eqb x c then Some i
      else if is_nul x then None
      else strchr_list l' c (S i)
  end.

(** [strchr(buf + i, c)] for [c] other than NUL. *)
Definition strchr (buf : list ascii) (i : nat) (c : ascii) : option nat :=
  strchr_list (drop i buf) c i.

(** [!strncmp(buf + i, lit, strlen(lit))] for a literal without NUL. *)
Fixpoint has_prefix_list (l : list ascii) (lit : string) {struct lit} : bool :=
  match lit with
  | EmptyString => true
  | String c lit' =>
      match l with
      | x :: l' => Ascii.eqb x c && has_prefix_list l' lit'
      | [] => false
      end
  end.
Definition has_prefix (buf : list ascii) (i : nat) (lit : string) : bool :=
  has_prefix_list (drop i buf) lit.

(** ** The reference table *)

(** [pending] is [NULL] exactly when [num_pending] is 0: it is the list of
    pending nodes, [num_pending] its length. *)
Record _mmd_ref_t : Type := mk_ref {
  name : string;
  ref_url : option string;
  pending : list ptr
}.

(** *** mmd_ref_find *)

Fixpoint ref_find_from (refs : list _mmd_ref_t) (name_ : string) (i : nat)
  : option nat :=
  match refs with
  | [] => None
  | r :: refs' =>
      if strcasecmp_eq name_ (name r) then Some i
      else ref_find_from refs' name_ (S i)
  end.

Definition mmd_ref_find (refs : list _mmd_ref_t) (name_ : string) : option nat :=
  ref_find_from refs name_ 0.

(** [for (i ...) pending[i]->url = strdup(url)]. *)
Fixpoint set_urls (h : heap) (nodes : list ptr) (u : string) : option heap :=
  match nodes with
  | [] => Some h
  | p :: nodes' => h ← store (set_url (Some u)) p h; set_urls h nodes' u
  end.

(** *** mmd_ref_add *)

(** The final [if (node)] of [mmd_ref_add], for the entry at index [i]. *)
Definition ref_attach (h : heap) (refs : list _mmd_ref_t) (i : nat)
    (node : option ptr) : option (heap * list _mmd_ref_t) :=
  match node with
  | Some nd =>
      r ← refs !! i;
      match ref_url r with
      | Some u => h ← store (set_url (Some u)) nd h; Some (h, refs)
      | None =>
          Some (h, <[i := mk_ref (name r) (ref_url r) (pending r ++ [nd])]> refs)
      end
  | None => Some (h, refs)
  end.

Definition mmd_ref_add (h : heap) (refs : list _mmd_ref_t)
    (node : option ptr) (name_ : string) (url_ : option string)
  : option (heap * list _mmd_ref_t) :=
  match mmd_ref_find refs name_ with
  | Some i =>
      r ← refs !! i;
      match ref_url r, url_ with
      | None, Some u =>
          h ← match node with
              | Some nd => store (set_url (Some u)) nd h
              | None => Some h
              end;
          h ← set_urls h (pending r) u;
          Some (h, <[i := mk_ref (name r) (Some u) []]> refs)
      | _, _ => ref_attach h refs i node
      end
  | None =>
      ref_attach h (refs ++ [mk_ref name_ url_ []]) (length refs) node
  end.

(** ** The parser's memory: nodes, document and line buffer *)

(** [num_references] is the length of [references]. *)
Record _mmd_doc_t : Type := mk_doc {
  root : ptr;
  references : list _mmd_ref_t
}.

Record mem : Type := mk_mem {
  nodes : heap;
  doc : _mmd_doc_t;
  line : list ascii
}.

Definition with_nodes (h : heap) (m : mem) : mem := mk_mem h (doc m) (line m).
Definition with_line (buf : list ascii) (m : mem) : mem :=
  mk_mem (nodes m) (doc m) buf.
Definition with_references (refs : list _mmd_ref_t) (m : mem) : mem :=
  mk_mem (nodes m) (mk_doc (root (doc m)) refs) (line m).

(** A call of [mmd_add] by the parser, whose [calloc] succeeds. *)
Definition add (m : mem) (parent_ : ptr) (type_ : mmd_type_t)
    (whitespace_ : bool) (text_ url_ : option string) : option (mem * ptr) :=
  '(h, temp) ← mmd_add true (nodes m) (Some parent_) type_ whitespace_ text_ url_;
  temp ← temp;
  Some (with_nodes h m, temp).

(** A call of [mmd_ref_add] by the parser. *)
Definition ref_add (m : mem) (node : option ptr) (name_ : string)
    (url_ : option string) : option mem :=
  '(h, refs) ← mmd_ref_add (nodes m) (references (doc m)) node name_ url_;
  Some (with_references refs (with_nodes h m)).

(** ** mmd_parse_link *)

Definition not_end (close : ascii) (c : ascii) : bool :=
  negb (is_nul c) && negb (Ascii.eqb c close).

(** The scanning loops of [mmd_parse_link] up to [close], skipping quoted
    runs; with [splice] every whitespace byte is overwritten by NUL.  The
    boolean of the result tells that the function returned from inside the
    loop, at an unterminated quote. *)
Fixpoint link_scan (fuel : nat) (splice : bool) (close : ascii)
    (buf : list ascii) (lineptr : nat) : option (list ascii * nat * bool) :=
  match fuel with
  | 0 => None
  | S fuel =>
      let c := peek buf lineptr in
      if not_end close c then
        if splice && isspace c then
          link_scan fuel splice close (poke buf lineptr NUL) (S lineptr)
        else if Ascii.eqb c DQUOTE then
          let q := scan (not_end DQUOTE) buf (S lineptr) in
          if is_nul (peek buf q) then Some (buf, q, true)
          else link_scan fuel splice close buf (S q)
        else link_scan fuel splice close buf (S lineptr)
      else Some (buf, lineptr, false)
  end.

(** The result: the memory, the returned pointer, and the three output
    parameters [*text], [*url] and [*refname]. *)
Definition mmd_parse_link (m : mem) (lineptr : nat)
  : option (mem * nat * option nat * option nat * option nat) :=
  let fuel := S (length (line m)) in
  let lineptr := S lineptr in
  let text_ := lineptr in
  '(buf, lineptr, early) ← link_scan fuel false "]" (line m) lineptr;
  if (early : bool) then Some (with_line buf m, lineptr, Some text_, None, None)
  else if is_nul (peek buf lineptr) then
    Some (with_line buf m, lineptr, Some text_, None, None)
  else
    let buf := poke buf lineptr NUL in
    let lineptr := S lineptr in
    let lineptr := scan isspace buf lineptr in
    if Ascii.eqb (peek buf lineptr) "(" then
      let lineptr := S lineptr in
      let url_ := lineptr in
      '(buf, lineptr, early) ← link_scan fuel true ")" buf lineptr;
      if (early : bool) then Some (with_line buf m, lineptr, Some text_, Some url_, None)
      else
        let buf := poke buf lineptr NUL in
        Some (with_line buf m, S lineptr, Some text_, Some url_, None)
    else if Ascii.eqb (peek buf lineptr) "[" then
      let lineptr := S lineptr in
      let refname := lineptr in
      '(buf, lineptr, early) ← link_scan fuel true "]" buf lineptr;
      if (early : bool) then Some (with_line buf m, lineptr, Some text_, None, Some refname)
      else
        let buf := poke buf lineptr NUL in
        let refname := if is_nul (peek buf refname) then text_ else refname in
        Some (with_line buf m, S lineptr, Some text_, None, Some refname)
    else if Ascii.eqb (peek buf lineptr) ":" then
      let lineptr := S lineptr in
      let lineptr := scan isspace buf lineptr in
      let url_ := lineptr in
      let lineptr := scan (fun c => negb (is_nul c) && negb (isspace c)) buf lineptr in
      let buf := poke buf lineptr NUL in
      m ← ref_add (with_line buf m) None (cstr buf text_) (Some (cstr buf url_));
      Some (m, lineptr, None, None, None)
    else Some (with_line buf m, lineptr, Some text_, None, None).

(** ** mmd_parse_inline *)

(** The variables of the [for] loop. *)
Record inline_state : Type := mk_inline {
  i_mem : mem;
  i_lineptr : nat;
  i_text : option nat;
  i_type : mmd_type_t;
  i_whitespace : bool
}.

(** [if (text) { mmd_add(parent, type, whitespace, text, NULL); ... }] as it
    opens most branches: [cut] tells whether [*lineptr] is NUL during the
    [mmd_add], [reset] whether [whitespace] is cleared afterwards. *)
Definition flush_text (cut reset : bool) (parent_ : ptr) (s : inline_state)
  : option inline_state :=
  match i_text s with
  | Some t =>
      let buf := if cut then poke (line (i_mem s)) (i_lineptr s) NUL
                 else line (i_mem s) in
      '(m, _) ← add (i_mem s) parent_ (i_type s) (i_whitespace s)
                    (Some (cstr buf t)) None;
      Some (mk_inline m (i_lineptr s) None (i_type s)
              (if reset then false else i_whitespace s))
  | None => Some s
  end.

Definition char_at (s : inline_state) (k : nat) : ascii :=
  peek (line (i_mem s)) (i_lineptr s + k).

Definition is_code (t : mmd_type_t) : bool := bool_decide (t = MMD_TYPE_CODE_TEXT).
Definition is_normal (t : mmd_type_t) : bool := bool_decide (t = MMD_TYPE_NORMAL_TEXT).

(** The whitespace branch. *)
Definition inline_space (parent_ : ptr) (s : inline_state) : option inline_state :=
  s ← match i_text s with
      | Some t =>
          let m := with_line (poke (line (i_mem s)) (i_lineptr s) NUL) (i_mem s) in
          '(m, _) ← add m parent_ (i_type s) (i_whitespace s)
                        (Some (cstr (line m) t)) None;
          Some (mk_inline m (i_lineptr s) None (i_type s) (i_whitespace s))
      | None => Some s
      end;
  let s := mk_inline (i_mem s) (i_lineptr s) (i_text s) (i_type s) true in
  if isspace (char_at s 1) && is_nul (char_at s 2) then
    '(m, _) ← add (i_mem s) parent_ MMD_TYPE_HARD_BREAK false None None;
    Some (mk_inline m (i_lineptr s) (i_text s) (i_type s) (i_whitespace s))
  else Some s.

(** What follows the call of [mmd_parse_link] in the image and link
    branches: return at the end of the line, or step back one byte. *)
Definition after_link (m : mem) (lineptr : nat) (type_ : mmd_type_t)
  : inline_state * bool :=
  if is_nul (peek (line m) lineptr) then
    (mk_inline m lineptr None type_ false, true)
  else (mk_inline m (lineptr - 1) None type_ false, false).

(** The image branch. *)
Definition inline_image (parent_ : ptr) (s : inline_state)
  : option (inline_state * bool) :=
  s ← flush_text false true parent_ s;
  '(m, lineptr, text_, url_, refname) ← mmd_parse_link (i_mem s) (i_lineptr s + 1);
  m ← match url_, refname with
      | None, None => Some m
      | _, _ =>
          '(m, node) ← add m parent_ MMD_TYPE_IMAGE (i_whitespace s)
                         (cstr (line m) <$> text_) (cstr (line m) <$> url_);
          match refname with
          | Some r => ref_add m (Some node) (cstr (line m) r) None
          | None => Some m
          end
      end;
  Some (after_link m lineptr (i_type s)).

(** The link branch. *)
Definition inline_link (parent_ : ptr) (s : inline_state)
  : option (inline_state * bool) :=
  s ← flush_text false true parent_ s;
  '(m, lineptr, text_, url_, refname) ← mmd_parse_link (i_mem s) (i_lineptr s);
  '(m, node) ←
    match text_ with
    | Some t =>
        if Ascii.eqb (peek (line m) t) "`" then
          let end_ := t + strlen (line m) t - 1 in
          let t := S t in
          let m := if (t <? end_) && Ascii.eqb (peek (line m) end_) "`"
                   then with_line (poke (line m) end_ NUL) m else m in
          '(m, node) ← add m parent_ MMD_TYPE_CODE_TEXT (i_whitespace s)
                         (Some (cstr (line m) t)) (cstr (line m) <$> url_);
          Some (m, Some node)
        else
          '(m, node) ← add m parent_ MMD_TYPE_LINKED_TEXT (i_whitespace s)
                         (Some (cstr (line m) t)) (cstr (line m) <$> url_);
          Some (m, Some node)
    | None => Some (m, None)
    end;
  m ← match refname, node with
      | Some r, Some _ => ref_add m node (cstr (line m) r) None
      | _, _ => Some m
      end;
  Some (after_link m lineptr (i_type s)).

(** The autolink branch; [close] is the result of the [strchr]. *)
Definition inline_autolink (parent_ : ptr) (close : nat) (s : inline_state)
  : option inline_state :=
  s ← flush_text false true parent_ s;
  let url_ := i_lineptr s + 1 in
  let m := with_line (poke (line (i_mem s)) close NUL) (i_mem s) in
  let u := cstr (line m) url_ in
  '(m, _) ← add m parent_ MMD_TYPE_LINKED_TEXT (i_whitespace s) (Some u) (Some u);
  Some (mk_inline m close None (i_type s) false).

(** The branch of [*] and [_]. *)
Definition inline_emphasis (parent_ : ptr) (s : inline_state)
  : option inline_state :=
  let delim := char_at s 0 in
  s ← flush_text true true parent_ s;
  if is_normal (i_type s) then
    if Ascii.eqb (char_at s 1) delim && negb (isspace (char_at s 2)) then
      Some (mk_inline (i_mem s) (i_lineptr s + 1) (Some (i_lineptr s + 2))
              MMD_TYPE_STRONG_TEXT (i_whitespace s))
    else if negb (isspace (char_at s 1)) then
      Some (mk_inline (i_mem s) (i_lineptr s) (Some (i_lineptr s + 1))
              MMD_TYPE_EMPHASIZED_TEXT (i_whitespace s))
    else
      Some (mk_inline (i_mem s) (i_lineptr s) (Some (i_lineptr s + 1))
              (i_type s) (i_whitespace s))
  else
    Some (mk_inline (i_mem s)
            (if Ascii.eqb (char_at s 1) delim then i_lineptr s + 1 else i_lineptr s)
            (i_text s) MMD_TYPE_NORMAL_TEXT (i_whitespace s)).

(** The branch of [~~]. *)
Definition inline_strike (parent_ : ptr) (s : inline_state)
  : option inline_state :=
  s ← flush_text true true parent_ s;
  if negb (isspace (char_at s 2)) && is_normal (i_type s) then
    Some (mk_inline (i_mem s) (i_lineptr s) (Some (i_lineptr s + 2))
            MMD_TYPE_STRUCK_TEXT (i_whitespace s))
  else
    Some (mk_inline (i_mem s) (i_lineptr s + 1) (i_text s)
            MMD_TYPE_NORMAL_TEXT (i_whitespace s)).

(** The backtick branch; the NUL written over the backtick stays. *)
Definition inline_code (parent_ : ptr) (s : inline_state)
  : option inline_state :=
  s ← match i_text s with
      | Some t =>
          let m := with_line (poke (line (i_mem s)) (i_lineptr s) NUL) (i_mem s) in
          '(m, _) ← add m parent_ (i_type s) (i_whitespace s)
                        (Some (cstr (line m) t)) None;
          Some (mk_inline m (i_lineptr s) None (i_type s) false)
      | None => Some s
      end;
  if is_code (i_type s) then
    Some (mk_inline (i_mem s) (i_lineptr s) (i_text s) MMD_TYPE_NORMAL_TEXT
            (i_whitespace s))
  else
    Some (mk_inline (i_mem s) (i_lineptr s) (Some (i_lineptr s + 1))
            MMD_TYPE_CODE_TEXT (i_whitespace s)).

(** [memmove(lineptr, lineptr + 1, strlen(lineptr))]. *)
Definition memmove_left (buf : list ascii) (lineptr : nat) : list ascii :=
  let n := strlen buf lineptr in
  take lineptr buf ++ take n (drop (S lineptr) buf) ++ drop (lineptr + n) buf.

(** One pass through the body of the [for] loop, at a byte that is not NUL,
    without the final [lineptr ++].  The boolean tells that the function
    returned from inside the body. *)
Definition inline_step (parent_ : ptr) (s : inline_state)
  : option (inline_state * bool) :=
  let c := char_at s 0 in
  let code := is_code (i_type s) in
  if isspace c && negb code then
    s ← inline_space parent_ s; Some (s, false)
  else if Ascii.eqb c "!" && Ascii.eqb (char_at s 1) "[" && negb code then
    inline_image parent_ s
  else if Ascii.eqb c "[" && negb code then
    inline_link parent_ s
  else
    match (if Ascii.eqb c "<" && negb code
           then strchr (line (i_mem s)) (i_lineptr s + 1) ">" else None) with
    | Some close => s ← inline_autolink parent_ close s; Some (s, false)
    | None =>
        if (Ascii.eqb c "*" || Ascii.eqb c "_") && negb code then
          s ← inline_emphasis parent_ s; Some (s, false)
        else if Ascii.eqb c "~" && Ascii.eqb (char_at s 1) "~" && negb code then
          s ← inline_strike parent_ s; Some (s, false)
        else if Ascii.eqb c "`" then
          s ← inline_code parent_ s; Some (s, false)
        else
          match i_text s with
          | None =>
              let lineptr :=
                if Ascii.eqb c BACKSLASH && negb (is_nul (char_at s 1))
                then i_lineptr s + 1 else i_lineptr s in
              Some (mk_inline (i_mem s) lineptr (Some lineptr) (i_type s)
                      (i_whitespace s), false)
          | Some _ =>
              if Ascii.eqb c BACKSLASH && negb (is_nul (char_at s 1)) then
                Some (mk_inline
                        (with_line (memmove_left (line (i_mem s)) (i_lineptr s))
                                   (i_mem s))
                        (i_lineptr s) (i_text s) (i_type s) (i_whitespace s), false)
              else Some (s, false)
          end
    end.

Fixpoint inline_loop (fuel : nat) (parent_ : ptr) (s : inline_state)
  : option mem :=
  match fuel with
  | 0 => None
  | S fuel =>
      if is_nul (char_at s 0) then
        match i_text s with
        | Some t =>
            '(m, _) ← add (i_mem s) parent_ (i_type s) (i_whitespace s)
                          (Some (cstr (line (i_mem s)) t)) None;
            Some m
        | None => Some (i_mem s)
        end
      else
        '(s, returned) ← inline_step parent_ s;
        if returned : bool then Some (i_mem s)
        else inline_loop fuel parent_
               (mk_inline (i_mem s) (S (i_lineptr s)) (i_text s) (i_type s)
                  (i_whitespace s))
  end.

Definition mmd_parse_inline (m : mem) (parent_ : ptr) (line_ : nat)
  : option mem :=
  pn ← nodes m !! parent_;
  inline_loop (S (S (length (line m)))) parent_
    (mk_inline m line_ None MMD_TYPE_NORMAL_TEXT
       (bool_decide (last_child pn <> None))).

(** ** The input stream *)

(** A [FILE *] opened for reading: the bytes of the file and the position. *)
Record FILE : Type := mk_file {
  contents : list ascii;
  pos : nat
}.

Definition NEWLINE : ascii := "010".

Fixpoint read_line (n : nat) (l : list ascii) : list ascii :=
  match n, l with
  | S n, c :: l' => if Ascii.eqb c NEWLINE then [c] else c :: read_line n l'
  | _, _ => []
  end.

(** [fgets(line, size, fp)]: at most [size - 1] bytes, up to and including
    the first newline; [None] at the end of the file. *)
Definition fgets (size : nat) (fp : FILE) : option (list ascii * FILE) :=
  match read_line (size - 1) (drop (pos fp) (contents fp)) with
  | [] => None
  | chunk => Some (chunk, mk_file (contents fp) (pos fp + length chunk))
  end.

Definition ftell (fp : FILE) : nat := pos fp.
Definition fseek_set (fp : FILE) (p : nat) : FILE := mk_file (contents fp) p.

(** The buffer after [fgets] stored [chunk] and its terminator at its start. *)
Definition overlay (chunk buf : list ascii) : list ascii :=
  chunk ++ NUL :: drop (S (length chunk)) buf.

Definition sizeof_line : nat := 256 * 256.

(** ** mmd_is_table *)

(** The characters of the [strchr] test of [mmd_is_table]. *)
Definition is_separator_char (c : ascii) : bool :=
  Ascii.eqb c " " || Ascii.eqb c "009" || Ascii.eqb c "010" ||
  Ascii.eqb c "013" || Ascii.eqb c ":" || Ascii.eqb c "-" || Ascii.eqb c "|".

(** The [for] loop over the line and the final [!*ptr]; [at_start] is
    [ptr == line]. *)
Fixpoint table_scan (l : list ascii) (at_start : bool) : bool :=
  match l with
  | [] => true
  | c :: l' =>
      if is_nul c then true
      else if Ascii.eqb c ">" && at_start then table_scan l' false
      else if is_separator_char c then table_scan l' false
      else false
  end.

Definition mmd_is_table (fp : FILE) : bool * FILE :=
  let pos_ := ftell fp in
  match fgets sizeof_line fp with
  | Some (chunk, fp') => (table_scan chunk true, fseek_set fp' pos_)
  | None => (false, fseek_set fp pos_)
  end.

(** ** mmdLoadFile *)

(** The variables of [mmdLoadFile] that live across lines. *)
Record loader : Type := mk_loader {
  l_mem : mem;
  l_fp : FILE;
  l_current : ptr;
  l_block : option ptr;
  l_blank_code : bool;
  l_columns : list mmd_type_t;
  l_num_columns : nat;
  l_rows : Z
}.

Definition set_mem (m : mem) (s : loader) : loader :=
  mk_loader m (l_fp s) (l_current s) (l_block s) (l_blank_code s)
            (l_columns s) (l_num_columns s) (l_rows s).
Definition set_current (c : ptr) (s : loader) : loader :=
  mk_loader (l_mem s) (l_fp s) c (l_block s) (l_blank_code s)
            (l_columns s) (l_num_columns s) (l_rows s).
Definition set_block (b : option ptr) (s : loader) : loader :=
  mk_loader (l_mem s) (l_fp s) (l_current s) b (l_blank_code s)
            (l_columns s) (l_num_columns s) (l_rows s).
Definition set_blank_code (b : bool) (s : loader) : loader :=
  mk_loader (l_mem s) (l_fp s) (l_current s) (l_block s) b
            (l_columns s) (l_num_columns s) (l_rows s).

Definition the_root (s : loader) : ptr := root (doc (l_mem s)).

(** [p->type] and [p->parent]; the parent is read where the code goes on to
    dereference it, so a [NULL] parent is a failure. *)
Definition type_of (m : mem) (p : ptr) : option mmd_type_t :=
  n ← nodes m !! p; Some (type n).
Definition parent_of (m : mem) (p : ptr) : option ptr :=
  n ← nodes m !! p; parent n.

Definition is_type (t u : mmd_type_t) : bool := bool_decide (t = u).

(** [mmd_add] without text, the new node stored in [block]. *)
Definition add_block (s : loader) (parent_ : ptr) (type_ : mmd_type_t)
  : option loader :=
  '(m, b) ← add (l_mem s) parent_ type_ false None None;
  Some (set_block (Some b) (set_mem m s)).

(** *** Indented code *)

Definition load_indented (s : loader) : option loader :=
  s ← (if decide (l_current s = the_root s) then
         '(m, c) ← add (l_mem s) (the_root s) MMD_TYPE_CODE_BLOCK false None None;
         Some (set_current c (set_mem m s))
       else Some s);
  s ← (if l_blank_code s then
         '(m, _) ← add (l_mem s) (l_current s) MMD_TYPE_CODE_TEXT false
                       (Some (String NEWLINE EmptyString)) None;
         Some (set_mem m s)
       else Some s);
  '(m, _) ← add (l_mem s) (l_current s) MMD_TYPE_CODE_TEXT false
                (Some (cstr (line (l_mem s)) 4)) None;
  Some (set_blank_code false (set_mem m s)).

(** *** Code fences *)

Definition load_fence (s : loader) : option loader :=
  match l_block s with
  | Some b =>
      bt ← type_of (l_mem s) b;
      if is_type bt MMD_TYPE_CODE_BLOCK then Some (set_block None s)
      else if is_type bt MMD_TYPE_LIST_ITEM then add_block s b MMD_TYPE_CODE_BLOCK
      else
        bp ← parent_of (l_mem s) b;
        bpt ← type_of (l_mem s) bp;
        if is_type bpt MMD_TYPE_LIST_ITEM then add_block s bp MMD_TYPE_CODE_BLOCK
        else add_block s (l_current s) MMD_TYPE_CODE_BLOCK
  | None => add_block s (l_current s) MMD_TYPE_CODE_BLOCK
  end.

(** *** Document metadata *)

Fixpoint load_metadata (fuel : nat) (m : mem) (fp : FILE) (block : ptr)
  : option (mem * FILE) :=
  match fuel with
  | 0 => None
  | S fuel =>
      match fgets sizeof_line fp with
      | None => Some (m, fp)
      | Some (chunk, fp) =>
          let m := with_line (overlay chunk (line m)) m in
          let lineptr := scan isspace (line m) 0 in
          if has_prefix (line m) 0 "---" || has_prefix (line m) 0 "..." then
            Some (m, fp)
          else
            let lineend := lineptr + strlen (line m) lineptr - 1 in
            let m := if (lineptr <? lineend) && Ascii.eqb (peek (line m) lineend) NEWLINE
                     then with_line (poke (line m) lineend NUL) m else m in
            '(m, _) ← add m block MMD_TYPE_METADATA_TEXT false
                          (Some (cstr (line m) lineptr)) None;
            load_metadata fuel m fp block
      end
  end.

(** *** Thematic breaks *)

Definition is_break_start (buf : list ascii) (lineptr : nat) : bool :=
  has_prefix buf lineptr "---" || has_prefix buf lineptr "***" ||
  has_prefix buf lineptr "___".

(** The pointer after [lineptr += 3] and the [while] over [ch] and
    whitespace. *)
Definition break_end (buf : list ascii) (lineptr : nat) : nat :=
  let ch := peek buf lineptr in
  scan (fun c => negb (is_nul c) && (Ascii.eqb c ch || isspace c)) buf (lineptr + 3).

(** The first part of the loop body, up to the thematic break: either the
    line is finished ([continue]) or classification goes on at a pointer. *)
Inductive flow : Type :=
  | Continue (s : loader)
  | Next (s : loader) (lineptr : nat).

Definition load_start (s : loader) : option flow :=
  let buf := line (l_mem s) in
  let lineptr := scan isspace buf 0 in
  indented ←
    (if (4 <=? lineptr) && bool_decide (l_block s = None) then
       if decide (l_current s = the_root s) then Some true
       else ct ← type_of (l_mem s) (l_current s);
            Some (is_type ct MMD_TYPE_CODE_BLOCK)
     else Some false);
  if indented : bool then Continue <$> load_indented s
  else if Ascii.eqb (peek buf lineptr) "`" &&
          (is_nul (peek buf (lineptr + 1)) || Ascii.eqb (peek buf (lineptr + 1)) "`")
  then Continue <$> load_fence s
  else
    bt ← match l_block s with
         | Some b => Some <$> type_of (l_mem s) b
         | None => Some None
         end;
    if bool_decide (bt = Some MMD_TYPE_CODE_BLOCK) then
      b ← l_block s;
      '(m, _) ← add (l_mem s) b MMD_TYPE_CODE_TEXT false (Some (cstr buf 0)) None;
      Some (Continue (set_mem m s))
    else
      metadata ←
        (if has_prefix buf lineptr "---" then
           rn ← nodes (l_mem s) !! the_root s;
           Some (bool_decide (first_child rn = None))
         else Some false);
      if metadata : bool then
        '(m, b) ← add (l_mem s) (the_root s) MMD_TYPE_METADATA false None None;
        '(m, fp) ← load_metadata (S (length (contents (l_fp s)))) m (l_fp s) b;
        Some (Continue (mk_loader m fp (l_current s) None (l_blank_code s)
                          (l_columns s) (l_num_columns s) (l_rows s)))
      else if bool_decide (l_block s = None) && is_break_start buf lineptr then
        let lineptr := break_end buf lineptr in
        if is_nul (peek buf lineptr) then
          '(m, _) ← add (l_mem s) (l_current s) MMD_TYPE_THEMATIC_BREAK false None None;
          Some (Continue (set_block None (set_mem m s)))
        else Some (Next s lineptr)
      else Some (Next s lineptr).

(** *** Block quotes *)

(** [for (node = current; node != doc.root && node->type != BLOCK_QUOTE;
    node = node->parent);] *)
Fixpoint quote_ancestor (fuel : nat) (m : mem) (node : ptr) : option ptr :=
  match fuel with
  | 0 => None
  | S fuel =>
      if decide (node = root (doc m)) then Some node
      else
        t ← type_of m node;
        if is_type t MMD_TYPE_BLOCK_QUOTE then Some node
        else p ← parent_of m node; quote_ancestor fuel m p
  end.

Definition load_quote (s : loader) (lineptr : nat) : option (loader * nat) :=
  let buf := line (l_mem s) in
  if Ascii.eqb (peek buf lineptr) ">" then
    node ← quote_ancestor (S (length (nodes (l_mem s)))) (l_mem s) (l_current s);
    fresh ← (if decide (node = the_root s) then Some true
             else t ← type_of (l_mem s) node;
                  Some (negb (is_type t MMD_TYPE_BLOCK_QUOTE)));
    s ← (if fresh : bool
         then '(m, c) ← add (l_mem s) (the_root s) MMD_TYPE_BLOCK_QUOTE false None None;
              Some (set_current c (set_mem m s))
         else Some s);
    Some (s, scan isspace buf (S lineptr))
  else
    ct ← type_of (l_mem s) (l_current s);
    if is_type ct MMD_TYPE_BLOCK_QUOTE then
      p ← parent_of (l_mem s) (l_current s);
      Some (set_current p s, lineptr)
    else if is_type ct MMD_TYPE_TABLE then
      cn ← nodes (l_mem s) !! l_current s;
      match parent cn with
      | Some p =>
          pt ← type_of (l_mem s) p;
          if is_type pt MMD_TYPE_BLOCK_QUOTE then
            pp ← parent_of (l_mem s) p;
            Some (set_current pp s, lineptr)
          else Some (s, lineptr)
      | None => Some (s, lineptr)
      end
    else Some (s, lineptr).

(** *** Tables *)

Definition column (columns : list mmd_type_t) (col : nat) : mmd_type_t :=
  default MMD_TYPE_TABLE_BODY_CELL_LEFT (columns !! col).

(** The [while] that steps [end] back over newline and [r] bytes while it
    is above [lineptr]. *)
Fixpoint trim_end (buf : list ascii) (lineptr end_ : nat) : nat :=
  match end_ with
  | 0 => 0
  | S e =>
      if (Ascii.eqb (peek buf end_) NEWLINE || Ascii.eqb (peek buf end_) "r") &&
         (lineptr <? end_)
      then trim_end buf lineptr e else end_
  end.

(** The [for] that steps [end] back over whitespace while it is above
    [start]. *)
Fixpoint trim_space (buf : list ascii) (start end_ : nat) : nat :=
  match end_ with
  | 0 => 0
  | S e =>
      if (start <? end_) && isspace (peek buf end_)
      then trim_space buf start e else end_
  end.

(** The alignment a cell of the separator row gives its column. *)
Definition separator_cell (buf : list ascii) (start : nat)
    (columns : list mmd_type_t) (col : nat) : list mmd_type_t :=
  let start := scan isspace buf start in
  let end_ := trim_space buf start (start + strlen buf start - 1) in
  if Ascii.eqb (peek buf start) ":" && Ascii.eqb (peek buf end_) ":" then
    <[col := MMD_TYPE_TABLE_BODY_CELL_CENTER]> columns
  else if Ascii.eqb (peek buf end_) ":" then
    <[col := MMD_TYPE_TABLE_BODY_CELL_RIGHT]> columns
  else columns.

(** The loop over the cells of a row; [fuel] is the number of columns left
    of the 256, so its end is the end of the loop. *)
Fixpoint table_cells (fuel : nat) (m : mem) (block row : option ptr)
    (columns : list mmd_type_t) (lineptr : option nat) (col : nat)
  : option (mem * list mmd_type_t * nat) :=
  match fuel with
  | 0 => Some (m, columns, col)
  | S fuel =>
      match lineptr with
      | None => Some (m, columns, col)
      | Some p =>
          if is_nul (peek (line m) p) then Some (m, columns, col)
          else
            let start := p in
            let next := strchr (line m) (S p) "|" in
            let m := match next with
                     | Some q => with_line (poke (line m) q NUL) m
                     | None => m
                     end in
            let lineptr := S <$> next in
            match block with
            | Some b =>
                bt ← type_of m b;
                r ← row;
                '(m, cell) ← add m r
                    (if is_type bt MMD_TYPE_TABLE_HEADER
                     then MMD_TYPE_TABLE_HEADER_CELL else column columns col)
                    false None None;
                m ← mmd_parse_inline m cell start;
                table_cells fuel m block row columns lineptr (S col)
            | None =>
                table_cells fuel m block row
                  (separator_cell (line m) start columns col) lineptr (S col)
            end
      end
  end.

(** [while (col < num_columns) { mmd_add(row, columns[col], ...); col ++; }] *)
Fixpoint pad_row (m : mem) (row : ptr) (columns : list mmd_type_t)
    (cols : list nat) : option mem :=
  match cols with
  | [] => Some m
  | col :: cols' =>
      '(m, _) ← add m row (column columns col) false None None;
      pad_row m row columns cols'
  end.

Definition load_table (s : loader) (lineptr : nat) : option loader :=
  ct ← type_of (l_mem s) (l_current s);
  s ← (if negb (is_type ct MMD_TYPE_TABLE) then
         c ← (if negb (bool_decide (l_current s = the_root s)) &&
                 negb (is_type ct MMD_TYPE_BLOCK_QUOTE)
              then parent_of (l_mem s) (l_current s) else Some (l_current s));
         '(m, c) ← add (l_mem s) c MMD_TYPE_TABLE false None None;
         '(m, b) ← add m c MMD_TYPE_TABLE_HEADER false None None;
         Some (mk_loader m (l_fp s) c (Some b) (l_blank_code s)
                 (replicate 256 MMD_TYPE_TABLE_BODY_CELL_LEFT) 0 (-1)%Z)
       else if (0 <? l_rows s)%Z then
         if (l_rows s =? 1)%Z then add_block s (l_current s) MMD_TYPE_TABLE_BODY
         else Some s
       else Some (set_block None s));
  '(m, row) ← match l_block s with
              | Some b =>
                  '(m, r) ← add (l_mem s) b MMD_TYPE_TABLE_ROW false None None;
                  Some (m, Some r)
              | None => Some (l_mem s, None)
              end;
  let lineptr := if Ascii.eqb (peek (line m) lineptr) "|" then S lineptr else lineptr in
  let end_ := lineptr + strlen (line m) lineptr - 1 in
  let m := if lineptr <? end_ then
             let end_ := trim_end (line m) lineptr end_ in
             if (lineptr <? end_) && Ascii.eqb (peek (line m) end_) "|"
             then with_line (poke (line m) end_ NUL) m else m
           else m in
  '(m, columns, col) ← table_cells 256 m (l_block s) row (l_columns s) (Some lineptr) 0;
  '(m, num_columns) ←
    (if l_num_columns s <? col then Some (m, col)
     else
       match l_block s with
       | Some b =>
           bt ← type_of m b;
           if negb (is_type bt MMD_TYPE_TABLE_HEADER) then
             r ← row;
             m ← pad_row m r columns (seq col (l_num_columns s - col));
             Some (m, l_num_columns s)
           else Some (m, l_num_columns s)
       | None => Some (m, l_num_columns s)
       end);
  Some (mk_loader m (l_fp s) (l_current s) (l_block s) (l_blank_code s)
          columns num_columns (l_rows s + 1)%Z).

Definition set_fp (fp : FILE) (s : loader) : loader :=
  mk_loader (l_mem s) fp (l_current s) (l_block s) (l_blank_code s)
            (l_columns s) (l_num_columns s) (l_rows s).

(** [strchr(lineptr, '|') && (current->type == MMD_TYPE_TABLE ||
    mmd_is_table(fp))] with the stream the test leaves: the lookahead is
    only made for a line with a [|] outside a table. *)
Definition table_test (buf : list ascii) (lineptr : nat) (ct : mmd_type_t)
    (fp : FILE) : bool * FILE :=
  if bool_decide (strchr buf lineptr "|" <> None) then
    if is_type ct MMD_TYPE_TABLE then (true, fp) else mmd_is_table fp
  else (false, fp).

(** The blank-line, table and end-of-table part of the loop body. *)
Definition load_table_or_blank (s : loader) (lineptr : nat) : option flow :=
  let buf := line (l_mem s) in
  ct ← type_of (l_mem s) (l_current s);
  if is_nul (peek buf lineptr) then
    Some (Continue (set_block None (set_blank_code (is_type ct MMD_TYPE_CODE_BLOCK) s)))
  else
    let '(table, fp) := table_test buf lineptr ct (l_fp s) in
    let s := set_fp fp s in
    if table : bool then Continue <$> load_table s lineptr
    else if is_type ct MMD_TYPE_TABLE then
      p ← parent_of (l_mem s) (l_current s);
      Some (Next (set_block None (set_current p s)) lineptr)
    else Some (Next s lineptr).

(** *** Lists, headings and paragraphs *)

(** The outcome of the last classification: the line is finished, or it is
    inline content of a block of the given type. *)
Inductive classified : Type :=
  | Finished (s : loader)
  | Content (s : loader) (lineptr : nat) (type_ : mmd_type_t).

(** The line [+]. *)
Definition load_plus (s : loader) : option loader :=
  match l_block s with
  | Some b =>
      bt ← type_of (l_mem s) b;
      if is_type bt MMD_TYPE_LIST_ITEM then add_block s b MMD_TYPE_PARAGRAPH
      else
        bp ← parent_of (l_mem s) b;
        bpt ← type_of (l_mem s) bp;
        if is_type bpt MMD_TYPE_LIST_ITEM then add_block s bp MMD_TYPE_PARAGRAPH
        else Some (set_block None s)
  | None => Some s
  end.

(** An underline below a paragraph [b]. *)
Definition load_setext (s : loader) (b : ptr) (lineptr : nat) : option classified :=
  let buf := line (l_mem s) in
  let ch := peek buf lineptr in
  let lineptr := scan (Ascii.eqb ch) buf (lineptr + 3) in
  let lineptr := scan isspace buf lineptr in
  if is_nul (peek buf lineptr) then
    h ← store (set_type (if Ascii.eqb ch "=" then MMD_TYPE_HEADING_1
                         else MMD_TYPE_HEADING_2)) b (nodes (l_mem s));
    Some (Finished (set_block None (set_mem (with_nodes h (l_mem s)) s)))
  else Some (Content s lineptr MMD_TYPE_PARAGRAPH).

(** The list an item line goes to: the last child of the root when it is a
    list of that kind, the current node when it is one, or a new list. *)
Definition enter_list (s : loader) (list_type : mmd_type_t) (quoted : bool)
  : option loader :=
  reuse ←
    (if decide (l_current s = the_root s) then
       rn ← nodes (l_mem s) !! the_root s;
       match last_child rn with
       | Some l => lt ← type_of (l_mem s) l;
                   Some (if is_type lt list_type then Some l else None)
       | None => Some None
       end
     else Some None);
  match reuse with
  | Some l => Some (set_block None (set_current l s))
  | None =>
      ct ← type_of (l_mem s) (l_current s);
      if negb (is_type ct list_type) then
        let par := if quoted then
                     (if is_type ct MMD_TYPE_BLOCK_QUOTE then l_current s else the_root s)
                   else l_current s in
        '(m, c) ← add (l_mem s) par list_type false None None;
        Some (set_block None (set_current c (set_mem m s)))
      else Some (set_block None s)
  end.

(** The loop that cuts the trailing [#] bytes of a heading, from [temp]
    down to above [lineptr]. *)
Fixpoint strip_hashes (buf : list ascii) (lineptr temp : nat) : list ascii :=
  match temp with
  | 0 => buf
  | S t =>
      if (lineptr <? temp) && Ascii.eqb (peek buf temp) "#"
      then strip_hashes (poke buf temp NUL) lineptr t else buf
  end.

Definition load_heading (s : loader) (lineptr : nat) : option classified :=
  let buf := line (l_mem s) in
  let temp := scan (Ascii.eqb "#") buf (lineptr + 1) in
  ct ← type_of (l_mem s) (l_current s);
  let s' := if negb (is_type ct MMD_TYPE_BLOCK_QUOTE)
            then set_current (the_root s) s else s in
  if temp - lineptr <=? 6 then
    let type_ := heading_plus (temp - lineptr - 1) in
    let lineptr := scan isspace buf temp in
    let buf := strip_hashes buf lineptr (lineptr + strlen buf lineptr - 1) in
    Some (Content (set_block None (set_mem (with_line buf (l_mem s')) s'))
            lineptr type_)
  else Some (Content s' lineptr MMD_TYPE_PARAGRAPH).

Definition load_classify (s : loader) (lineptr : nat) : option classified :=
  let buf := line (l_mem s) in
  let c := peek buf lineptr in
  if String.eqb (cstr buf lineptr) "+" then Finished <$> load_plus s
  else
    bt ← match l_block s with
         | Some b => Some <$> type_of (l_mem s) b
         | None => Some None
         end;
    match (if bool_decide (bt = Some MMD_TYPE_PARAGRAPH) &&
              (has_prefix buf lineptr "---" || has_prefix buf lineptr "===")
           then l_block s else None) with
    | Some b => load_setext s b lineptr
    | None =>
        if (Ascii.eqb c "-" || Ascii.eqb c "+" || Ascii.eqb c "*") &&
           isspace (peek buf (lineptr + 1))
        then
          s ← enter_list s MMD_TYPE_UNORDERED_LIST true;
          Some (Content s (scan isspace buf (lineptr + 2)) MMD_TYPE_LIST_ITEM)
        else if isdigit c then
          let temp := scan isdigit buf (lineptr + 1) in
          if Ascii.eqb (peek buf temp) "." && isspace (peek buf (temp + 1)) then
            s ← enter_list s MMD_TYPE_ORDERED_LIST false;
            Some (Content s (scan isspace buf (temp + 2)) MMD_TYPE_LIST_ITEM)
          else Some (Content s lineptr (default MMD_TYPE_PARAGRAPH bt))
        else if Ascii.eqb c "#" then load_heading s lineptr
        else
          match bt with
          | None =>
              Some (Content (if decide (lineptr = 0) then set_current (the_root s) s
                             else s) lineptr MMD_TYPE_PARAGRAPH)
          | Some t => Some (Content s lineptr t)
          end
    end.

(** The end of the loop body: open a block of the type when the active one
    is of another, and tokenize the rest of the line into it. *)
Definition load_content (s : loader) (lineptr : nat) (type_ : mmd_type_t)
  : option loader :=
  bt ← match l_block s with
       | Some b => Some <$> type_of (l_mem s) b
       | None => Some None
       end;
  s ← (if bool_decide (bt = Some type_) then Some s
       else
         ct ← type_of (l_mem s) (l_current s);
         let s := if is_type ct MMD_TYPE_CODE_BLOCK
                  then set_current (the_root s) s else s in
         add_block s (l_current s) type_);
  b ← l_block s;
  m ← mmd_parse_inline (l_mem s) b lineptr;
  Some (set_mem m s).

(** *** The loop over the lines *)

(** The body of the [while (fgets(...))] loop, for the line in the buffer. *)
Definition load_line (s : loader) : option loader :=
  f ← load_start s;
  match f with
  | Continue s => Some s
  | Next s lineptr =>
      '(s, lineptr) ← load_quote s lineptr;
      f ← load_table_or_blank s lineptr;
      match f with
      | Continue s => Some s
      | Next s lineptr =>
          c ← load_classify s lineptr;
          match c with
          | Finished s => Some s
          | Content s lineptr type_ => load_content s lineptr type_
          end
      end
  end.

Fixpoint load_loop (fuel : nat) (s : loader) : option loader :=
  match fuel with
  | 0 => None
  | S fuel =>
      match fgets sizeof_line (l_fp s) with
      | None => Some s
      | Some (chunk, fp) =>
          s ← load_line (set_fp fp (set_mem (with_line (overlay chunk (line (l_mem s)))
                                                        (l_mem s)) s));
          load_loop fuel s
      end
  end.

(** The loop at the end of [mmdLoadFile] over the references: the nodes
    still pending get the name of their reference as URL. *)
Fixpoint resolve_pending (h : heap) (refs : list _mmd_ref_t) : option heap :=
  match refs with
  | [] => Some h
  | r :: refs' => h ← set_urls h (pending r) (name r); resolve_pending h refs'
  end.

(** The result is the heap of nodes and [doc.root].  The buffer [line], in C
    an array on the stack that is not initialised, starts empty here and
    reads as NUL beyond its end: what is parsed from a line whose link scan
    steps past the terminator (a [(] or [[] that is not closed) rests on
    this choice. *)
Definition mmdLoadFile (fp : FILE) : option (heap * ptr) :=
  '(h, r) ← mmd_add true [] None MMD_TYPE_DOCUMENT false None None;
  r ← r;
  s ← load_loop (S (length (contents fp)))
        (mk_loader (mk_mem h (mk_doc r []) []) fp r None false
           (replicate 256 MMD_TYPE_TABLE_BODY_CELL_LEFT) 0 0%Z);
  h ← resolve_pending (nodes (l_mem s)) (references (doc (l_mem s)));
  Some (h, r).

(** ** Reading a tree back *)

(** The nodes below a node as the accessors show them: type, whitespace,
    text, URL and children, first child first. *)
#[local] Unset Elimination Schemes.
Inductive tree : Type :=
  | Node (type_ : mmd_type_t) (whitespace_ : bool) (text_ url_ : option string)
         (children : list tree).
#[local] Set Elimination Schemes.

Fixpoint view_list (fuel : nat) (h : heap) (node : option ptr) : option (list tree) :=
  match fuel with
  | 0 => None
  | S fuel =>
      match node with
      | None => Some []
      | Some p =>
          n ← h !! p;
          cs ← view_list fuel h (first_child n);
          rest ← view_list fuel h (next_sibling n);
          Some (Node (type n) (whitespace n) (text n) (url n) cs :: rest)
      end
  end.

(** A file with the given text, opened at its start. *)
Definition file_of (input : string) : FILE :=
  mk_file (list_ascii_of_string input) 0.

(** The tree of a parsed file. *)
Definition parse (input : string) : option (list tree) :=
  '(h, r) ← mmdLoadFile (file_of input);
  view_list (S (length h)) h (Some r).

(** The newline as a string. *)
Definition LF : string := String NEWLINE EmptyString.

(** A document node with text leaves as children, built by [mmd_add]. *)
Fixpoint add_leaves (h : heap) (par : ptr) (items : list (bool * string))
  : option heap :=
  match items with
  | [] => Some h
  | (w, t) :: items' =>
      '(h, _) ← mmd_add true h (Some par) MMD_TYPE_NORMAL_TEXT w (Some t) None;
      add_leaves h par items'
  end.

Definition leaves_heap (items : list (bool * string)) : option heap :=
  '(h, _) ← mmd_add true [] None MMD_TYPE_DOCUMENT false None None;
  add_leaves h 0 items.

(** ** Notions used to state the properties *)

(** Every field of a node but its URL. *)
Definition same_links (n n' : mmd_t) : Prop :=
  type n' = type n /\ whitespace n' = whitespace n /\ text n' = text n /\
  parent n' = parent n /\ first_child n' = first_child n /\
  last_child n' = last_child n /\ prev_sibling n' = prev_sibling n /\
  next_sibling n' = next_sibling n.

(** *** The child list of a node *)

Definition prev_of (cs : list ptr) (k : nat) : option ptr :=
  match k with
  | 0 => None
  | S k' => cs !! k'
  end.

(** [cs] is the list of children of [p]: [first_child] and [last_child] of
    [p] are its ends, every member has [p] as parent, [next_sibling] leads
    from each member to the next and [prev_sibling] back. *)
Definition children (h : heap) (p : ptr) (cs : list ptr) : Prop :=
  (exists n, h !! p = Some n /\ first_child n = head cs /\ last_child n = last cs) /\
  forall k c, cs !! k = Some c ->
    exists m, h !! c = Some m /\ parent m = Some p /\
              prev_sibling m = prev_of cs k /\ next_sibling m = cs !! S k.

(** The consistency of the links of a heap: every node has a child list,
    is a member of the child list of its parent, and has no siblings when
    it has no parent. *)
Definition consistent (h : heap) : Prop :=
  forall p n, h !! p = Some n ->
    (exists cs, children h p cs) /\
    match parent n with
    | Some q => exists cs, children h q cs /\ p ∈ cs
    | None => prev_sibling n = None /\ next_sibling n = None
    end.

(** *** The text below a node *)

(** The whitespace flag and text of the nodes of a list that carry text. *)
Definition text_items (h : heap) (cs : list ptr) : list (bool * string) :=
  omap (fun c => n ← h !! c; t ← text n; Some (whitespace n, t)) cs.

(** The texts in order, a space before each one whose flag is set. *)
Fixpoint join_items (items : list (bool * string)) : string :=
  match items with
  | [] => EmptyString
  | (w, t) :: items' =>
      String.append (ws_string w) (String.append t (join_items items'))
  end.

(** [NULL] without any text, the joined texts otherwise. *)
Definition copied (items : list (bool * string)) : option string :=
  match items with
  | [] => None
  | _ => Some (join_items items)
  end.

(** The buffer [mmdCopyAllText] has built from [all] after the items, under
    the allocation outcomes from the [k]-th on; [None] when one fails. *)
Fixpoint copy_items (alloc_ok : nat -> bool) (k : nat) (all : option string)
    (items : list (bool * string)) : option string :=
  match items with
  | [] => all
  | (w, t) :: items' =>
      if alloc_ok k then
        copy_items alloc_ok (S k)
          (Some (String.append (default EmptyString all)
                   (String.append (ws_string w) t))) items'
      else None
  end.

(** The text [collect_text] is specified to give for the items of the
    descendants: as [join_items], but without the space of the first. *)
Definition join_items_spec (items : list (bool * string)) : string :=
  match items with
  | [] => EmptyString
  | (_, t) :: items' => String.append t (join_items items')
  end.

(** The items of a tree in depth-first order. *)
Fixpoint tree_items (t : tree) : list (bool * string) :=
  match t with
  | Node _ w tx _ cs =>
      match tx with Some s => [(w, s)] | None => [] end ++
      (fix go (ts : list tree) : list (bool * string) :=
         match ts with
         | [] => []
         | t' :: ts' => tree_items t' ++ go ts'
         end) cs
  end.

Definition descendant_items (t : tree) : list (bool * string) :=
  match t with
  | Node _ _ _ _ cs => concat (map tree_items cs)
  end.

(** *** The table lookahead *)

(** The bytes of the C string at the start of a list. *)
Fixpoint c_chars (l : list ascii) : list ascii :=
  match l with
  | [] => []
  | c :: l' => if is_nul c then [] else c :: c_chars l'
  end.

(** The characters of a separator line: [:], [-], [|], space, tab, CR and
    LF. *)
Definition separator_char (c : ascii) : Prop :=
  c = ":"%char \/ c = "-"%char \/ c = "|"%char \/ c = " "%char \/
  c = "009"%char \/ c = "013"%char \/ c = "010"%char.

(** A line of these characters only, after one [>] it may start with. *)
Definition separator_line (l : list ascii) : Prop :=
  exists body, (l = body \/ l = ">"%char :: body) /\ Forall separator_char body.

(** The line as the specification words it: [:], [-], [|] and whitespace
    only, after one [>] it may start with. *)
Definition separator_line_spec (l : list ascii) : Prop :=
  exists body, (l = body \/ l = ">"%char :: body) /\
    Forall (fun c => c = ":"%char \/ c = "-"%char \/ c = "|"%char \/
                     isspace c = true) body.

(** A stream at the start of the given bytes. *)
Definition file_at (l : list ascii) : FILE := mk_file l 0.

(** *** Counting nodes *)


(** *** Thematic breaks *)

(** A buffer whose string is, after its leading whitespace, three [ch] and
    then nothing but [ch] and whitespace, for [ch] one of [-], [*], [_]. *)
Definition break_line (buf : list ascii) (ch : ascii) : Prop :=
  (ch = "-"%char \/ ch = "*"%char \/ ch = "_"%char) /\
  exists body,
    c_chars (drop (scan isspace buf 0) buf) = ch :: ch :: ch :: body /\
    Forall (fun c => c = ch \/ isspace c = true) body.

(** *** A heap for the examples *)

(** A document with the leaves [Hello] and [world]. *)
Definition example_heap : heap :=
  default [] (leaves_heap [(false, "Hello"); (true, "world")]).



(** The loader after [fgets] has read the line of three asterisks that
    starts a file. *)
Definition break_state : loader :=
  mk_loader
    (mk_mem [mk_mmd MMD_TYPE_DOCUMENT false None None None None None None None]
       (mk_doc 0 [])
       (overlay (list_ascii_of_string (String.append "***" LF)) []))
    (mk_file (list_ascii_of_string (String.append "***" LF)) 4)
    0 None false (replicate 256 MMD_TYPE_TABLE_BODY_CELL_LEFT) 0 0%Z.

(** ** The other functions of the library *)

(** *** Invariants of the reference table *)

(** No two entries of the table have the same name, case ignored. *)
Definition distinct_names (refs : list _mmd_ref_t) : Prop :=
  forall i j ri rj, refs !! i = Some ri -> refs !! j = Some rj ->
    strcasecmp_eq (name ri) (name rj) = true -> i = j.


(** *** The other accessors *)

(** [node ? node->field : NULL], for the other accessors; the type of
    [NULL] is [MMD_TYPE_NONE] and its whitespace 0. *)
Definition mmdGetLastChild (h : heap) (node : option ptr) : option (option ptr) :=
  match node with
  | Some p => n ← h !! p; Some (last_child n)
  | None => Some None
  end.
Definition mmdGetPrevSibling (h : heap) (node : option ptr) : option (option ptr) :=
  match node with
  | Some p => n ← h !! p; Some (prev_sibling n)
  | None => Some None
  end.
Definition mmdGetText (h : heap) (node : option ptr) : option (option string) :=
  match node with
  | Some p => n ← h !! p; Some (text n)
  | None => Some None
  end.
Definition mmdGetType (h : heap) (node : option ptr) : option mmd_type_t :=
  match node with
  | Some p => n ← h !! p; Some (type n)
  | None => Some MMD_TYPE_NONE
  end.
Definition mmdGetURL (h : heap) (node : option ptr) : option (option string) :=
  match node with
  | Some p => n ← h !! p; Some (url n)
  | None => Some None
  end.
Definition mmdGetWhitespace (h : heap) (node : option ptr) : option bool :=
  match node with
  | Some p => n ← h !! p; Some (whitespace n)
  | None => Some false
  end.

(** *** mmdGetMetadata *)

(** [snprintf(prefix, sizeof(prefix), "%s:", keyword)] with the 256 bytes
    of [prefix]: the first 255 bytes of the keyword and the colon. *)
Definition metadata_prefix (keyword : string) : string :=
  string_of_list_ascii
    (take 255 (list_ascii_of_string (String.append keyword ":"))).

(** [s + k] for [k] within the string. *)
Fixpoint string_drop (k : nat) (s : string) : string :=
  match k, s with
  | S k', String _ s' => string_drop k' s'
  | _, _ => s
  end.

(** The [while] that steps [value] over whitespace. *)
Fixpoint skip_space (s : string) : string :=
  match s with
  | String c s' => if isspace c then skip_space s' else s
  | EmptyString => EmptyString
  end.

(** The [for] loop over the children of the metadata node; the [strncmp]
    reads [current->text], so a child without text is a failure. *)
Fixpoint metadata_loop (fuel : nat) (h : heap) (prefix_ : string)
    (current : option ptr) : option (option string) :=
  match fuel with
  | 0 => None
  | S fuel =>
      match current with
      | None => Some None
      | Some c =>
          n ← h !! c;
          t ← text n;
          if String.prefix prefix_ t
          then Some (Some (skip_space (string_drop (String.length prefix_) t)))
          else metadata_loop fuel h prefix_ (next_sibling n)
      end
  end.

Definition mmdGetMetadata (fuel : nat) (h : heap) (doc_ : option ptr)
    (keyword : string) : option (option string) :=
  match doc_ with
  | None => Some None
  | Some d =>
      dn ← h !! d;
      match first_child dn with
      | None => Some None
      | Some md =>
          mn ← h !! md;
          if is_type (type mn) MMD_TYPE_METADATA
          then metadata_loop fuel h (metadata_prefix keyword) (first_child mn)
          else Some None
      end
  end.

(** The value the lookup gives for the texts of the metadata lines: the
    rest of the first text that starts with the prefix, after the whitespace
    that follows the prefix. *)
Fixpoint metadata_value (prefix_ : string) (texts : list string) : option string :=
  match texts with
  | [] => None
  | t :: texts' =>
      if String.prefix prefix_ t
      then Some (skip_space (string_drop (String.length prefix_) t))
      else metadata_value prefix_ texts'
  end.

(** The texts of a list of nodes that all carry text. *)
Definition node_texts (h : heap) (cs : list ptr) (texts : list string) : Prop :=
  Forall2 (fun c t => exists n, h !! c = Some n /\ text n = Some t) cs texts.


(** The heap of the document that starts with the metadata
    [title: Hello] and [author: A. Writer]. *)
Definition metadata_heap : heap :=
  match mmdLoadFile
          (file_of (String.append "---" (String.append LF
                   (String.append "title: Hello" (String.append LF
                   (String.append "author:   A. Writer" (String.append LF
                   (String.append "---" LF)))))))) with
  | Some (h, _) => h
  | None => []
  end.

(** *** mmd_free and mmdFree *)

(** The nodes passed to [free] so far, in order.  A node that has been
    freed can no longer be read, written or freed: an access to it is a
    failure. *)
Definition load (h : heap) (freed : list ptr) (p : ptr) : option mmd_t :=
  if decide (p ∈ freed) then None else h !! p.

(** [mmd_free]: the text and the URL are owned by the node and go with
    it. *)
Definition mmd_free (h : heap) (freed : list ptr) (node : ptr)
  : option (list ptr) :=
  _ ← load h freed node; Some (freed ++ [node]).

(** The [for] loop of [mmdFree]. *)
Fixpoint free_loop (fuel : nat) (h : heap) (freed : list ptr) (node : ptr)
    (current : option ptr) : option (heap * list ptr) :=
  match fuel with
  | 0 => None
  | S fuel =>
      match current with
      | None => Some (h, freed)
      | Some c =>
          cn ← load h freed c;
          match first_child cn with
          | Some next =>
              h ← store (set_first_child None) c h;
              free_loop fuel h freed node (Some next)
          | None =>
              let next :=
                match next_sibling cn with
                | Some nx => Some nx
                | None => if decide (parent cn = Some node) then None else parent cn
                end in
              freed ← mmd_free h freed c;
              free_loop fuel h freed node next
          end
      end
  end.

(** [mmdFree] on a heap in which no node has been freed: the heap it
    leaves and the nodes it has freed, in order. *)
Definition mmdFree (fuel : nat) (h : heap) (node : option ptr)
  : option (heap * list ptr) :=
  node ← node;
  h ← mmd_remove h node;
  n ← h !! node;
  '(h, freed) ← free_loop fuel h [] node (first_child n);
  freed ← mmd_free h freed node;
  Some (h, freed).

(** *** The tree below a node *)

(** A tree of node pointers. *)
#[local] Unset Elimination Schemes.
Inductive ptree : Type :=
  | PNode (p : ptr) (cs : list ptree).

Definition root_of (t : ptree) : ptr :=
  match t with PNode p _ => p end.

(** The pointers of a tree, a node before its children, and in the order
    in which a walk that frees the children before their parent meets
    them. *)
Fixpoint ptrs (t : ptree) : list ptr :=
  match t with PNode p cs => p :: (cs ≫= ptrs) end.
Fixpoint postorder (t : ptree) : list ptr :=
  match t with PNode p cs => (cs ≫= postorder) ++ [p] end.

(** The heap holds the tree: the child list of every node of the tree is
    the list of the roots of its subtrees. *)
Inductive shape (h : heap) : ptree -> Prop :=
  | shape_node p cs :
      children h p (root_of <$> cs) -> Forall (shape h) cs ->
      shape h (PNode p cs).
#[local] Set Elimination Schemes.

(** The nodes of a list have the parent [p], and each has the next of the
    list as next sibling. *)
Definition chain (h : heap) (p : ptr) (cs : list ptr) : Prop :=
  forall k c, cs !! k = Some c ->
    exists m, h !! c = Some m /\ parent m = Some p /\ next_sibling m = cs !! S k.

(** The node the loop of [mmdFree] goes to after it has freed a node. *)
Definition next_after (node : ptr) (cn : mmd_t) : option ptr :=
  match next_sibling cn with
  | Some nx => Some nx
  | None => if decide (parent cn = Some node) then None else parent cn
  end.

(** The loop of [mmdFree], started at the root of a tree that is intact and
    below [node], frees the tree, the children before their parent, and
    goes on where [next_after] tells, having written to the tree only. *)
Definition frees_subtree (node : ptr) (t : ptree) : Prop :=
  forall h freed cn,
    shape h t -> NoDup (ptrs t) -> node ∉ ptrs t ->
    (forall q, q ∈ ptrs t -> q ∉ freed) ->
    h !! root_of t = Some cn ->
    exists h' k, k <= 2 * length (ptrs t) /\
      (forall q, q ∉ ptrs t -> h' !! q = h !! q) /\
      forall fuel,
        free_loop (k + fuel) h freed node (Some (root_of t)) =
          free_loop fuel h' (freed ++ postorder t) node (next_after node cn).

(** *** The changes the loader makes to the nodes *)

(** The types of the nodes that get children; the others are the ten
    types of the text runs, links, images, breaks and metadata lines. *)
Definition is_container (t : mmd_type_t) : bool :=
  match t with
  | MMD_TYPE_NORMAL_TEXT | MMD_TYPE_EMPHASIZED_TEXT | MMD_TYPE_STRONG_TEXT
  | MMD_TYPE_STRUCK_TEXT | MMD_TYPE_LINKED_TEXT | MMD_TYPE_CODE_TEXT
  | MMD_TYPE_IMAGE | MMD_TYPE_HARD_BREAK | MMD_TYPE_SOFT_BREAK
  | MMD_TYPE_METADATA_TEXT => false
  | _ => true
  end.

(** An allocated node of a container type. *)
Definition cont (h : heap) (p : ptr) : Prop :=
  exists n, h !! p = Some n /\ is_container (type n) = true.

(** One change: a node added under a container, with text only when it is
    not a container itself; a URL stored in a node; or the type of a
    paragraph changed to another container type. *)
Inductive heap_step : heap -> heap -> Prop :=
  | step_add h par ty ws tx ur h' t :
      cont h par -> (tx <> None -> is_container ty = false) ->
      mmd_add true h (Some par) ty ws tx ur = Some (h', t) -> heap_step h h'
  | step_url h p u h' : store (set_url u) p h = Some h' -> heap_step h h'
  | step_type h p n ty h' :
      h !! p = Some n -> type n = MMD_TYPE_PARAGRAPH -> is_container ty = true ->
      store (set_type ty) p h = Some h' -> heap_step h h'.

(** The second heap comes from the first by such changes. *)
Inductive grows : heap -> heap -> Prop :=
  | grows_refl h : grows h h
  | grows_step h1 h2 h3 : heap_step h1 h2 -> grows h2 h3 -> grows h1 h3.

(** The heap of a document: the links are consistent; node 0 is the
    document and has no parent; every other node has a parent that was
    allocated before it; a node that has a child is of a container type, and
    a node that carries text is not. *)
Definition tree_heap (h : heap) : Prop :=
  consistent h /\
  (exists n, h !! 0 = Some n /\ type n = MMD_TYPE_DOCUMENT /\ parent n = None) /\
  (forall q n, h !! q = Some n -> q <> 0 -> exists p, parent n = Some p /\ p < q) /\
  (forall q n, h !! q = Some n ->
     (first_child n <> None -> is_container (type n) = true) /\
     (text n <> None -> is_container (type n) = false)).

(** The loader's variables: the root is node 0, the current node and the
    active block are containers, and the column types are container
    types. *)
Definition loader_ok (s : loader) : Prop :=
  root (doc (l_mem s)) = 0 /\
  cont (nodes (l_mem s)) (l_current s) /\
  (forall b, l_block s = Some b -> cont (nodes (l_mem s)) b) /\
  Forall (fun t => is_container t = true) (l_columns s).

(** What the classification of a line keeps: the heap has grown, the state
    of the loader is sound, and a block that is to be opened for the rest
    of the line is of a container type. *)
Definition classified_ok (s : loader) (c : classified) : Prop :=
  match c with
  | Finished s' => grows (nodes (l_mem s)) (nodes (l_mem s')) /\ loader_ok s'
  | Content s' _ ty =>
      grows (nodes (l_mem s)) (nodes (l_mem s')) /\ loader_ok s' /\
      is_container ty = true
  end.


(** *** The tree of a document *)

(** [q] is the node [c] or a node below it: the [parent] links lead from
    [q] up to [c]. *)
Inductive below (h : heap) (c : ptr) : ptr -> Prop :=
  | below_self : below h c c
  | below_child q n p :
      h !! q = Some n -> parent n = Some p -> below h c p -> below h c q.


(** *** A document for the examples *)

(** The text of a file from its lines. *)
Definition unlines (ls : list string) : string :=
  foldr (fun l rest => String.append l (String.append LF rest)) EmptyString ls.

(** A document with a heading, a list item with emphasis and a link, and a
    table, and the heap the loader builds for it. *)
Definition sample_file : FILE :=
  file_of (unlines ["# Title"; ""; "- *one* [two](http://x.example)"; "";
                    "|a|b|"; "|-|-|"; "|1|2|"]).

Definition sample_heap : heap :=
  match mmdLoadFile sample_file with
  | Some (h, _) => h
  | None => []
  end.

(** * Properties *)

(** ** The embedding on documented examples *)

Example heading_example :
  parse (String.append "# Title" LF) =
    Some [Node MMD_TYPE_DOCUMENT false None None
            [Node MMD_TYPE_HEADING_1 false None None
               [Node MMD_TYPE_NORMAL_TEXT false (Some "Title") None []]]].
Proof. vm_compute. reflexivity. Qed.

Example setext_example :
  parse (String.append "Setext" (String.append LF (String.append "======" LF))) =
    Some [Node MMD_TYPE_DOCUMENT false None None
            [Node MMD_TYPE_HEADING_1 false None None
               [Node MMD_TYPE_NORMAL_TEXT false (Some "Setext") None []]]].
Proof. vm_compute. reflexivity. Qed.

Example table_example :
  parse (String.append "| A | B |" (String.append LF
           (String.append "|---|:-:|" (String.append LF
              (String.append "| 1 | 2 |" LF))))) =
    Some [Node MMD_TYPE_DOCUMENT false None None
            [Node MMD_TYPE_TABLE false None None
               [Node MMD_TYPE_TABLE_HEADER false None None
                  [Node MMD_TYPE_TABLE_ROW false None None
                     [Node MMD_TYPE_TABLE_HEADER_CELL false None None
                        [Node MMD_TYPE_NORMAL_TEXT true (Some "A") None []];
                      Node MMD_TYPE_TABLE_HEADER_CELL false None None
                        [Node MMD_TYPE_NORMAL_TEXT true (Some "B") None []]]];
                Node MMD_TYPE_TABLE_BODY false None None
                  [Node MMD_TYPE_TABLE_ROW false None None
                     [Node MMD_TYPE_TABLE_BODY_CELL_LEFT false None None
                        [Node MMD_TYPE_NORMAL_TEXT true (Some "1") None []];
                      Node MMD_TYPE_TABLE_BODY_CELL_CENTER false None None
                        [Node MMD_TYPE_NORMAL_TEXT true (Some "2") None []]]]]]].
Proof. vm_compute. reflexivity. Qed.

Example inline_example :
  parse "**bold** and *em* and ~~gone~~ and `code`" =
    Some [Node MMD_TYPE_DOCUMENT false None None
            [Node MMD_TYPE_PARAGRAPH false None None
               [Node MMD_TYPE_STRONG_TEXT false (Some "bold") None [];
                Node MMD_TYPE_NORMAL_TEXT true (Some "and") None [];
                Node MMD_TYPE_EMPHASIZED_TEXT true (Some "em") None [];
                Node MMD_TYPE_NORMAL_TEXT true (Some "and") None [];
                Node MMD_TYPE_STRUCK_TEXT true (Some "gone") None [];
                Node MMD_TYPE_NORMAL_TEXT true (Some "and") None [];
                Node MMD_TYPE_CODE_TEXT true (Some "code") None []]]].
Proof. vm_compute. reflexivity. Qed.

(** ** Writes through pointers *)

Section store_facts.
Implicit Types (h : heap) (p q : ptr) (f g : mmd_t -> mmd_t) (n : mmd_t).

Lemma store_Some f p h n :
  h !! p = Some n -> store f p h = Some (<[p := f n]> h).
Proof. intros E. unfold store. rewrite E. reflexivity. Qed.

Lemma store_inv f p h h' :
  store f p h = Some h' -> exists n, h !! p = Some n /\ h' = <[p := f n]> h.
Proof.
  unfold store. destruct (h !! p) as [n|] eqn:E; simpl; [|discriminate].
  intros [= <-]. eauto.
Qed.

Lemma store_length f p h h' : store f p h = Some h' -> length h' = length h.
Proof. intros (n & _ & ->)%store_inv. apply length_insert. Qed.

Lemma store_lookup f p h h' q :
  store f p h = Some h' ->
  h' !! q = if decide (q = p) then f <$> h !! q else h !! q.
Proof.
  intros (n & E & ->)%store_inv. destruct (decide (q = p)) as [->|Hne].
  - rewrite list_lookup_insert_eq by (eapply lookup_lt_Some; eauto).
    rewrite E. reflexivity.
  - apply list_lookup_insert_ne. congruence.
Qed.

End store_facts.

(** ** The reference table *)

Section reference_table.
Implicit Types (h : heap) (refs : list _mmd_ref_t) (r : _mmd_ref_t)
  (u : string) (ps : list ptr).

Lemma same_links_refl n : same_links n n.
Proof. repeat split. Qed.

Lemma same_links_set_url n n' v : same_links n n' -> same_links n (set_url v n').
Proof. intros H. exact H. Qed.

Lemma set_urls_total h ps u :
  Forall (fun p => p < length h) ps ->
  exists h', set_urls h ps u = Some h' /\ length h' = length h /\
    (forall p, p ∈ ps -> exists n, h' !! p = Some n /\ url n = Some u) /\
    (forall p, p ∉ ps -> h' !! p = h !! p) /\
    (forall p n, h !! p = Some n ->
       exists n', h' !! p = Some n' /\ same_links n n').
Proof.
  intros Hall. revert h Hall.
  induction ps as [|p ps IH]; intros h Hall; simpl.
  - exists h. repeat split; eauto using same_links_refl.
    intros p Hp. inversion Hp.
  - inversion Hall as [|? ? Hp Hps]; subst.
    destruct (lookup_lt_is_Some_2 h p Hp) as [n E].
    rewrite (store_Some _ _ _ _ E). simpl.
    destruct (IH (<[p := set_url (Some u) n]> h)) as (h' & E' & Hlen & Hin & Hout & Hsame).
    { rewrite length_insert. exact Hps. }
    exists h'. rewrite E'. split; [reflexivity|].
    split; [rewrite Hlen; apply length_insert|].
    split; [|split].
    + intros q Hq. destruct (decide (q ∈ ps)) as [Hq'|Hq']; [eauto|].
      apply elem_of_cons in Hq as [->|Hq]; [|tauto].
      rewrite (Hout _ Hq'), list_lookup_insert_eq by exact Hp.
      eexists. split; reflexivity.
    + intros q Hq. apply not_elem_of_cons in Hq as [Hne Hq].
      rewrite (Hout _ Hq). apply list_lookup_insert_ne. congruence.
    + intros q m Em. destruct (decide (q = p)) as [->|Hne].
      * destruct (Hsame p (set_url (Some u) n)) as (n' & En' & Hs).
        { apply list_lookup_insert_eq. exact Hp. }
        exists n'. split; [exact En'|]. rewrite E in Em. injection Em as <-. exact Hs.
      * apply Hsame. rewrite list_lookup_insert_ne by congruence. exact Em.
Qed.

Lemma ref_find_from_Some refs nm i j :
  ref_find_from refs nm i = Some j ->
  i <= j /\ exists r, refs !! (j - i) = Some r /\ strcasecmp_eq nm (name r) = true.
Proof.
  revert i. induction refs as [|r refs IH]; intros i; simpl; [discriminate|].
  destruct (strcasecmp_eq nm (name r)) eqn:E.
  - intros [= <-]. split; [lia|]. exists r. rewrite Nat.sub_diag. auto.
  - intros (Hle & r' & Er' & Hr')%IH. split; [lia|]. exists r'.
    replace (j - i) with (S (j - S i)) by lia. auto.
Qed.

Lemma ref_find_from_None refs nm i :
  ref_find_from refs nm i = None ->
  forall r, r ∈ refs -> strcasecmp_eq nm (name r) = false.
Proof.
  revert i. induction refs as [|r refs IH]; intros i; simpl.
  - intros _ r Hr. inversion Hr.
  - destruct (strcasecmp_eq nm (name r)) eqn:E; [discriminate|].
    intros Hn r' [->|Hr']%elem_of_cons; eauto.
Qed.

(** The lookup is by name without regard to case, and gives an entry of
    the table. *)
Lemma mmd_ref_find_Some refs nm i :
  mmd_ref_find refs nm = Some i ->
  exists r, refs !! i = Some r /\ strcasecmp_eq nm (name r) = true.
Proof.
  intros (_ & r & E & Hr)%ref_find_from_Some. rewrite Nat.sub_0_r in E. eauto.
Qed.

Lemma mmd_ref_find_is_Some refs nm r :
  r ∈ refs -> strcasecmp_eq nm (name r) = true -> is_Some (mmd_ref_find refs nm).
Proof.
  intros Hr Hn. destruct (mmd_ref_find refs nm) eqn:E; [eauto|].
  rewrite (ref_find_from_None _ _ _ E r Hr) in Hn. discriminate.
Qed.

(** A definition for an entry that has no URL yet. *)
Lemma ref_add_defines h refs nm u i r :
  mmd_ref_find refs nm = Some i -> refs !! i = Some r -> ref_url r = None ->
  Forall (fun p => p < length h) (pending r) ->
  exists h', mmd_ref_add h refs None nm (Some u) =
               Some (h', <[i := mk_ref (name r) (Some u) []]> refs) /\
    length h' = length h /\
    (forall p, p ∈ pending r -> exists n, h' !! p = Some n /\ url n = Some u) /\
    (forall p, p ∉ pending r -> h' !! p = h !! p) /\
    (forall p n, h !! p = Some n -> exists n', h' !! p = Some n' /\ same_links n n').
Proof.
  intros Hf Hr Hu Hall. unfold mmd_ref_add. rewrite Hf, Hr. simpl. rewrite Hu.
  destruct (set_urls_total h (pending r) u Hall) as (h' & E & Hrest).
  exists h'. simpl. rewrite E. simpl. split; [reflexivity|exact Hrest].
Qed.

(** A definition for an entry that has a URL changes nothing. *)
Lemma ref_add_defined h refs nm u' i r u :
  mmd_ref_find refs nm = Some i -> refs !! i = Some r -> ref_url r = Some u ->
  mmd_ref_add h refs None nm (Some u') = Some (h, refs).
Proof.
  intros Hf Hr Hu. unfold mmd_ref_add. rewrite Hf, Hr. simpl. rewrite Hu.
  reflexivity.
Qed.

Lemma ref_attach_keeps h refs j node h' refs' i r u :
  ref_attach h refs j node = Some (h', refs') ->
  refs !! i = Some r -> ref_url r = Some u ->
  exists r', refs' !! i = Some r' /\ name r' = name r /\ ref_url r' = Some u.
Proof.
  unfold ref_attach. intros H Hr Hu. destruct node as [nd|].
  - destruct (refs !! j) as [rj|] eqn:Ej; simpl in H; [|discriminate].
    destruct (ref_url rj) eqn:Euj.
    + destruct (store _ nd h); simpl in H; [|discriminate].
      injection H as <- <-. eauto.
    + injection H as <- <-. destruct (decide (i = j)) as [->|Hne].
      * congruence.
      * rewrite list_lookup_insert_ne by congruence. eauto.
  - injection H as <- <-. eauto.
Qed.

(** Whatever the call, an entry that has a URL keeps its name and URL. *)
Lemma ref_add_keeps h refs node nm url_ h' refs' i r u :
  mmd_ref_add h refs node nm url_ = Some (h', refs') ->
  refs !! i = Some r -> ref_url r = Some u ->
  exists r', refs' !! i = Some r' /\ name r' = name r /\ ref_url r' = Some u.
Proof.
  unfold mmd_ref_add. intros H Hr Hu.
  destruct (mmd_ref_find refs nm) as [j|] eqn:Ef.
  - destruct (refs !! j) as [rj|] eqn:Ej; simpl in H; [|discriminate].
    destruct (ref_url rj) eqn:Euj; [eauto using ref_attach_keeps|].
    destruct url_ as [u'|]; [|eauto using ref_attach_keeps].
    destruct (match node with Some nd => _ | None => _ end); simpl in H; [|discriminate].
    destruct (set_urls _ _ _); simpl in H; [|discriminate].
    injection H as <- <-.
    destruct (decide (i = j)) as [->|Hne]; [congruence|].
    rewrite list_lookup_insert_ne by congruence. eauto.
  - eapply ref_attach_keeps; [exact H| |exact Hu].
    apply lookup_app_l_Some. exact Hr.
Qed.

Lemma set_urls_other h ps u h' p :
  set_urls h ps u = Some h' -> p ∉ ps -> h' !! p = h !! p.
Proof.
  revert h. induction ps as [|q ps IH]; intros h H Hno; simpl in H.
  - congruence.
  - destruct (store _ q h) as [h1|] eqn:E1; simpl in H; [|discriminate].
    apply not_elem_of_cons in Hno as [Hne Hno].
    rewrite (IH _ H Hno), (store_lookup _ _ _ _ p E1).
    destruct (decide (p = q)); congruence.
Qed.

Lemma resolve_pending_other h refs h' p :
  resolve_pending h refs = Some h' ->
  (forall r, r ∈ refs -> p ∉ pending r) -> h' !! p = h !! p.
Proof.
  revert h. induction refs as [|r refs IH]; intros h H Hno; simpl in H.
  - congruence.
  - destruct (set_urls h (pending r) (name r)) as [h1|] eqn:E1;
      simpl in H; [|discriminate].
    rewrite (IH _ H) by (intros; apply Hno, elem_of_cons; auto).
    apply (set_urls_other _ _ _ _ _ E1). apply Hno, elem_of_cons. auto.
Qed.

(** The last loop of [mmdLoadFile]: every pending node gets the name of its
    entry as URL. *)
Lemma resolve_pending_total h refs :
  Forall (fun r => Forall (fun p => p < length h) (pending r)) refs ->
  exists h', resolve_pending h refs = Some h' /\ length h' = length h /\
    (forall i r p, refs !! i = Some r -> p ∈ pending r ->
       (forall j r', i < j -> refs !! j = Some r' -> p ∉ pending r') ->
       exists n, h' !! p = Some n /\ url n = Some (name r)) /\
    (forall p n, h !! p = Some n -> exists n', h' !! p = Some n' /\ same_links n n').
Proof.
  intros Hall. revert h Hall.
  induction refs as [|r refs IH]; intros h Hall; simpl.
  - exists h. repeat split; eauto using same_links_refl.
    intros i r p Hr. rewrite lookup_nil in Hr. discriminate.
  - inversion Hall as [|? ? Hr Hrefs]; subst.
    destruct (set_urls_total h (pending r) (name r) Hr)
      as (h1 & E1 & Hlen1 & Hin1 & Hout1 & Hsame1).
    rewrite E1. simpl.
    destruct (IH h1) as (h' & E' & Hlen & Hin & Hsame).
    { rewrite Hlen1. exact Hrefs. }
    exists h'. split; [exact E'|]. split; [congruence|]. split.
    + intros [|i] r0 p Hr0 Hp Hlater; simpl in Hr0.
      * injection Hr0 as <-. destruct (Hin1 p Hp) as (n & En & Hun).
        exists n. split; [|exact Hun].
        rewrite (resolve_pending_other _ _ _ _ E'); [exact En|].
        intros r' [j Hj]%list_elem_of_lookup_1.
        apply (Hlater (S j)); [lia|exact Hj].
      * apply (Hin i r0 p Hr0 Hp). intros j r' Hlt Hj.
        apply (Hlater (S j)); [lia|exact Hj].
    + intros p n En. destruct (Hsame1 p n En) as (n1 & En1 & Hs1).
      destruct (Hsame p n1 En1) as (n' & En' & Hs').
      exists n'. split; [exact En'|].
      unfold same_links in *. intuition congruence.
Qed.
End reference_table.

(** ** The table lookahead *)

Section lookahead.
Implicit Types (fp : FILE) (l : list ascii).

Lemma fgets_Some size fp chunk fp' :
  fgets size fp = Some (chunk, fp') ->
  chunk <> [] /\ fp' = mk_file (contents fp) (pos fp + length chunk).
Proof.
  unfold fgets. destruct (read_line _ _) as [|c l]; [discriminate|].
  intros [= <- <-]. split; [discriminate|reflexivity].
Qed.

(** The lookahead leaves the stream where it was. *)
Lemma mmd_is_table_restores fp : snd (mmd_is_table fp) = fp.
Proof.
  unfold mmd_is_table, fseek_set, ftell.
  destruct (fgets sizeof_line fp) as [[chunk fp']|] eqn:E; cbn [snd].
  - apply fgets_Some in E as [_ ->]. destruct fp; reflexivity.
  - destruct fp; reflexivity.
Qed.

(** The [strchr] test accepts the seven characters and no other. *)
Lemma is_separator_char_spec (c : ascii) :
  is_separator_char c = true <-> separator_char c.
Proof.
  unfold is_separator_char, separator_char.
  rewrite !orb_true_iff, !Ascii.eqb_eq. tauto.
Qed.

Lemma table_scan_rest l :
  table_scan l false = true <-> Forall separator_char (c_chars l).
Proof.
  induction l as [|c l IH]; simpl.
  - split; [constructor|reflexivity].
  - destruct (is_nul c); [split; [constructor|reflexivity]|].
    rewrite andb_false_r.
    destruct (is_separator_char c) eqn:E.
    + rewrite IH. apply is_separator_char_spec in E.
      split; [intros H; constructor; assumption|].
      intros H. inversion H; assumption.
    + split; [discriminate|]. intros H. inversion H as [|? ? Hc _]; subst.
      apply is_separator_char_spec in Hc. congruence.
Qed.

Lemma table_scan_line l : table_scan l true = true <-> separator_line (c_chars l).
Proof.
  destruct l as [|c l].
  - split; [|reflexivity]. intros _. exists []. split; [left; reflexivity|constructor].
  - cbn [table_scan c_chars]. destruct (is_nul c) eqn:En.
    { split; [|reflexivity]. intros _. exists [].
      split; [left; reflexivity|constructor]. }
    rewrite andb_true_r. destruct (Ascii.eqb c ">") eqn:Eg.
    + apply Ascii.eqb_eq in Eg as ->. rewrite table_scan_rest. split.
      * intros H. exists (c_chars l). split; [right; reflexivity|exact H].
      * intros (body & [E|E] & H).
        -- subst body. inversion H as [|? ? Hc _]; subst.
           apply is_separator_char_spec in Hc. discriminate.
        -- injection E as <-. exact H.
    + pose proof (table_scan_rest (c :: l)) as H. cbn [table_scan c_chars] in H.
      rewrite En, andb_false_r in H. rewrite H. split.
      * intros Hall. exists (c :: c_chars l). split; [left; reflexivity|exact Hall].
      * intros (body & [E|E] & Hall); [subst body; exact Hall|].
        injection E as -> _. discriminate.
Qed.
End lookahead.

(** ** The text below a node *)

Section copy_text.
Variables (h : heap) (nd : ptr) (cs : list ptr).
Hypothesis Hchildren : children h nd cs.
Hypothesis Hself : nd ∉ cs.

Lemma children_lookup k c :
  cs !! k = Some c ->
  exists m, h !! c = Some m /\ parent m = Some nd /\ next_sibling m = cs !! S k.
Proof.
  intros Hk. destruct Hchildren as [_ H].
  destruct (H k c Hk) as (m & E & Hp & _ & Hn). eauto.
Qed.

Lemma heap_nonempty : 0 < length h.
Proof.
  destruct Hchildren as [(n & E & _) _]. apply lookup_lt_Some in E. lia.
Qed.

(** From a child the traversal goes to the next child, and from the last
    child to the node itself. *)
Lemma next_logical_child k c :
  cs !! k = Some c ->
  next_logical (length h) h (Some nd) (Some c) =
    Some (match cs !! S k with Some c' => Some c' | None => Some nd end).
Proof.
  intros Hk. destruct (children_lookup k c Hk) as (m & E & Hp & Hn).
  unfold next_logical, mmdGetNextSibling, mmdGetParent.
  rewrite E. cbn [mbind option_bind]. rewrite Hn.
  destruct (cs !! S k) as [c'|]; [reflexivity|].
  rewrite Hp.
  pose proof heap_nonempty as Hlen.
  destruct (length h) as [|f]; [lia|]. cbn [climb].
  rewrite decide_True by reflexivity. cbn [mbind option_bind].
  rewrite decide_True by reflexivity. reflexivity.
Qed.

Lemma text_items_cons c l :
  text_items h (c :: l) =
    match h !! c ≫= (fun n => t ← text n; Some (whitespace n, t)) with
    | Some it => it :: text_items h l
    | None => text_items h l
    end.
Proof. reflexivity. Qed.

Lemma copy_loop_children alloc_ok l2 :
  forall l1 fuel k all allsize,
    cs = l1 ++ l2 -> length l2 < fuel -> (allsize = 0 -> all = None) ->
    copy_loop fuel h (Some nd) alloc_ok k all allsize
      (match l2 with c :: _ => Some c | [] => Some nd end) =
    Some (copy_items alloc_ok k all (text_items h l2)).
Proof.
  induction l2 as [|c l2 IH]; intros l1 fuel k all allsize Hcs Hfuel Hsize.
  - destruct fuel as [|fuel]; [simpl in Hfuel; lia|]. simpl.
    rewrite decide_True by reflexivity. reflexivity.
  - destruct fuel as [|fuel]; [simpl in Hfuel; lia|]. simpl in Hfuel.
    assert (Hk : cs !! length l1 = Some c).
    { rewrite Hcs. apply list_lookup_middle. reflexivity. }
    assert (Hne : Some c <> Some nd).
    { intros [= ->]. apply Hself. eapply list_elem_of_lookup_2. exact Hk. }
    assert (Hnext : (match cs !! S (length l1) with
                     | Some c' => Some c' | None => Some nd end) =
                    match l2 with c' :: _ => Some c' | [] => Some nd end).
    { rewrite Hcs. rewrite (lookup_app_r l1) by lia.
      replace (S (length l1) - length l1) with 1 by lia.
      destruct l2; reflexivity. }
    destruct (children_lookup _ _ Hk) as (m & E & _ & _).
    rewrite text_items_cons, E.
    cbn [copy_loop]. rewrite decide_False by exact Hne.
    cbn [mbind option_bind]. rewrite E.
    rewrite (next_logical_child _ _ Hk), Hnext.
    cbn [mbind option_bind].
    destruct (text m) as [t|] eqn:Et; cbn [mbind option_bind copy_items].
    + destruct (allsize =? 0) eqn:Ez.
      * apply Nat.eqb_eq in Ez. rewrite (Hsize Ez).
        destruct (alloc_ok k); [|reflexivity].
        apply (IH (l1 ++ [c])); [rewrite <- app_assoc; exact Hcs|lia|lia].
      * apply Nat.eqb_neq in Ez.
        destruct (alloc_ok k); [|reflexivity].
        apply (IH (l1 ++ [c])); [rewrite <- app_assoc; exact Hcs|lia|lia].
    + apply (IH (l1 ++ [c])); [rewrite <- app_assoc; exact Hcs|lia|exact Hsize].
Qed.

(** The call on a node with children: the items of the children in order,
    under the outcomes of the allocations. *)
Lemma mmdCopyAllText_children alloc_ok fuel :
  cs <> [] -> length cs < fuel ->
  mmdCopyAllText fuel h alloc_ok (Some nd) =
    Some (copy_items alloc_ok 0 None (text_items h cs)).
Proof.
  intros Hne Hfuel. unfold mmdCopyAllText. simpl.
  destruct Hchildren as [(n & E & Hfirst & _) _]. rewrite E. simpl.
  rewrite Hfirst.
  rewrite <- (copy_loop_children alloc_ok cs [] fuel 0 None 0);
    [|reflexivity|exact Hfuel|reflexivity].
  destruct cs; [congruence|reflexivity].
Qed.
End copy_text.

Lemma string_append_assoc (a b c : string) :
  String.append (String.append a b) c = String.append a (String.append b c).
Proof. induction a as [|x a IH]; simpl; [reflexivity|]. rewrite IH. reflexivity. Qed.

Lemma string_append_nil_r (a : string) : String.append a EmptyString = a.
Proof. induction a as [|x a IH]; simpl; [reflexivity|]. rewrite IH. reflexivity. Qed.

(** When every allocation succeeds the buffer is the joined items. *)
Lemma copy_items_ok alloc_ok items :
  (forall k, alloc_ok k = true) ->
  forall k all,
    copy_items alloc_ok k all items =
      match items with
      | [] => all
      | _ => Some (String.append (default EmptyString all) (join_items items))
      end.
Proof.
  intros Hok. induction items as [|[w t] items IH]; intros k all; [reflexivity|].
  cbn [copy_items join_items]. rewrite Hok, IH.
  destruct items as [|it items].
  - cbn [join_items]. rewrite string_append_nil_r. reflexivity.
  - change (default EmptyString (Some ?x)) with x.
    rewrite !string_append_assoc. reflexivity.
Qed.

(** One allocation is requested for each item; the buffer is lost as soon
    as one of them fails. *)
Lemma copy_items_fail alloc_ok items :
  forall k all j, j < length items -> alloc_ok (k + j) = false ->
    copy_items alloc_ok k all items = None.
Proof.
  induction items as [|[w t] items IH]; intros k all j Hj Hk; [simpl in Hj; lia|].
  cbn [copy_items]. destruct (alloc_ok k) eqn:E; [|reflexivity].
  destruct j as [|j]; [rewrite Nat.add_0_r in Hk; congruence|].
  apply (IH (S k) _ j); [simpl in Hj; lia|].
  rewrite <- Hk. f_equal. lia.
Qed.

(** When they all succeed the buffer holds the joined items. *)
Lemma copy_items_succeed alloc_ok items :
  forall k all, (forall j, j < length items -> alloc_ok (k + j) = true) ->
    copy_items alloc_ok k all items =
      match items with
      | [] => all
      | _ => Some (String.append (default EmptyString all) (join_items items))
      end.
Proof.
  induction items as [|[w t] items IH]; intros k all Hok; [reflexivity|].
  cbn [copy_items join_items].
  rewrite <- (Nat.add_0_r k) at 1. rewrite (Hok 0) by (simpl; lia).
  rewrite IH.
  2:{ intros j Hj. replace (S k + j) with (k + S j) by lia. apply Hok. simpl. lia. }
  destruct items as [|it items].
  - cbn [join_items]. rewrite string_append_nil_r. reflexivity.
  - change (default EmptyString (Some ?x)) with x.
    rewrite !string_append_assoc. reflexivity.
Qed.

(** Of the first [n] requests either all succeed or one fails. *)
Lemma alloc_cases (alloc_ok : nat -> bool) (n : nat) :
  (forall k, k < n -> alloc_ok k = true) \/ (exists k, k < n /\ alloc_ok k = false).
Proof.
  induction n as [|n [IH|(k & Hk & E)]].
  - left. intros k Hk. lia.
  - destruct (alloc_ok n) eqn:E.
    + left. intros k Hk. destruct (decide (k = n)) as [->|Hne]; [exact E|].
      apply IH. lia.
    + right. exists n. split; [lia|exact E].
  - right. exists k. split; [lia|exact E].
Qed.

(** ** The claims on the reference table *)

Lemma ref_attach_change h refs j node h' refs' i r :
  ref_attach h refs j node = Some (h', refs') -> refs !! i = Some r ->
  exists r', refs' !! i = Some r' /\ name r' = name r /\ ref_url r' = ref_url r.
Proof.
  unfold ref_attach. intros H Hr. destruct node as [nd|].
  - destruct (refs !! j) as [rj|] eqn:Ej; simpl in H; [|discriminate].
    destruct (ref_url rj) eqn:Euj.
    + destruct (store _ nd h); simpl in H; [|discriminate].
      injection H as <- <-. eauto.
    + injection H as <- <-. destruct (decide (i = j)) as [->|Hne].
      * rewrite list_lookup_insert_eq by (eapply lookup_lt_Some; eauto).
        eexists. split; [reflexivity|]. simpl. split; congruence.
      * rewrite list_lookup_insert_ne by congruence. eauto.
  - injection H as <- <-. eauto.
Qed.

(** What a call of [mmd_ref_add] does to the entries there are: the names
    stay, and a URL changes only from absent to the URL of a definition for
    the entry the lookup finds. *)
Lemma ref_add_change h refs node nm url_ h' refs' i r :
  mmd_ref_add h refs node nm url_ = Some (h', refs') -> refs !! i = Some r ->
  exists r', refs' !! i = Some r' /\ name r' = name r /\
    (ref_url r' = ref_url r \/
     (ref_url r = None /\ ref_url r' = url_ /\ url_ <> None /\
      mmd_ref_find refs nm = Some i)).
Proof.
  unfold mmd_ref_add. intros H Hr.
  assert (Hattach : forall refs0 j, ref_attach h refs0 j node = Some (h', refs') ->
            refs0 !! i = Some r ->
            exists r', refs' !! i = Some r' /\ name r' = name r /\
              (ref_url r' = ref_url r \/
               (ref_url r = None /\ ref_url r' = url_ /\ url_ <> None /\
                mmd_ref_find refs nm = Some i))).
  { intros refs0 j Ha Hr0.
    destruct (ref_attach_change _ _ _ _ _ _ _ _ Ha Hr0) as (r' & E & Hn & Hu). eauto. }
  destruct (mmd_ref_find refs nm) as [j|] eqn:Ef.
  - destruct (refs !! j) as [rj|] eqn:Ej; simpl in H; [|discriminate].
    destruct (ref_url rj) eqn:Euj; [eauto|].
    destruct url_ as [u'|]; [|eauto].
    destruct (match node with Some nd => _ | None => _ end); simpl in H; [|discriminate].
    destruct (set_urls _ _ _); simpl in H; [|discriminate].
    injection H as <- <-.
    destruct (decide (i = j)) as [->|Hne].
    + rewrite list_lookup_insert_eq by (eapply lookup_lt_Some; eauto).
      eexists. split; [reflexivity|]. simpl.
      assert (rj = r) as -> by congruence.
      split; [reflexivity|]. right. repeat split; [assumption|discriminate].
    + rewrite list_lookup_insert_ne by congruence. eauto.
  - apply (Hattach _ _ H). apply lookup_app_l_Some. exact Hr.
Qed.

(** The link parser on the line [[bar]: http://example.com]: a call of
    [mmd_ref_add] without node for the name and the URL, and neither text
    nor URL nor reference name for the caller, which adds no node. *)
Lemma parse_link_definition (m : mem) :
  line m = list_ascii_of_string "[bar]: http://example.com" ->
  mmd_parse_link m 0 =
    (m' ← ref_add
            (with_line (poke (poke (list_ascii_of_string "[bar]: http://example.com")
                                   4 NUL) 25 NUL) m)
            None "bar" (Some "http://example.com");
     Some (m', 25, None, None, None)).
Proof.
  intros Hline. unfold mmd_parse_link. rewrite Hline.
  set (ls := link_scan _ _ _ _ _). vm_compute in ls. subst ls.
  cbn [mbind option_bind]. reflexivity.
Qed.

(** C1: a definition [name: url] for a name whose entry has pending nodes
    and no URL sets the URL of the entry, gives that URL to every pending
    node and empties the pending list; the line [[bar]: http://example.com]
    makes that call; so the file [[foo][bar]], an empty line,
    [[bar]: http://example.com] parses to a linked text [foo] with the URL
    [http://example.com]. *)
Theorem reference_definition_backpatches (h : heap) (refs : list _mmd_ref_t)
    (nm u : string) (i : nat) (r : _mmd_ref_t) :
  mmd_ref_find refs nm = Some i -> refs !! i = Some r -> ref_url r = None ->
  Forall (fun p => p < length h) (pending r) ->
  (exists h', mmd_ref_add h refs None nm (Some u) =
                Some (h', <[i := mk_ref (name r) (Some u) []]> refs) /\
     forall p, p ∈ pending r -> exists n, h' !! p = Some n /\ url n = Some u) /\
  (forall m, line m = list_ascii_of_string "[bar]: http://example.com" ->
     mmd_parse_link m 0 =
       (m' ← ref_add
               (with_line (poke (poke (list_ascii_of_string
                                         "[bar]: http://example.com") 4 NUL)
                                25 NUL) m)
               None "bar" (Some "http://example.com");
        Some (m', 25, None, None, None))) /\
  parse (String.append "[foo][bar]"
           (String.append LF (String.append LF "[bar]: http://example.com"))) =
    Some [Node MMD_TYPE_DOCUMENT false None None
            [Node MMD_TYPE_PARAGRAPH false None None
               [Node MMD_TYPE_LINKED_TEXT false (Some "foo")
                  (Some "http://example.com") []];
             Node MMD_TYPE_PARAGRAPH false None None []]].
Proof.
  intros Hf Hr Hu Hall. split; [|split].
  - destruct (ref_add_defines h refs nm u i r Hf Hr Hu Hall) as (h' & E & _ & Hin & _).
    exists h'. split; [exact E|exact Hin].
  - apply parse_link_definition.
  - vm_compute. reflexivity.
Qed.

Lemma reference_definition_backpatches_witness :
  exists h', mmd_ref_add [calloc_node; calloc_node] [mk_ref "bar" None [1]] None
               "BAR" (Some "http://example.com") =
               Some (h', [mk_ref "bar" (Some "http://example.com") []]) /\
    forall p, p ∈ [1] -> exists n, h' !! p = Some n /\ url n = Some "http://example.com".
Proof.
  refine (proj1 (reference_definition_backpatches [calloc_node; calloc_node]
                   [mk_ref "bar" None [1]] "BAR" "http://example.com" 0
                   (mk_ref "bar" None [1]) _ _ _ _));
    [reflexivity|reflexivity|reflexivity|repeat constructor].
Defined.

(** C2: at the end of the parse every node still pending in an entry gets
    the name of the entry as URL; so [[foo][missing]], defined nowhere,
    parses to a linked text with the URL [missing]. *)
Theorem undefined_reference_gets_name (h : heap) (refs : list _mmd_ref_t) :
  Forall (fun r => Forall (fun p => p < length h) (pending r)) refs ->
  (exists h', resolve_pending h refs = Some h' /\
     forall i r p, refs !! i = Some r -> p ∈ pending r ->
       (forall j r', i < j -> refs !! j = Some r' -> p ∉ pending r') ->
       exists n, h' !! p = Some n /\ url n = Some (name r)) /\
  parse "[foo][missing]" =
    Some [Node MMD_TYPE_DOCUMENT false None None
            [Node MMD_TYPE_PARAGRAPH false None None
               [Node MMD_TYPE_LINKED_TEXT false (Some "foo") (Some "missing") []]]].
Proof.
  intros Hall. split.
  - destruct (resolve_pending_total h refs Hall) as (h' & E & _ & Hin & _).
    exists h'. split; [exact E|exact Hin].
  - vm_compute. reflexivity.
Qed.

Lemma undefined_reference_gets_name_witness :
  (exists h', resolve_pending [calloc_node; calloc_node; calloc_node]
                [mk_ref "missing" None [1]; mk_ref "gone" None [2]] = Some h' /\
     forall i r p, [mk_ref "missing" None [1]; mk_ref "gone" None [2]] !! i = Some r ->
       p ∈ pending r ->
       (forall j r', i < j ->
          [mk_ref "missing" None [1]; mk_ref "gone" None [2]] !! j = Some r' ->
          p ∉ pending r') ->
       exists n, h' !! p = Some n /\ url n = Some (name r)) /\
  parse "[foo][missing]" =
    Some [Node MMD_TYPE_DOCUMENT false None None
            [Node MMD_TYPE_PARAGRAPH false None None
               [Node MMD_TYPE_LINKED_TEXT false (Some "foo") (Some "missing") []]]].
Proof.
  apply (undefined_reference_gets_name [calloc_node; calloc_node; calloc_node]
           [mk_ref "missing" None [1]; mk_ref "gone" None [2]]).
  repeat constructor.
Defined.

(** C10: the first definition wins.  For a name that the lookup, which
    ignores case, finds with a URL, a further definition changes neither the
    table nor the nodes; and no call changes the name of an entry, or its
    URL other than from absent to the URL of a definition for it. *)
Theorem first_definition_wins (h : heap) (refs : list _mmd_ref_t)
    (nm u' : string) (i : nat) (r : _mmd_ref_t) (u : string) :
  mmd_ref_find refs nm = Some i -> refs !! i = Some r -> ref_url r = Some u ->
  strcasecmp_eq nm (name r) = true /\
  mmd_ref_add h refs None nm (Some u') = Some (h, refs) /\
  forall node nm' url_ h' refs' j rj,
    mmd_ref_add h refs node nm' url_ = Some (h', refs') -> refs !! j = Some rj ->
    exists rj', refs' !! j = Some rj' /\ name rj' = name rj /\
      (ref_url rj' = ref_url rj \/
       (ref_url rj = None /\ ref_url rj' = url_ /\ url_ <> None /\
        mmd_ref_find refs nm' = Some j)).
Proof.
  intros Hf Hr Hu. split; [|split].
  - destruct (mmd_ref_find_Some _ _ _ Hf) as (r0 & E & Hn). congruence.
  - eapply ref_add_defined; eauto.
  - intros node nm' url_ h' refs' j rj. apply ref_add_change.
Qed.

Lemma first_definition_wins_witness :
  strcasecmp_eq "BAR" "bar" = true /\
  mmd_ref_add [calloc_node] [mk_ref "bar" (Some "http://a.example") []] None "BAR"
    (Some "http://b.example") =
    Some ([calloc_node], [mk_ref "bar" (Some "http://a.example") []]) /\
  forall node nm' url_ h' refs' j rj,
    mmd_ref_add [calloc_node] [mk_ref "bar" (Some "http://a.example") []]
      node nm' url_ = Some (h', refs') ->
    [mk_ref "bar" (Some "http://a.example") []] !! j = Some rj ->
    exists rj', refs' !! j = Some rj' /\ name rj' = name rj /\
      (ref_url rj' = ref_url rj \/
       (ref_url rj = None /\ ref_url rj' = url_ /\ url_ <> None /\
        mmd_ref_find [mk_ref "bar" (Some "http://a.example") []] nm' = Some j)).
Proof.
  apply (first_definition_wins [calloc_node]
           [mk_ref "bar" (Some "http://a.example") []] "BAR" "http://b.example" 0
           (mk_ref "bar" (Some "http://a.example") []) "http://a.example");
    reflexivity.
Defined.

(** The same through the loader: the second definition of [bar] is ignored,
    and the reference, written in another case, gets the first URL. *)
Example first_definition_example :
  parse (String.append "[bar]: http://a.example" (String.append LF
        (String.append "[bar]: http://b.example" (String.append LF
        (String.append "[foo][BAR]" LF))))) =
    Some [Node MMD_TYPE_DOCUMENT false None None
            [Node MMD_TYPE_PARAGRAPH false None None
               [Node MMD_TYPE_LINKED_TEXT false (Some "foo")
                  (Some "http://a.example") []]]].
Proof. vm_compute. reflexivity. Qed.

(** ** The claim on the table lookahead *)

Lemma read_line_prefix n l : exists rest, l = read_line n l ++ rest.
Proof.
  revert l. induction n as [|n IH]; intros l; [exists l; reflexivity|].
  destruct l as [|c l]; [exists []; reflexivity|]. cbn [read_line].
  destruct (Ascii.eqb c NEWLINE); [exists l; reflexivity|].
  destruct (IH l) as [rest E]. exists rest. simpl. congruence.
Qed.

Lemma read_line_newline n l k :
  S k < length (read_line n l) -> read_line n l !! k <> Some NEWLINE.
Proof.
  revert l k. induction n as [|n IH]; intros l k; [simpl; lia|].
  destruct l as [|c l]; [simpl; lia|]. cbn [read_line].
  destruct (Ascii.eqb c NEWLINE) eqn:E; [simpl; lia|].
  destruct k as [|k]; simpl.
  - intros _ [= ->]. discriminate.
  - intros Hk. apply IH. lia.
Qed.

Lemma read_line_length n l : length (read_line n l) <= n.
Proof.
  revert l. induction n as [|n IH]; intros l; [simpl; lia|].
  destruct l as [|c l]; [simpl; lia|]. cbn [read_line].
  destruct (Ascii.eqb c NEWLINE); simpl; [lia|]. specialize (IH l). lia.
Qed.

(** C8, as the code has it: the lookahead is made only for a line with a
    [|] when the current node is not a table; it reads one line, the bytes
    at the position up to the first newline, and leaves the stream at its
    position; and it answers yes exactly when there is such a line and its
    string holds only [:], [-], [|], space, tab, CR and LF after one [>] it
    may start with.  So it says yes to a line of all seven characters after
    a [>], and no to a line with a letter, to a [>] that is not the first
    byte, and at the end of the file. *)
Theorem table_lookahead (fp : FILE) (buf : list ascii) (lineptr : nat)
    (ct : mmd_type_t) :
  snd (mmd_is_table fp) = fp /\
  (fst (mmd_is_table fp) = true <->
   exists chunk fp', fgets sizeof_line fp = Some (chunk, fp') /\
                     separator_line (c_chars chunk)) /\
  (forall chunk fp', fgets sizeof_line fp = Some (chunk, fp') ->
     chunk <> [] /\
     (exists rest, drop (pos fp) (contents fp) = chunk ++ rest) /\
     (forall k, S k < length chunk -> chunk !! k <> Some NEWLINE)) /\
  (strchr buf lineptr "|" = None -> table_test buf lineptr ct fp = (false, fp)) /\
  (strchr buf lineptr "|" <> None -> ct = MMD_TYPE_TABLE ->
   table_test buf lineptr ct fp = (true, fp)) /\
  (strchr buf lineptr "|" <> None -> ct <> MMD_TYPE_TABLE ->
   table_test buf lineptr ct fp = (fst (mmd_is_table fp), fp)) /\
  fst (mmd_is_table
         (file_at [">"; "|"; ":"; "-"; " "; "009"; "-"; ":"; "|"; "013"; "010"]%char))
    = true /\
  fst (mmd_is_table (file_at ["|"; "-"; "x"; "-"; "|"; "010"]%char)) = false /\
  fst (mmd_is_table (file_at ["|"; "-"; ">"; "-"; "|"; "010"]%char)) = false /\
  fst (mmd_is_table (file_at [])) = false.
Proof.
  split; [apply mmd_is_table_restores|].
  split; [|split; [|split; [|split; [|split]]]].
  - unfold mmd_is_table.
    destruct (fgets sizeof_line fp) as [[chunk fp']|] eqn:E; cbn [fst].
    + rewrite table_scan_line. split; [eauto|].
      intros (chunk' & fp'' & [= <- <-] & H). exact H.
    + split; [discriminate|]. intros (? & ? & [=] & _).
  - intros chunk fp' E. pose proof E as [Hne _]%fgets_Some.
    split; [exact Hne|]. unfold fgets in E.
    destruct (read_line _ _) as [|c l] eqn:El; [discriminate|].
    injection E as <- <-. rewrite <- El. split.
    + apply read_line_prefix.
    + apply read_line_newline.
  - intros H. unfold table_test. rewrite bool_decide_false; [reflexivity|].
    intros Hn. apply Hn. exact H.
  - intros H ->. unfold table_test. rewrite bool_decide_true by exact H.
    reflexivity.
  - intros H Hct. unfold table_test. rewrite bool_decide_true by exact H.
    unfold is_type. rewrite bool_decide_false by exact Hct.
    rewrite <- (mmd_is_table_restores fp) at 3.
    destruct (mmd_is_table fp); reflexivity.
  - repeat split; vm_compute; reflexivity.
Qed.

(** C8 fails as stated: a vertical tab and a form feed are whitespace, yet
    the lookahead says no to a line of dashes and bars that holds one, and
    yes to the same line with a space in its place.  Below [|a|] the line
    [|---|] followed by a vertical tab starts no table: the two lines are a
    paragraph; with a space they are a table. *)
Lemma lookahead_refuses_vertical_tab :
  (exists chunk fp',
     fgets sizeof_line (file_at ["|"; "-"; "-"; "-"; "|"; "011"; "010"]%char) =
       Some (chunk, fp') /\
     chunk = ["|"; "-"; "-"; "-"; "|"; "011"; "010"]%char /\
     isspace "011" = true /\
     separator_line_spec (c_chars chunk) /\
     fst (mmd_is_table
            (file_at ["|"; "-"; "-"; "-"; "|"; "011"; "010"]%char)) = false) /\
  (exists chunk fp',
     fgets sizeof_line (file_at ["|"; "-"; "-"; "-"; "|"; "012"; "010"]%char) =
       Some (chunk, fp') /\
     isspace "012" = true /\
     separator_line_spec (c_chars chunk) /\
     fst (mmd_is_table
            (file_at ["|"; "-"; "-"; "-"; "|"; "012"; "010"]%char)) = false) /\
  fst (mmd_is_table
         (file_at ["|"; "-"; "-"; "-"; "|"; " "; "010"]%char)) = true /\
  parse (String.append "|a|" (String.append LF
        (String.append "|---|" (String "011" LF)))) =
    Some [Node MMD_TYPE_DOCUMENT false None None
            [Node MMD_TYPE_PARAGRAPH false None None
               [Node MMD_TYPE_NORMAL_TEXT false (Some "|a|") None [];
                Node MMD_TYPE_NORMAL_TEXT true (Some "|---|") None [];
                Node MMD_TYPE_HARD_BREAK false None None []]]] /\
  parse (String.append "|a|" (String.append LF
        (String.append "|---|" (String " " LF)))) =
    Some [Node MMD_TYPE_DOCUMENT false None None
            [Node MMD_TYPE_TABLE false None None
               [Node MMD_TYPE_TABLE_HEADER false None None
                  [Node MMD_TYPE_TABLE_ROW false None None
                     [Node MMD_TYPE_TABLE_HEADER_CELL false None None
                        [Node MMD_TYPE_NORMAL_TEXT false (Some "a") None []]]]]]].
Proof.
  assert (Hspec : forall ws, isspace ws = true ->
            separator_line_spec ["|"; "-"; "-"; "-"; "|"; ws; "010"]%char).
  { intros ws Hws. eexists. split; [left; reflexivity|].
    repeat first [ apply Forall_nil_2
                 | apply Forall_cons_2;
                   [first [ left; reflexivity | right; left; reflexivity
                          | right; right; left; reflexivity
                          | right; right; right; first [exact Hws|reflexivity] ]|] ]. }
  split; [|split].
  - eexists. eexists. split; [vm_compute; reflexivity|].
    split; [reflexivity|]. split; [reflexivity|].
    split; [apply (Hspec "011"%char); reflexivity|vm_compute; reflexivity].
  - eexists. eexists. split; [vm_compute; reflexivity|].
    split; [reflexivity|].
    split; [apply (Hspec "012"%char); reflexivity|vm_compute; reflexivity].
  - repeat split; vm_compute; reflexivity.
Qed.

(** ** The claims on [mmdCopyAllText] *)

(** C3, as the code has it: for a node with children that are all leaves
    the result is the texts of the children that carry text, in order, a
    space before each one whose whitespace flag is set, the first included;
    [NULL] when no child carries text.  With leaves [Hello] and [world], the
    first not flagged, it is [Hello world] or [Helloworld] as the second is
    flagged or not.  (Children of children are left out of the statement.) *)
Theorem collect_text_of_leaves (h : heap) (nd : ptr) (cs : list ptr) (fuel : nat) :
  children h nd cs -> cs <> [] -> nd ∉ cs ->
  (forall c, c ∈ cs -> children h c []) -> length cs < fuel ->
  mmdCopyAllText fuel h (fun _ => true) (Some nd) =
    Some (copied (text_items h cs)) /\
  (exists h1, leaves_heap [(false, "Hello"); (true, "world")] = Some h1 /\
     mmdCopyAllText 3 h1 (fun _ => true) (Some 0) = Some (Some "Hello world")) /\
  (exists h2, leaves_heap [(false, "Hello"); (false, "world")] = Some h2 /\
     mmdCopyAllText 3 h2 (fun _ => true) (Some 0) = Some (Some "Helloworld")).
Proof.
  intros Hc Hne Hself _ Hfuel. split; [|split].
  - rewrite (mmdCopyAllText_children h nd cs Hc Hself _ fuel Hne Hfuel).
    rewrite copy_items_ok by reflexivity.
    destruct (text_items h cs); reflexivity.
  - eexists. split; vm_compute; reflexivity.
  - eexists. split; vm_compute; reflexivity.
Qed.


(** C4, as the code has it: allocation failure is not signalled distinctly
    from the absence of text.  For a node with children that are all leaves,
    one allocation is requested for each child that carries text; the result
    is [NULL] when no child carries text, and [NULL] as well when any of
    these requests fails, the first or a later one; it is a string, the
    texts joined, exactly when a child carries text and every request
    succeeds.  (Children of children are left out of the statement.) *)
Theorem collect_text_null (h : heap) (nd : ptr) (cs : list ptr) (fuel : nat)
    (alloc_ok : nat -> bool) :
  children h nd cs -> cs <> [] -> nd ∉ cs ->
  (forall c, c ∈ cs -> children h c []) -> length cs < fuel ->
  (text_items h cs = [] ->
   mmdCopyAllText fuel h alloc_ok (Some nd) = Some None) /\
  (forall k, k < length (text_items h cs) -> alloc_ok k = false ->
   mmdCopyAllText fuel h alloc_ok (Some nd) = Some None) /\
  (text_items h cs <> [] ->
   (forall k, k < length (text_items h cs) -> alloc_ok k = true) ->
   mmdCopyAllText fuel h alloc_ok (Some nd) =
     Some (Some (join_items (text_items h cs)))) /\
  (forall s, mmdCopyAllText fuel h alloc_ok (Some nd) = Some (Some s) <->
     text_items h cs <> [] /\
     (forall k, k < length (text_items h cs) -> alloc_ok k = true) /\
     s = join_items (text_items h cs)).
Proof.
  intros Hc Hne Hself _ Hfuel.
  rewrite (mmdCopyAllText_children h nd cs Hc Hself _ fuel Hne Hfuel).
  assert (Hnone : text_items h cs = [] ->
            Some (copy_items alloc_ok 0 None (text_items h cs)) = Some None).
  { intros ->. reflexivity. }
  assert (Hfail : forall k, k < length (text_items h cs) -> alloc_ok k = false ->
            Some (copy_items alloc_ok 0 None (text_items h cs)) = Some None).
  { intros k Hk E. f_equal. apply (copy_items_fail _ _ 0 None k Hk E). }
  assert (Hok : text_items h cs <> [] ->
            (forall k, k < length (text_items h cs) -> alloc_ok k = true) ->
            Some (copy_items alloc_ok 0 None (text_items h cs)) =
              Some (Some (join_items (text_items h cs)))).
  { intros Hitems Hall. rewrite (copy_items_succeed _ _ 0 None Hall).
    destruct (text_items h cs); [congruence|reflexivity]. }
  split; [exact Hnone|]. split; [exact Hfail|]. split; [exact Hok|].
  intros s. split.
  - intros E. destruct (text_items h cs) as [|it items] eqn:Ei.
    { rewrite Hnone in E by reflexivity. discriminate. }
    destruct (alloc_cases alloc_ok (length (it :: items))) as [Hall|(k & Hk & Ek)].
    + rewrite Hok in E by (congruence || exact Hall).
      split; [discriminate|]. split; [exact Hall|congruence].
    + rewrite (Hfail k Hk Ek) in E. discriminate.
  - intros (Hitems & Hall & ->). apply Hok; assumption.
Qed.


(** ** [mmd_add] *)

Lemma store_alter (f : mmd_t -> mmd_t) (p : ptr) (h : heap) :
  p < length h -> store f p h = Some (alter f p h).
Proof.
  intros [n E]%lookup_lt_is_Some_2. rewrite (store_Some _ _ _ _ E). f_equal.
  apply list_eq. intros i. destruct (decide (p = i)) as [<-|Hne].
  - rewrite list_lookup_insert_eq by (eapply lookup_lt_Some; eauto).
    rewrite list_lookup_alter_eq, E. reflexivity.
  - rewrite list_lookup_insert_ne, list_lookup_alter_ne by exact Hne. reflexivity.
Qed.

Ltac store_step :=
  rewrite store_alter by (rewrite ?length_alter, ?length_app; simpl; lia);
  cbn [mbind option_bind].

Section add_facts.
Implicit Types (h : heap) (n pn : mmd_t).

(** The end of [mmd_add]: the values copied into the new node. *)
Lemma add_fields h temp ty ws tx ur :
  temp < length h ->
  exists h',
    (h1 ← store (set_type ty) temp h;
     h2 ← store (set_whitespace ws) temp h1;
     h3 ← match tx with
          | Some _ => store (set_text tx) temp h2
          | None => Some h2
          end;
     h4 ← match ur with
          | Some _ => store (set_url ur) temp h3
          | None => Some h3
          end;
     Some (h4, Some temp)) = Some (h', Some temp) /\
    length h' = length h /\
    forall q, h' !! q =
      if decide (q = temp)
      then (fun n => mk_mmd ty ws
                       (match tx with Some _ => tx | None => text n end)
                       (match ur with Some _ => ur | None => url n end)
                       (parent n) (first_child n) (last_child n)
                       (prev_sibling n) (next_sibling n)) <$> h !! q
      else h !! q.
Proof.
  intros Hlt. do 2 store_step.
  destruct tx as [t|], ur as [u|]; cbn [mbind option_bind];
    repeat (store_step; cbn [mbind option_bind]);
    (eexists; split; [reflexivity|]; split;
     [rewrite !length_alter; reflexivity|]; intros q;
     rewrite ?list_lookup_alter;
     destruct (decide (temp = q)) as [<-|Hne];
     [rewrite !decide_True by reflexivity; destruct (h !! temp) as [[]|]; reflexivity
     |rewrite decide_False by congruence; reflexivity]).
Qed.

(** A successful [mmd_add] under a parent: the new node is the next index,
    it is linked after the last child, and of the other nodes only the
    child pointers of the parent and the next sibling of the former last
    child change. *)
Lemma mmd_add_child h par pn ty ws tx ur :
  h !! par = Some pn ->
  (forall l, last_child pn = Some l -> l < length h) ->
  exists h', mmd_add true h (Some par) ty ws tx ur = Some (h', Some (length h)) /\
    length h' = S (length h) /\
    h' !! length h =
      Some (mk_mmd ty ws tx ur (Some par) None None (last_child pn) None) /\
    forall i n, h !! i = Some n ->
      h' !! i =
        Some (mk_mmd (type n) (whitespace n) (text n) (url n) (parent n)
                (if decide (i = par)
                 then match last_child pn with
                      | Some _ => first_child n
                      | None => Some (length h)
                      end
                 else first_child n)
                (if decide (i = par) then Some (length h) else last_child n)
                (prev_sibling n)
                (if decide (last_child pn = Some i) then Some (length h)
                 else next_sibling n)).
Proof.
  intros Hpar Hlast.
  pose proof (lookup_lt_Some _ _ _ Hpar) as Hparlt.
  assert (Ht : (h ++ [calloc_node]) !! length h = Some calloc_node).
  { rewrite lookup_app_r by lia. rewrite Nat.sub_diag. reflexivity. }
  unfold mmd_add. store_step.
  rewrite list_lookup_alter_ne by lia.
  rewrite (lookup_app_l_Some _ _ _ _ Hpar). cbn [mbind option_bind].
  destruct (last_child pn) as [l|] eqn:El.
  - specialize (Hlast l eq_refl). do 3 store_step.
    set (h4 := alter (set_last_child _) _ _).
    destruct (add_fields h4 (length h) ty ws tx ur) as (h' & E & Hlen & L).
    { unfold h4. rewrite !length_alter, length_app. simpl. lia. }
    exists h'. split; [exact E|]. split.
    { rewrite Hlen. unfold h4. rewrite !length_alter, length_app. simpl. lia. }
    split.
    + rewrite L, decide_True by reflexivity. unfold h4.
      rewrite list_lookup_alter_ne by lia. rewrite list_lookup_alter_eq.
      rewrite list_lookup_alter_ne by lia. rewrite list_lookup_alter_eq, Ht.
      destruct tx, ur; reflexivity.
    + intros i n Hi. pose proof (lookup_lt_Some _ _ _ Hi) as Hilt.
      rewrite L, decide_False by lia. unfold h4.
      rewrite !list_lookup_alter.
      repeat (case_decide; simplify_eq; try lia);
        rewrite ?(lookup_app_l_Some _ _ _ _ Hi), ?(lookup_app_l_Some _ _ _ _ Hpar);
        cbn [fmap option_fmap option_map];
        repeat match goal with x : mmd_t |- _ => destruct x end;
        simplify_eq/=; reflexivity.
  - do 2 store_step.
    set (h4 := alter (set_first_child _) _ _).
    destruct (add_fields h4 (length h) ty ws tx ur) as (h' & E & Hlen & L).
    { unfold h4. rewrite !length_alter, length_app. simpl. lia. }
    exists h'. split; [exact E|]. split.
    { rewrite Hlen. unfold h4. rewrite !length_alter, length_app. simpl. lia. }
    split.
    + rewrite L, decide_True by reflexivity. unfold h4.
      rewrite !list_lookup_alter_ne by lia. rewrite list_lookup_alter_eq, Ht.
      destruct tx, ur; reflexivity.
    + intros i n Hi. pose proof (lookup_lt_Some _ _ _ Hi) as Hilt.
      rewrite L, decide_False by lia. unfold h4.
      rewrite !list_lookup_alter.
      repeat (case_decide; simplify_eq; try lia);
        rewrite ?(lookup_app_l_Some _ _ _ _ Hi), ?(lookup_app_l_Some _ _ _ _ Hpar);
        cbn [fmap option_fmap option_map];
        repeat match goal with x : mmd_t |- _ => destruct x end;
        simplify_eq/=; reflexivity.
Qed.

(** A successful [mmd_add] without parent appends a free node. *)
Lemma mmd_add_free h ty ws tx ur :
  mmd_add true h None ty ws tx ur =
    Some (h ++ [mk_mmd ty ws tx ur None None None None None], Some (length h)).
Proof.
  assert (Ht : (h ++ [calloc_node]) !! length h = Some calloc_node).
  { rewrite lookup_app_r by lia. rewrite Nat.sub_diag. reflexivity. }
  unfold mmd_add. cbn [mbind option_bind].
  destruct (add_fields (h ++ [calloc_node]) (length h) ty ws tx ur)
    as (h' & E & Hlen & L).
  { rewrite length_app. simpl. lia. }
  rewrite E. f_equal. f_equal. apply list_eq. intros q.
  rewrite L. destruct (decide (q = length h)) as [->|Hne].
  - rewrite Ht, lookup_app_r by lia. rewrite Nat.sub_diag.
    destruct tx, ur; reflexivity.
  - destruct (decide (q < length h)).
    + rewrite !lookup_app_l by lia. reflexivity.
    + rewrite !lookup_ge_None_2 by (rewrite ?length_app; simpl; lia). reflexivity.
Qed.
End add_facts.

(** ** Child lists *)

Section children_facts.
Implicit Types (h : heap) (p c : ptr) (cs : list ptr).

Lemma children_member h p cs k c :
  children h p cs -> cs !! k = Some c ->
  exists m, h !! c = Some m /\ parent m = Some p /\
            prev_sibling m = prev_of cs k /\ next_sibling m = cs !! S k.
Proof. intros [_ H]. apply H. Qed.

Lemma children_allocated h p cs c : children h p cs -> c ∈ cs -> c < length h.
Proof.
  intros Hc [k Hk]%list_elem_of_lookup_1.
  destruct (children_member _ _ _ _ _ Hc Hk) as (m & E & _).
  eapply lookup_lt_Some; eauto.
Qed.

Lemma prev_of_None cs k : k < length cs -> prev_of cs k = None -> k = 0.
Proof.
  destruct k as [|k]; [reflexivity|]. simpl. intros Hk E.
  apply lookup_ge_None_1 in E. lia.
Qed.

Lemma prev_of_snoc cs x : prev_of (cs ++ [x]) (length cs) = last cs.
Proof.
  rewrite last_lookup. destruct cs as [|c cs]; [reflexivity|].
  cbn [length prev_of pred]. apply lookup_app_l. simpl. lia.
Qed.

(** A node is at one place of a child list only. *)
Lemma children_inj h p cs i j c :
  children h p cs -> cs !! i = Some c -> cs !! j = Some c -> i = j.
Proof.
  intros Hc. revert j c. induction i as [|i IH]; intros j c Hi Hj.
  - destruct (children_member _ _ _ _ _ Hc Hi) as (m & E & _ & Hp & _).
    destruct (children_member _ _ _ _ _ Hc Hj) as (m' & E' & _ & Hp' & _).
    assert (m' = m) as -> by congruence. simpl in Hp.
    symmetry. apply (prev_of_None cs); [eapply lookup_lt_Some; eauto|congruence].
  - destruct (children_member _ _ _ _ _ Hc Hi) as (m & E & _ & Hp & _).
    destruct (children_member _ _ _ _ _ Hc Hj) as (m' & E' & _ & Hp' & _).
    assert (m' = m) as -> by congruence. simpl in Hp.
    destruct (cs !! i) as [d|] eqn:Ed.
    2:{ apply lookup_ge_None_1 in Ed. apply lookup_lt_Some in Hi. lia. }
    destruct j as [|j]; simpl in Hp'; [congruence|].
    f_equal. apply (IH j d); [reflexivity|congruence].
Qed.

Lemma children_NoDup h p cs : children h p cs -> NoDup cs.
Proof.
  intros Hc. apply NoDup_alt. intros i j c. apply (children_inj _ _ _ _ _ _ Hc).
Qed.

(** The child list of a node is determined by the heap. *)
Lemma children_unique h p cs cs' : children h p cs -> children h p cs' -> cs = cs'.
Proof.
  intros Hc Hc'. apply list_eq. intros k. induction k as [|k IH].
  - destruct Hc as [(n & E & Hf & _) _], Hc' as [(n' & E' & Hf' & _) _].
    rewrite <- !head_lookup. congruence.
  - destruct (cs !! k) as [c|] eqn:Ek.
    + destruct (children_member _ _ _ _ _ Hc Ek) as (m & E & _ & _ & Hn).
      symmetry in IH.
      destruct (children_member _ _ _ _ _ Hc' IH) as (m' & E' & _ & _ & Hn').
      congruence.
    + symmetry in IH. apply lookup_ge_None_1 in Ek, IH.
      rewrite !lookup_ge_None_2 by lia. reflexivity.
Qed.

Lemma children_last_next h p cs l m :
  children h p cs -> last cs = Some l -> h !! l = Some m -> next_sibling m = None.
Proof.
  intros Hc Hl E. rewrite last_lookup in Hl.
  destruct (children_member _ _ _ _ _ Hc Hl) as (m' & E' & _ & _ & Hn).
  assert (m' = m) as -> by congruence. rewrite Hn.
  apply lookup_ge_None_2. apply lookup_lt_Some in Hl. lia.
Qed.

Lemma children_parent h p cs c m :
  children h p cs -> c ∈ cs -> h !! c = Some m -> parent m = Some p.
Proof.
  intros Hc [k Hk]%list_elem_of_lookup_1 E.
  destruct (children_member _ _ _ _ _ Hc Hk) as (m' & E' & Hp & _). congruence.
Qed.
End children_facts.

(** ** Consistency of the links under [mmd_add] *)

Section add_consistent.
Variables (h h' : heap) (par : ptr) (pn : mmd_t).
Variables (ty : mmd_type_t) (ws : bool) (tx ur : option string).
Hypothesis Hpar : h !! par = Some pn.
Hypothesis Hnew :
  h' !! length h =
    Some (mk_mmd ty ws tx ur (Some par) None None (last_child pn) None).
Hypothesis Hold : forall i n, h !! i = Some n ->
  h' !! i =
    Some (mk_mmd (type n) (whitespace n) (text n) (url n) (parent n)
            (if decide (i = par)
             then match last_child pn with
                  | Some _ => first_child n
                  | None => Some (length h)
                  end
             else first_child n)
            (if decide (i = par) then Some (length h) else last_child n)
            (prev_sibling n)
            (if decide (last_child pn = Some i) then Some (length h)
             else next_sibling n)).

(** The child list of the parent gets the new node at its end. *)
Lemma add_children_parent cs :
  children h par cs -> children h' par (cs ++ [length h]).
Proof.
  intros Hc. pose proof Hc as [(n & E & Hfirst & Hlast) Hmem].
  assert (n = pn) as -> by congruence. split.
  - eexists. split; [apply Hold, Hpar|]. cbn.
    rewrite !decide_True by reflexivity. rewrite last_snoc. split; [|reflexivity].
    rewrite Hlast. destruct cs as [|c cs]; [reflexivity|].
    rewrite Hfirst. destruct (last (c :: cs)) eqn:El; [reflexivity|].
    apply last_None in El. discriminate.
  - intros k c Hk. apply lookup_app_Some in Hk as [Hk|[Hlen Hk]].
    + destruct (Hmem k c Hk) as (m & Em & Hp & Hprev & Hnext).
      pose proof (lookup_lt_Some _ _ _ Hk) as Hklt.
      eexists. split; [apply Hold, Em|]. cbn.
      split; [exact Hp|]. split.
      * rewrite Hprev. destruct k as [|k]; [reflexivity|]. simpl.
        symmetry. apply lookup_app_l. lia.
      * destruct (decide (last_child pn = Some c)) as [Hl|Hl].
        -- rewrite Hlast in Hl.
           rewrite (children_last_next _ _ _ _ _ Hc Hl Em) in Hnext.
           symmetry in Hnext. apply lookup_ge_None_1 in Hnext.
           rewrite lookup_app_r by lia.
           replace (S k - length cs) with 0 by lia. reflexivity.
        -- rewrite Hnext. destruct (decide (S k < length cs)).
           ++ symmetry. apply lookup_app_l. lia.
           ++ exfalso. apply Hl. rewrite Hlast, last_lookup.
              replace (pred (length cs)) with k by lia. exact Hk.
    + destruct (k - length cs) as [|d] eqn:Ed; simpl in Hk; [|destruct d; discriminate].
      injection Hk as <-. assert (k = length cs) as -> by lia.
      eexists. split; [exact Hnew|]. cbn. split; [reflexivity|]. split.
      * rewrite Hlast. symmetry. apply prev_of_snoc.
      * symmetry. apply lookup_ge_None_2. rewrite length_app. simpl. lia.
Qed.

(** The child lists of the other nodes stay. *)
Lemma add_children_other csp q cs :
  children h par csp -> children h q cs -> q <> par -> children h' q cs.
Proof.
  intros Hcp Hc Hne. pose proof Hc as [(n & E & Hfirst & Hlast) Hmem]. split.
  - eexists. split; [apply Hold, E|]. cbn.
    rewrite !decide_False by exact Hne. auto.
  - intros k c Hk. destruct (Hmem k c Hk) as (m & Em & Hp & Hprev & Hnext).
    eexists. split; [apply Hold, Em|]. cbn.
    split; [exact Hp|]. split; [exact Hprev|].
    rewrite decide_False; [exact Hnext|]. intros Hl.
    destruct Hcp as [(n' & E' & _ & Hlast') Hmem'].
    assert (n' = pn) as -> by congruence. rewrite Hlast', last_lookup in Hl.
    destruct (Hmem' _ _ Hl) as (m' & Em' & Hp' & _). congruence.
Qed.

Lemma add_consistent : consistent h -> length h' = S (length h) -> consistent h'.
Proof.
  intros Hcons Hlen p n' Hp'.
  destruct (Hcons par pn Hpar) as [[csp Hcp] _].
  destruct (decide (p = length h)) as [->|Hne].
  - rewrite Hnew in Hp'. injection Hp' as <-. cbn. split.
    + exists []. split; [|intros k c Hk; rewrite lookup_nil in Hk; discriminate].
      eexists. split; [exact Hnew|]. split; reflexivity.
    + exists (csp ++ [length h]). split; [apply add_children_parent, Hcp|].
      apply elem_of_app. right. apply list_elem_of_singleton. reflexivity.
  - assert (Hlt : p < length h).
    { apply lookup_lt_Some in Hp'. lia. }
    destruct (lookup_lt_is_Some_2 h p Hlt) as [n En].
    rewrite (Hold p n En) in Hp'. injection Hp' as <-. cbn.
    destruct (Hcons p n En) as [[cs Hc] Hparent]. split.
    + destruct (decide (p = par)) as [->|Hpp].
      * exists (cs ++ [length h]). apply add_children_parent, Hc.
      * exists cs. eapply add_children_other; eauto.
    + destruct (parent n) as [q|] eqn:Eq.
      * destruct Hparent as (csq & Hcq & Hin).
        destruct (decide (q = par)) as [->|Hqp].
        -- exists (csq ++ [length h]). split; [apply add_children_parent, Hcq|].
           apply elem_of_app. left. exact Hin.
        -- exists csq. split; [eapply add_children_other; eauto|exact Hin].
      * destruct Hparent as [Hprev Hnext]. split; [exact Hprev|].
        rewrite decide_False; [exact Hnext|]. intros Hl.
        destruct Hcp as [(n' & E' & _ & Hlast') Hmem'].
        assert (n' = pn) as -> by congruence. rewrite Hlast', last_lookup in Hl.
        destruct (Hmem' _ _ Hl) as (m' & Em' & Hp' & _). congruence.
Qed.
End add_consistent.

(** ** [mmd_remove] *)

(** The links after [mmd_remove] of a node that has a parent. *)
Lemma mmd_remove_links (h : heap) (nd : ptr) (n : mmd_t) (par : ptr) :
  h !! nd = Some n -> parent n = Some par -> par < length h ->
  (forall pv, prev_sibling n = Some pv -> pv < length h) ->
  (forall nx, next_sibling n = Some nx -> nx < length h) ->
  exists h', mmd_remove h nd = Some h' /\ length h' = length h /\
    forall i m, h !! i = Some m ->
      h' !! i =
        Some (mk_mmd (type m) (whitespace m) (text m) (url m)
                (if decide (i = nd) then None else parent m)
                (if decide (i = par /\ prev_sibling n = None)
                 then next_sibling n else first_child m)
                (if decide (i = par /\ next_sibling n = None)
                 then prev_sibling n else last_child m)
                (if decide (i = nd) then None
                 else if decide (next_sibling n = Some i) then prev_sibling n
                      else prev_sibling m)
                (if decide (i = nd) then None
                 else if decide (prev_sibling n = Some i) then next_sibling n
                      else next_sibling m)).
Proof.
  intros E Hp Hpar Hprev Hnext.
  pose proof (lookup_lt_Some _ _ _ E) as Hnd.
  unfold mmd_remove. rewrite E. cbn [mbind option_bind]. rewrite Hp.
  destruct (prev_sibling n) as [pv|] eqn:Epv, (next_sibling n) as [nx|] eqn:Enx;
    try specialize (Hprev _ eq_refl); try specialize (Hnext _ eq_refl);
    do 5 store_step;
    (eexists; split; [reflexivity|]; split; [rewrite !length_alter; reflexivity|];
     intros i m Hi; rewrite !list_lookup_alter;
     repeat (case_decide; destruct_and?; simplify_eq; try lia;
             try (exfalso; intuition congruence));
     rewrite ?Hi, ?E; cbn [fmap option_fmap option_map];
     repeat match goal with x : mmd_t |- _ => destruct x end;
     simplify_eq/=; try reflexivity; try (exfalso; intuition congruence)).
Qed.

(** A node without parent is left as it is. *)
Lemma mmd_remove_free (h : heap) (nd : ptr) (n : mmd_t) :
  h !! nd = Some n -> parent n = None -> mmd_remove h nd = Some h.
Proof.
  intros E Hp. unfold mmd_remove. rewrite E. cbn [mbind option_bind].
  rewrite Hp. reflexivity.
Qed.

(** ** Consistency of the links under [mmd_remove] *)

Lemma head_delete (cs : list ptr) (j : nat) :
  head (delete j cs) = if decide (j = 0) then cs !! 1 else head cs.
Proof.
  destruct j as [|j]; [destruct cs as [|c [|c' cs]]; reflexivity|].
  destruct cs as [|c cs]; reflexivity.
Qed.

Lemma last_delete (cs : list ptr) (j : nat) :
  j < length cs ->
  last (delete j cs) = if decide (S j = length cs) then prev_of cs j else last cs.
Proof.
  intros Hj. rewrite !last_lookup, length_delete by (apply lookup_lt_is_Some_2; lia).
  destruct (decide (S j = length cs)) as [Hl|Hl].
  - destruct j as [|j].
    + destruct cs as [|c [|c' cs]]; simpl in *; try lia. reflexivity.
    + replace (pred (length cs - 1)) with j by lia.
      rewrite list_lookup_delete_lt by lia. reflexivity.
  - rewrite list_lookup_delete_ge by lia. f_equal. lia.
Qed.

Lemma prev_of_delete_lt (cs : list ptr) (j k : nat) :
  k <= j -> prev_of (delete j cs) k = prev_of cs k.
Proof.
  intros Hk. destruct k as [|k]; [reflexivity|]. simpl.
  apply list_lookup_delete_lt. lia.
Qed.

Lemma prev_of_delete_gt (cs : list ptr) (j k : nat) :
  j < k -> prev_of (delete j cs) k = cs !! k.
Proof.
  intros Hk. destruct k as [|k]; [lia|]. simpl.
  apply list_lookup_delete_ge. lia.
Qed.

Section remove_consistent.
Variables (h h' : heap) (nd : ptr) (n : mmd_t) (par : ptr).
Variables (cs : list ptr) (j : nat).
Hypothesis Hnd : h !! nd = Some n.
Hypothesis Hparent : parent n = Some par.
Hypothesis Hc : children h par cs.
Hypothesis Hj : cs !! j = Some nd.
Hypothesis Hold : forall i m, h !! i = Some m ->
  h' !! i =
    Some (mk_mmd (type m) (whitespace m) (text m) (url m)
            (if decide (i = nd) then None else parent m)
            (if decide (i = par /\ prev_sibling n = None)
             then next_sibling n else first_child m)
            (if decide (i = par /\ next_sibling n = None)
             then prev_sibling n else last_child m)
            (if decide (i = nd) then None
             else if decide (next_sibling n = Some i) then prev_sibling n
                  else prev_sibling m)
            (if decide (i = nd) then None
             else if decide (prev_sibling n = Some i) then next_sibling n
                  else next_sibling m)).

Lemma removed_prev : prev_sibling n = prev_of cs j.
Proof.
  destruct (children_member _ _ _ _ _ Hc Hj) as (m & E & _ & H & _). congruence.
Qed.

Lemma removed_next : next_sibling n = cs !! S j.
Proof.
  destruct (children_member _ _ _ _ _ Hc Hj) as (m & E & _ & _ & H). congruence.
Qed.

Lemma removed_index : j < length cs.
Proof. eapply lookup_lt_Some; eauto. Qed.

Lemma prev_is k c : cs !! k = Some c -> prev_of cs j = Some c -> j = S k.
Proof.
  intros Hk Hp. destruct j as [|j']; [discriminate|]. simpl in Hp.
  f_equal. symmetry. eapply children_inj; eauto.
Qed.

Lemma next_is k c : cs !! k = Some c -> cs !! S j = Some c -> k = S j.
Proof. intros Hk Hn. eapply children_inj; eauto. Qed.

(** The node leaves the child list of its parent. *)
Lemma remove_children_parent : children h' par (delete j cs).
Proof.
  pose proof Hc as [(pm & Epar & Hfirst & Hlast) Hmem].
  pose proof removed_index as Hjlt. split.
  - eexists. split; [apply Hold, Epar|]. cbn.
    rewrite removed_prev, removed_next, head_delete, last_delete by exact Hjlt.
    split.
    + destruct (decide (j = 0)) as [->|Hj0].
      * rewrite decide_True by (split; reflexivity). reflexivity.
      * rewrite decide_False; [exact Hfirst|]. intros [_ Hp].
        apply Hj0. eapply prev_of_None; eauto.
    + destruct (decide (S j = length cs)) as [Hl|Hl].
      * rewrite decide_True; [reflexivity|]. split; [reflexivity|].
        apply lookup_ge_None_2. lia.
      * rewrite decide_False; [exact Hlast|]. intros [_ Hn].
        apply lookup_ge_None_1 in Hn. lia.
  - intros k c Hk.
    assert (Hk' : cs !! (if decide (k < j) then k else S k) = Some c).
    { destruct (decide (k < j)).
      - rewrite list_lookup_delete_lt in Hk by lia. exact Hk.
      - rewrite list_lookup_delete_ge in Hk by lia. exact Hk. }
    destruct (Hmem _ _ Hk') as (m & Em & Hp & Hprev & Hnext).
    assert (Hne : c <> nd).
    { intros ->. pose proof (children_inj _ _ _ _ _ _ Hc Hk' Hj) as Hi.
      destruct (decide (k < j)); lia. }
    eexists. split; [apply Hold, Em|]. cbn.
    rewrite !(decide_False (P := c = nd)) by exact Hne.
    split; [exact Hp|]. rewrite removed_prev, removed_next. split.
    + destruct (decide (cs !! S j = Some c)) as [Hn|Hn].
      * pose proof (next_is _ _ Hk' Hn) as Hi.
        destruct (decide (k < j)); [lia|]. assert (k = j) as -> by lia.
        symmetry. apply prev_of_delete_lt. lia.
      * rewrite Hprev. destruct (decide (k < j)).
        -- symmetry. apply prev_of_delete_lt. lia.
        -- assert (k <> j).
           { intros ->. apply Hn. exact Hk'. }
           rewrite prev_of_delete_gt by lia. reflexivity.
    + destruct (decide (prev_of cs j = Some c)) as [Hpv|Hpv].
      * pose proof (prev_is _ _ Hk' Hpv) as Hi.
        destruct (decide (k < j)); [|lia]. assert (S k = j) as <- by lia.
        symmetry. apply list_lookup_delete_ge. lia.
      * rewrite Hnext. destruct (decide (k < j)).
        -- assert (S k <> j).
           { intros <-. apply Hpv. exact Hk'. }
           symmetry. apply list_lookup_delete_lt. lia.
        -- symmetry. apply list_lookup_delete_ge. lia.
Qed.

(** The child lists of the other nodes stay. *)
Lemma remove_children_other q csq :
  children h q csq -> q <> par -> children h' q csq.
Proof.
  intros Hcq Hne. pose proof Hcq as [(qm & Eq & Hfirst & Hlast) Hmem]. split.
  - eexists. split; [apply Hold, Eq|]. cbn.
    rewrite !decide_False by (intros [? _]; congruence). auto.
  - intros k c Hk. destruct (Hmem _ _ Hk) as (m & Em & Hp & Hprev & Hnext).
    assert (Hout : forall c', c' ∈ cs -> c <> c').
    { intros c' Hin ->. pose proof (children_parent _ _ _ _ _ Hc Hin Em). congruence. }
    eexists. split; [apply Hold, Em|]. cbn.
    rewrite !(decide_False (P := c = nd))
      by (apply Hout; eapply list_elem_of_lookup_2; exact Hj).
    split; [exact Hp|]. rewrite removed_prev, removed_next. split.
    + rewrite decide_False; [exact Hprev|]. intros Hn.
      eapply Hout; [|reflexivity]. eapply list_elem_of_lookup_2; eauto.
    + rewrite decide_False; [exact Hnext|]. intros Hpv.
      destruct j as [|j']; [discriminate|]. simpl in Hpv.
      eapply Hout; [|reflexivity]. eapply list_elem_of_lookup_2; eauto.
Qed.

Lemma remove_consistent : consistent h -> length h' = length h -> consistent h'.
Proof.
  intros Hcons Hlen p m' Hp'.
  assert (Hlt : p < length h) by (apply lookup_lt_Some in Hp'; lia).
  destruct (lookup_lt_is_Some_2 h p Hlt) as [m Em].
  rewrite (Hold p m Em) in Hp'. injection Hp' as <-. cbn.
  destruct (Hcons p m Em) as [[csp Hcp] Hpar]. split.
  - destruct (decide (p = par)) as [->|Hpp].
    + exists (delete j cs). apply remove_children_parent.
    + exists csp. apply remove_children_other; assumption.
  - destruct (decide (p = nd)) as [->|Hpn]; [split; reflexivity|].
    destruct (parent m) as [q|] eqn:Eq.
    + destruct Hpar as (csq & Hcq & Hin).
      destruct (decide (q = par)) as [->|Hqp].
      * exists (delete j cs). split; [apply remove_children_parent|].
        rewrite (children_unique _ _ _ _ Hcq Hc) in Hin.
        apply list_elem_of_lookup_1 in Hin as [k Hk].
        assert (k <> j) by (intros ->; congruence).
        destruct (decide (k < j)).
        -- apply (list_elem_of_lookup_2 _ k).
           rewrite list_lookup_delete_lt by lia. exact Hk.
        -- apply (list_elem_of_lookup_2 _ (pred k)).
           rewrite list_lookup_delete_ge by lia.
           replace (S (pred k)) with k by lia. exact Hk.
      * exists csq. split; [apply remove_children_other; assumption|exact Hin].
    + destruct Hpar as [Hprev Hnext].
      assert (Hout : forall c', c' ∈ cs -> p <> c').
      { intros c' Hin ->. pose proof (children_parent _ _ _ _ _ Hc Hin Em). congruence. }
      rewrite removed_prev, removed_next. split.
      * rewrite decide_False; [exact Hprev|]. intros Hn.
        eapply Hout; [|reflexivity]. eapply list_elem_of_lookup_2; eauto.
      * rewrite decide_False; [exact Hnext|]. intros Hpv.
        destruct j as [|j']; [discriminate|]. simpl in Hpv.
        eapply Hout; [|reflexivity]. eapply list_elem_of_lookup_2; eauto.
Qed.
End remove_consistent.

(** ** The claim on the consistency of the links *)

Lemma consistent_nil : consistent [].
Proof. intros p n H. rewrite lookup_nil in H. discriminate. Qed.

Lemma children_extend (h : heap) (x : mmd_t) (p : ptr) (cs : list ptr) :
  children h p cs -> children (h ++ [x]) p cs.
Proof.
  intros [(n & E & Hf & Hl) Hmem]. split.
  - exists n. split; [apply lookup_app_l_Some, E|auto].
  - intros k c Hk. destruct (Hmem k c Hk) as (m & Em & H).
    exists m. split; [apply lookup_app_l_Some, Em|exact H].
Qed.

Lemma consistent_extend (h : heap) (x : mmd_t) :
  consistent h -> first_child x = None -> last_child x = None ->
  parent x = None -> prev_sibling x = None -> next_sibling x = None ->
  consistent (h ++ [x]).
Proof.
  intros Hcons Hf Hl Hp Hpv Hnx p n Hn.
  apply lookup_app_Some in Hn as [Hn|[Hlen Hn]].
  - destruct (Hcons p n Hn) as [[cs Hc] Hpar]. split.
    + exists cs. apply children_extend, Hc.
    + destruct (parent n); [|exact Hpar].
      destruct Hpar as (csq & Hcq & Hin). exists csq.
      split; [apply children_extend, Hcq|exact Hin].
  - destruct (p - length h) as [|d] eqn:Ed; simpl in Hn; [|destruct d; discriminate].
    injection Hn as <-. assert (p = length h) as -> by lia. split.
    + exists []. split; [|intros k c Hk; rewrite lookup_nil in Hk; discriminate].
      exists x. split; [|auto].
      rewrite lookup_app_r by lia. rewrite Nat.sub_diag. reflexivity.
    + rewrite Hp. auto.
Qed.

(** [mmd_add] returns and keeps the links consistent; under a parent the
    new node is the last of its children. *)
Lemma mmd_add_keeps_consistent (calloc_ok : bool) (h : heap) (par : option ptr)
    (ty : mmd_type_t) (ws : bool) (tx ur : option string) :
  consistent h -> (forall p, par = Some p -> p < length h) ->
  exists h' temp, mmd_add calloc_ok h par ty ws tx ur = Some (h', temp) /\
    consistent h' /\
    (temp = if calloc_ok then Some (length h) else None) /\
    (forall p cs t, par = Some p -> temp = Some t -> children h p cs ->
       children h' p (cs ++ [t]) /\
       exists n, h' !! t = Some n /\ type n = ty /\ whitespace n = ws /\
                 text n = tx /\ url n = ur /\ parent n = Some p /\
                 next_sibling n = None).
Proof.
  intros Hcons Hpar. destruct calloc_ok.
  2:{ exists h, None. split; [reflexivity|]. split; [exact Hcons|].
      split; [reflexivity|]. discriminate. }
  destruct par as [p|].
  - destruct (lookup_lt_is_Some_2 h p (Hpar p eq_refl)) as [pn Ep].
    destruct (Hcons p pn Ep) as [[csp Hcp] _].
    destruct (mmd_add_child h p pn ty ws tx ur Ep) as (h' & E & Hlen & Hnew & Hold).
    { intros l Hl. apply (children_allocated _ _ _ _ Hcp).
      destruct Hcp as [(n & En & _ & Hlast) _].
      assert (n = pn) as -> by congruence.
      apply last_Some_elem_of. congruence. }
    exists h', (Some (length h)). split; [exact E|].
    split; [apply (add_consistent h h' p pn ty ws tx ur Ep Hnew Hold Hcons Hlen)|].
    split; [reflexivity|].
    intros p' cs t [= <-] [= <-] Hc. split.
    + apply (add_children_parent h h' p pn ty ws tx ur Ep Hnew Hold _ Hc).
    + eexists. split; [exact Hnew|]. repeat split.
  - rewrite mmd_add_free. eexists _, _. split; [reflexivity|].
    split; [apply consistent_extend; auto|]. split; [reflexivity|].
    discriminate.
Qed.

(** [mmd_remove] returns and keeps the links consistent; the node has no
    parent and no siblings afterwards, and has left the child list of its
    parent. *)
Lemma mmd_remove_keeps_consistent (h : heap) (nd : ptr) :
  consistent h -> nd < length h ->
  exists h' n', mmd_remove h nd = Some h' /\ consistent h' /\
    h' !! nd = Some n' /\ parent n' = None /\ prev_sibling n' = None /\
    next_sibling n' = None /\
    forall n p cs, h !! nd = Some n -> parent n = Some p -> children h p cs ->
      exists j, cs !! j = Some nd /\ children h' p (delete j cs).
Proof.
  intros Hcons Hlt. destruct (lookup_lt_is_Some_2 h nd Hlt) as [n En].
  destruct (Hcons nd n En) as [_ Hpar].
  destruct (parent n) as [par|] eqn:Ep.
  - destruct Hpar as (cs & Hc & [j Hj]%list_elem_of_lookup_1).
    destruct (children_member _ _ _ _ _ Hc Hj) as (m & Em & _ & Hprev & Hnext).
    assert (m = n) as -> by congruence.
    destruct (mmd_remove_links h nd n par En Ep) as (h' & E & Hlen & Hold).
    { destruct Hc as [(pm & Epm & _) _]. eapply lookup_lt_Some; eauto. }
    { intros pv Hpv. apply (children_allocated _ _ _ _ Hc).
      rewrite Hprev in Hpv. destruct j as [|j']; [discriminate|].
      eapply list_elem_of_lookup_2; exact Hpv. }
    { intros nx Hnx. apply (children_allocated _ _ _ _ Hc).
      rewrite Hnext in Hnx. eapply list_elem_of_lookup_2; exact Hnx. }
    eexists h', _. split; [exact E|].
    split; [apply (remove_consistent h h' nd n par cs j En Hc Hj Hold Hcons Hlen)|].
    split; [apply Hold, En|]. cbn. rewrite !decide_True by reflexivity.
    repeat split.
    intros n0 p cs0 En0 Hp0 Hc0. assert (n0 = n) as -> by congruence.
    assert (p = par) as -> by congruence.
    rewrite (children_unique _ _ _ _ Hc0 Hc). exists j. split; [exact Hj|].
    apply (remove_children_parent h h' nd n par cs j En Hc Hj Hold).
  - rewrite (mmd_remove_free h nd n En Ep). exists h, n.
    split; [reflexivity|]. split; [exact Hcons|]. split; [exact En|].
    destruct Hpar as [Hpv Hnx]. repeat split; auto. congruence.
Qed.

(** C9: the consistency of the tree links -- for every node the child list
    read from [first_child] by [next_sibling] ends at [last_child], its
    members have the node as parent, and [prev_sibling] inverts
    [next_sibling] -- holds after every [mmd_add], which returns and puts
    the new node at the end of the child list of its parent, and after every
    [mmd_remove], which returns, takes the node out of the child list of its
    parent and clears its parent and sibling pointers. *)
Theorem links_stay_consistent (h : heap) :
  consistent h ->
  (forall calloc_ok par ty ws tx ur,
     (forall p, par = Some p -> p < length h) ->
     exists h' temp, mmd_add calloc_ok h par ty ws tx ur = Some (h', temp) /\
       consistent h' /\
       (temp = if calloc_ok then Some (length h) else None) /\
       (forall p cs t, par = Some p -> temp = Some t -> children h p cs ->
          children h' p (cs ++ [t]) /\
          exists n, h' !! t = Some n /\ type n = ty /\ whitespace n = ws /\
                    text n = tx /\ url n = ur /\ parent n = Some p /\
                    next_sibling n = None)) /\
  (forall nd, nd < length h ->
     exists h' n', mmd_remove h nd = Some h' /\ consistent h' /\
       h' !! nd = Some n' /\ parent n' = None /\ prev_sibling n' = None /\
       next_sibling n' = None /\
       forall n p cs, h !! nd = Some n -> parent n = Some p -> children h p cs ->
         exists j, cs !! j = Some nd /\ children h' p (delete j cs)).
Proof.
  intros Hcons. split.
  - intros. apply mmd_add_keeps_consistent; assumption.
  - intros. apply mmd_remove_keeps_consistent; assumption.
Qed.

(** ** The example heap *)

Lemma example_heap_nodes :
  example_heap =
    [mk_mmd MMD_TYPE_DOCUMENT false None None None (Some 1) (Some 2) None None;
     mk_mmd MMD_TYPE_NORMAL_TEXT false (Some "Hello") None (Some 0) None None
            None (Some 2);
     mk_mmd MMD_TYPE_NORMAL_TEXT true (Some "world") None (Some 0) None None
            (Some 1) None].
Proof. vm_compute. reflexivity. Qed.

Ltac solve_children :=
  split;
  [eexists; split; [reflexivity|split; reflexivity]
  |intros [|[|[|?]]] ? Hk; simpl in Hk; simplify_eq;
   eexists; (split; [reflexivity|repeat split])].

Lemma example_children : children example_heap 0 [1; 2].
Proof. rewrite example_heap_nodes. solve_children. Qed.

Lemma example_leaves c : c ∈ [1; 2] -> children example_heap c [].
Proof.
  rewrite example_heap_nodes.
  intros [->|[->|H]%elem_of_cons]%elem_of_cons; [solve_children..|inversion H].
Qed.

Lemma example_root_not_child : 0 ∉ [1; 2].
Proof. intros [H|[H|H]%elem_of_cons]%elem_of_cons; [lia..|inversion H]. Qed.

Lemma example_consistent : consistent example_heap.
Proof.
  intros p n Hp. rewrite example_heap_nodes in Hp.
  destruct p as [|[|[|p]]]; simpl in Hp; simplify_eq; cbn [parent]; split.
  - exists [1; 2]. apply example_children.
  - split; reflexivity.
  - exists []. apply example_leaves. apply elem_of_cons. auto.
  - exists [1; 2]. split; [apply example_children|]. apply elem_of_cons. auto.
  - exists []. apply example_leaves. apply elem_of_cons. right. apply elem_of_cons. auto.
  - exists [1; 2]. split; [apply example_children|].
    apply elem_of_cons. right. apply elem_of_cons. auto.
Qed.

(** C3 fails as stated: a single leaf [Hello] with the whitespace flag set
    gives [ Hello], with the space the claim leaves out for the first; and
    so does the header cell of the table [| A |], whose only text [A] is
    flagged, in the heap the parser builds. *)
Lemma collect_text_leading_space :
  (exists h t,
     leaves_heap [(true, "Hello")] = Some h /\
     view_list 3 h (Some 0) = Some [t] /\
     join_items_spec (descendant_items t) = "Hello" /\
     mmdCopyAllText 2 h (fun _ => true) (Some 0) = Some (Some " Hello") /\
     mmdCopyAllText 2 h (fun _ => true) (Some 0) <>
       Some (Some (join_items_spec (descendant_items t)))) /\
  (exists h r t,
     mmdLoadFile (file_of (String.append "| A |"
                             (String.append LF (String.append "|---|" LF)))) =
       Some (h, r) /\
     view_list 3 h (Some 4) =
       Some [Node MMD_TYPE_TABLE_HEADER_CELL false None None
               [Node MMD_TYPE_NORMAL_TEXT true (Some "A") None []]] /\
     view_list 3 h (Some 4) = Some [t] /\
     join_items_spec (descendant_items t) = "A" /\
     mmdCopyAllText 2 h (fun _ => true) (Some 4) = Some (Some " A")).
Proof.
  split.
  - eexists. eexists. split; [vm_compute; reflexivity|].
    split; [vm_compute; reflexivity|].
    split; [vm_compute; reflexivity|].
    split; [vm_compute; reflexivity|].
    vm_compute. discriminate.
  - eexists. eexists. eexists. split; [vm_compute; reflexivity|].
    split; [vm_compute; reflexivity|].
    split; [vm_compute; reflexivity|].
    split; vm_compute; reflexivity.
Qed.

(** C4 fails as stated: a node without text below it and a failed
    allocation give the same result, [NULL].  The first heap is the parse of
    a lone reference definition, a document with an empty paragraph; the
    second the parse of [Hello], read at its paragraph with [malloc]
    failing. *)
Lemma null_result_is_ambiguous :
  exists h1 r1 h2 r2,
    mmdLoadFile (file_of "[bar]: http://example.com") = Some (h1, r1) /\
    mmdLoadFile (file_of "Hello") = Some (h2, r2) /\
    Forall (fun n => text n = None) h1 /\
    children h1 r1 [1] /\
    children h2 1 [2] /\
    text_items h2 [2] = [(false, "Hello")] /\
    mmdCopyAllText 2 h1 (fun _ => true) (Some r1) = Some None /\
    mmdCopyAllText 2 h2 (fun _ => false) (Some 1) = Some None.
Proof.
  eexists. eexists. eexists. eexists.
  split; [vm_compute; reflexivity|]. split; [vm_compute; reflexivity|].
  split; [repeat constructor|]. split; [solve_children|].
  split; [solve_children|]. repeat split; vm_compute; reflexivity.
Qed.

Lemma links_stay_consistent_witness :
  (forall calloc_ok par ty ws tx ur,
     (forall p, par = Some p -> p < length example_heap) ->
     exists h' temp, mmd_add calloc_ok example_heap par ty ws tx ur = Some (h', temp) /\
       consistent h' /\
       (temp = if calloc_ok then Some (length example_heap) else None) /\
       (forall p cs t, par = Some p -> temp = Some t -> children example_heap p cs ->
          children h' p (cs ++ [t]) /\
          exists n, h' !! t = Some n /\ type n = ty /\ whitespace n = ws /\
                    text n = tx /\ url n = ur /\ parent n = Some p /\
                    next_sibling n = None)) /\
  (forall nd, nd < length example_heap ->
     exists h' n', mmd_remove example_heap nd = Some h' /\ consistent h' /\
       h' !! nd = Some n' /\ parent n' = None /\ prev_sibling n' = None /\
       next_sibling n' = None /\
       forall n p cs, example_heap !! nd = Some n -> parent n = Some p ->
         children example_heap p cs ->
         exists j, cs !! j = Some nd /\ children h' p (delete j cs)).
Proof. apply (links_stay_consistent example_heap). apply example_consistent. Defined.

Lemma collect_text_of_leaves_witness :
  mmdCopyAllText 3 example_heap (fun _ => true) (Some 0) =
    Some (copied (text_items example_heap [1; 2])) /\
  (exists h1, leaves_heap [(false, "Hello"); (true, "world")] = Some h1 /\
     mmdCopyAllText 3 h1 (fun _ => true) (Some 0) = Some (Some "Hello world")) /\
  (exists h2, leaves_heap [(false, "Hello"); (false, "world")] = Some h2 /\
     mmdCopyAllText 3 h2 (fun _ => true) (Some 0) = Some (Some "Helloworld")).
Proof.
  apply (collect_text_of_leaves example_heap 0 [1; 2] 3).
  - apply example_children.
  - discriminate.
  - apply example_root_not_child.
  - apply example_leaves.
  - simpl. lia.
Defined.

(** With the leaves [Hello] and [world]: when the first request succeeds
    and the second, the [realloc], fails the result is [NULL]; so it is
    when the first fails; when both succeed it is the text. *)
Lemma collect_text_null_witness :
  mmdCopyAllText 3 example_heap (fun k => k =? 0) (Some 0) = Some None /\
  mmdCopyAllText 3 example_heap (fun _ => false) (Some 0) = Some None /\
  mmdCopyAllText 3 example_heap (fun _ => true) (Some 0) =
    Some (Some "Hello world") /\
  forall s, mmdCopyAllText 3 example_heap (fun k => k =? 0) (Some 0) <>
              Some (Some s).
Proof.
  assert (Hleaf : forall c, c ∈ [1; 2] -> children example_heap c [])
    by apply example_leaves.
  assert (Hfuel : length [1; 2] < 3) by (simpl; lia).
  assert (Hne : [1; 2] <> @nil ptr) by discriminate.
  split; [|split; [|split]].
  - exact (proj1 (proj2 (collect_text_null example_heap 0 [1; 2] 3 (fun k => k =? 0)
             example_children Hne example_root_not_child Hleaf Hfuel)) 1
             ltac:(vm_compute; lia) eq_refl).
  - exact (proj1 (proj2 (collect_text_null example_heap 0 [1; 2] 3 (fun _ => false)
             example_children Hne example_root_not_child Hleaf Hfuel)) 0
             ltac:(vm_compute; lia) eq_refl).
  - exact (proj1 (proj2 (proj2 (collect_text_null example_heap 0 [1; 2] 3
             (fun _ => true)
             example_children Hne example_root_not_child Hleaf Hfuel)))
             ltac:(vm_compute; discriminate) (fun _ _ => eq_refl)).
  - intros s E.
    apply (collect_text_null example_heap 0 [1; 2] 3 (fun k => k =? 0)
             example_children Hne example_root_not_child Hleaf Hfuel) in E
      as (_ & Hall & _).
    specialize (Hall 1 ltac:(vm_compute; lia)). discriminate.
Defined.

(** ** The claim on an unterminated emphasis *)

(** C5, as the code has it: the line [*oops], with or without its newline,
    is not an error and gives a single emphasized-text node with the text
    [oops]; the asterisk opens the emphasis and is not kept. *)
Theorem unterminated_emphasis :
  parse "*oops" =
    Some [Node MMD_TYPE_DOCUMENT false None None
            [Node MMD_TYPE_PARAGRAPH false None None
               [Node MMD_TYPE_EMPHASIZED_TEXT false (Some "oops") None []]]] /\
  parse (String.append "*oops" LF) =
    Some [Node MMD_TYPE_DOCUMENT false None None
            [Node MMD_TYPE_PARAGRAPH false None None
               [Node MMD_TYPE_EMPHASIZED_TEXT false (Some "oops") None []]]].
Proof. split; vm_compute; reflexivity. Qed.

(** C5 fails as stated: the parse of [*oops] has no normal-text node and no
    node with the text [*oops]. *)
Lemma asterisk_is_not_kept :
  exists h r,
    mmdLoadFile (file_of "*oops") = Some (h, r) /\
    Forall (fun n => type n <> MMD_TYPE_NORMAL_TEXT /\ text n <> Some "*oops") h /\
    parse "*oops" <>
      Some [Node MMD_TYPE_DOCUMENT false None None
              [Node MMD_TYPE_PARAGRAPH false None None
                 [Node MMD_TYPE_NORMAL_TEXT false (Some "*oops") None []]]].
Proof.
  eexists. eexists. split; [vm_compute; reflexivity|]. split.
  - repeat constructor; simpl; discriminate.
  - vm_compute. discriminate.
Qed.

(** ** The types of the nodes a step adds *)

Section node_types.
Implicit Types (h : heap) (m : mem) (s : inline_state).

Lemma store_types f p h h' :
  (forall n, type (f n) = type n) -> store f p h = Some h' ->
  type <$> h' = type <$> h.
Proof.
  intros Hf (n & E & ->)%store_inv. rewrite list_fmap_insert, Hf.
  apply list_insert_id. rewrite list_lookup_fmap, E. reflexivity.
Qed.


Lemma mmd_add_types h par ty ws tx ur h' t :
  mmd_add true h par ty ws tx ur = Some (h', t) ->
  type <$> h' = (type <$> h) ++ [ty].
Proof.
  unfold mmd_add. intros H.
  assert (Hlink : forall hl,
    match par with
    | Some par0 =>
        h0 ← store (set_parent (Some par0)) (length h) (h ++ [calloc_node]);
        pn ← h0 !! par0;
        match last_child pn with
        | Some l =>
            h1 ← store (set_next_sibling (Some (length h))) l h0;
            h2 ← store (set_prev_sibling (Some l)) (length h) h1;
            store (set_last_child (Some (length h))) par0 h2
        | None =>
            h1 ← store (set_last_child (Some (length h))) par0 h0;
            store (set_first_child (Some (length h))) par0 h1
        end
    | None => Some (h ++ [calloc_node])
    end = Some hl -> type <$> hl = (type <$> h) ++ [MMD_TYPE_DOCUMENT]).
  { intros hl Hl. destruct par as [par0|].
    - destruct (store _ _ _) as [h0|] eqn:E0; simpl in Hl; [|discriminate].
      apply store_types in E0; [|reflexivity].
      destruct (h0 !! par0) as [pn|]; simpl in Hl; [|discriminate].
      destruct (last_child pn).
      + destruct (store _ _ h0) as [h1|] eqn:E1; simpl in Hl; [|discriminate].
        apply store_types in E1; [|reflexivity].
        destruct (store _ _ h1) as [h2|] eqn:E2; simpl in Hl; [|discriminate].
        apply store_types in E2; [|reflexivity].
        apply store_types in Hl; [|reflexivity].
        rewrite Hl, E2, E1, E0, fmap_app. reflexivity.
      + destruct (store _ _ h0) as [h1|] eqn:E1; simpl in Hl; [|discriminate].
        apply store_types in E1; [|reflexivity].
        apply store_types in Hl; [|reflexivity].
        rewrite Hl, E1, E0, fmap_app. reflexivity.
    - injection Hl as <-. rewrite fmap_app. reflexivity. }
  destruct (match par with Some _ => _ | None => _ end) as [hl|];
    simpl in H; [|discriminate].
  specialize (Hlink hl eq_refl).
  destruct (store (set_type ty) (length h) hl) as [h1|] eqn:E1;
    simpl in H; [|discriminate].
  destruct (store (set_whitespace ws) (length h) h1) as [h2|] eqn:E2;
    simpl in H; [|discriminate].
  apply store_types in E2; [|reflexivity].
  assert (H1 : type <$> h1 = (type <$> h) ++ [ty]).
  { apply store_inv in E1 as (n & En & ->).
    rewrite list_fmap_insert, Hlink. cbn [set_type type].
    replace (length h) with (length (type <$> h) + 0)
      by (rewrite length_fmap; lia).
    rewrite insert_app_r. reflexivity. }
  assert (H3 : forall h3,
    match tx with Some _ => store (set_text tx) (length h) h2 | None => Some h2 end
      = Some h3 -> type <$> h3 = type <$> h2).
  { intros h3 H3. destruct tx; [|congruence].
    eapply store_types; [|exact H3]. reflexivity. }
  destruct (match tx with Some _ => _ | None => _ end) as [h3|];
    simpl in H; [|discriminate].
  specialize (H3 h3 eq_refl).
  assert (H4 : forall h4,
    match ur with Some _ => store (set_url ur) (length h) h3 | None => Some h3 end
      = Some h4 -> type <$> h4 = type <$> h3).
  { intros h4 H4. destruct ur; [|congruence].
    eapply store_types; [|exact H4]. reflexivity. }
  destruct (match ur with Some _ => _ | None => _ end) as [h4|];
    simpl in H; [|discriminate].
  specialize (H4 h4 eq_refl). injection H as <- <-. congruence.
Qed.




End node_types.

(** ** The claim on hard breaks *)


Section hard_break_count.
Implicit Types (h : heap) (m : mem) (s : inline_state).

















End hard_break_count.

(** A call of [mmd_add] under an allocated parent returns. *)
Lemma add_total (m : mem) (par : ptr) (pn : mmd_t) (ty : mmd_type_t) (ws : bool)
    (tx ur : option string) :
  nodes m !! par = Some pn ->
  (forall l, last_child pn = Some l -> l < length (nodes m)) ->
  exists m', add m par ty ws tx ur = Some (m', length (nodes m)) /\
    line m' = line m /\ doc m' = doc m /\
    length (nodes m') = S (length (nodes m)) /\
    nodes m' !! length (nodes m) =
      Some (mk_mmd ty ws tx ur (Some par) None None (last_child pn) None) /\
    exists pn', nodes m' !! par = Some pn' /\
                last_child pn' = Some (length (nodes m)).
Proof.
  intros Hpar Hlast.
  destruct (mmd_add_child (nodes m) par pn ty ws tx ur Hpar Hlast)
    as (h' & E & Hlen & Hnew & Hold).
  exists (with_nodes h' m). unfold add. rewrite E. cbn [mbind option_bind].
  split; [reflexivity|]. split; [reflexivity|]. split; [reflexivity|].
  split; [exact Hlen|]. split; [exact Hnew|].
  eexists. split; [apply Hold, Hpar|]. cbn. rewrite decide_True by reflexivity.
  reflexivity.
Qed.




(** ** The claim on thematic breaks *)

Section buffer_facts.
Implicit Types (buf l : list ascii) (c : ascii).

Lemma peek_drop buf i k : peek (drop i buf) k = peek buf (i + k).
Proof. unfold peek. rewrite !nth_lookup, lookup_drop. reflexivity. Qed.

Lemma c_chars_cons l c rest :
  c_chars l = c :: rest ->
  exists l', l = c :: l' /\ is_nul c = false /\ c_chars l' = rest.
Proof.
  destruct l as [|x l]; simpl; [discriminate|].
  destruct (is_nul x) eqn:E; [discriminate|]. intros [= -> <-]. eauto.
Qed.

Lemma c_chars_end l : is_nul (peek l (length (c_chars l))) = true.
Proof.
  induction l as [|x l IH]; simpl; [reflexivity|].
  destruct (is_nul x) eqn:E; simpl; [exact E|exact IH].
Qed.

Lemma span_len_c_chars (f : ascii -> bool) l :
  (forall c, is_nul c = true -> f c = false) ->
  Forall (fun c => f c = true) (c_chars l) ->
  span_len f l = length (c_chars l).
Proof.
  intros Hnul. induction l as [|x l IH]; simpl; [reflexivity|].
  destruct (is_nul x) eqn:E; simpl.
  - intros _. rewrite (Hnul x E). reflexivity.
  - intros H. inversion H as [|? ? Hx Hl]; subst. rewrite Hx, IH by exact Hl.
    reflexivity.
Qed.
End buffer_facts.

(** What the loop body does with a line of the thematic-break form when no
    block is active. *)
Lemma load_line_break (s : loader) (ch : ascii) (pn : mmd_t) :
  l_block s = None ->
  scan isspace (line (l_mem s)) 0 < 4 ->
  break_line (line (l_mem s)) ch ->
  (ch = "-"%char ->
   exists rn, nodes (l_mem s) !! the_root s = Some rn /\ first_child rn <> None) ->
  nodes (l_mem s) !! l_current s = Some pn ->
  (forall l, last_child pn = Some l -> l < length (nodes (l_mem s))) ->
  exists m',
    load_line s = Some (set_block None (set_mem m' s)) /\
    add (l_mem s) (l_current s) MMD_TYPE_THEMATIC_BREAK false None None =
      Some (m', length (nodes (l_mem s))) /\
    nodes m' !! length (nodes (l_mem s)) =
      Some (mk_mmd MMD_TYPE_THEMATIC_BREAK false None None (Some (l_current s))
              None None (last_child pn) None) /\
    exists pn', nodes m' !! l_current s = Some pn' /\
                last_child pn' = Some (length (nodes (l_mem s))).
Proof.
  intros Hblock Hindent (Hch & body & Hbody & Hall) Hmeta Hcur Hlast.
  set (buf := line (l_mem s)) in *. set (lp := scan isspace buf 0) in *.
  apply c_chars_cons in Hbody as (l1 & Hd0 & Hn0 & Hbody).
  apply c_chars_cons in Hbody as (l2 & -> & _ & Hbody).
  apply c_chars_cons in Hbody as (l3 & -> & _ & Hbody).
  assert (Hpeek : forall k, peek buf (lp + k) = peek (ch :: ch :: ch :: l3) k).
  { intros k. rewrite <- peek_drop, Hd0. reflexivity. }
  assert (Hp0 : peek buf lp = ch).
  { rewrite <- (Nat.add_0_r lp) at 1. rewrite Hpeek. reflexivity. }
  assert (Hend : is_nul (peek buf (break_end buf lp)) = true).
  { unfold break_end, scan. rewrite Hp0.
    replace (drop (lp + 3) buf) with l3.
    2:{ rewrite <- drop_drop, Hd0. reflexivity. }
    rewrite span_len_c_chars.
    - rewrite <- Nat.add_assoc, Hpeek. rewrite Hbody.
      change (peek (ch :: ch :: ch :: l3) (3 + length body)) with
        (peek l3 (length body)).
      rewrite <- Hbody. apply c_chars_end.
    - intros c Hc. rewrite Hc. reflexivity.
    - rewrite Hbody. eapply Forall_impl; [exact Hall|]. simpl.
      intros c [->|Hc].
      + rewrite Hn0, Ascii.eqb_refl. reflexivity.
      + rewrite Hc, orb_true_r, andb_true_r.
        destruct (is_nul c) eqn:E; [|reflexivity].
        apply Ascii.eqb_eq in E. subst c. discriminate. }
  assert (Hprefix : is_break_start buf lp = true /\
                    (has_prefix buf lp "---" = true -> ch = "-"%char) /\
                    Ascii.eqb ch "`" = false).
  { unfold is_break_start, has_prefix. fold lp. rewrite Hd0.
    destruct Hch as [-> | [-> | ->]]; cbn; repeat split; try reflexivity;
      try (intros H; try reflexivity; discriminate H). }
  destruct Hprefix as (Hstart & Hdash & Htick).
  destruct (add_total (l_mem s) (l_current s) pn MMD_TYPE_THEMATIC_BREAK false
              None None Hcur Hlast) as (m' & Eadd & _ & _ & _ & Hnew & Hpar').
  exists m'. split; [|split; [exact Eadd|split; [exact Hnew|exact Hpar']]].
  unfold load_line, load_start. cbv zeta. fold buf. fold lp.
  rewrite (proj2 (Nat.leb_gt 4 lp) Hindent). cbn [andb mbind option_bind].
  rewrite Hp0, Htick. cbn [andb]. rewrite Hblock. cbn [mbind option_bind].
  rewrite bool_decide_false by discriminate.
  assert (Hm : (if has_prefix buf lp "---"
                then rn ← nodes (l_mem s) !! the_root s;
                     Some (bool_decide (first_child rn = None))
                else Some false) = Some false).
  { destruct (has_prefix buf lp "---") eqn:E; [|reflexivity].
    destruct (Hmeta (Hdash eq_refl)) as (rn & -> & Hrn). cbn [mbind option_bind].
    rewrite bool_decide_false by exact Hrn. reflexivity. }
  rewrite Hm. cbn [mbind option_bind].
  rewrite bool_decide_true by reflexivity. rewrite Hstart. cbn [andb].
  rewrite Hend, Eadd. reflexivity.
Qed.

(** C7, as the code has it: when no block is active, a line that after fewer
    than four columns of whitespace starts with three [-], three [*] or
    three [_] and holds nothing more than that character and whitespace
    adds a thematic-break node as the last child of the current node and
    leaves no block active -- unless it is a [---] line while the document
    has no node yet, which opens the metadata.  So [***] and, after a
    paragraph, [--- - -] give a thematic break, and a first line [---]
    gives the metadata node. *)
Theorem thematic_break_of_three_markers (s : loader) (ch : ascii) (pn : mmd_t) :
  l_block s = None ->
  scan isspace (line (l_mem s)) 0 < 4 ->
  break_line (line (l_mem s)) ch ->
  (ch = "-"%char ->
   exists rn, nodes (l_mem s) !! the_root s = Some rn /\ first_child rn <> None) ->
  nodes (l_mem s) !! l_current s = Some pn ->
  (forall l, last_child pn = Some l -> l < length (nodes (l_mem s))) ->
  (exists m',
     load_line s = Some (set_block None (set_mem m' s)) /\
     add (l_mem s) (l_current s) MMD_TYPE_THEMATIC_BREAK false None None =
       Some (m', length (nodes (l_mem s))) /\
     nodes m' !! length (nodes (l_mem s)) =
       Some (mk_mmd MMD_TYPE_THEMATIC_BREAK false None None (Some (l_current s))
               None None (last_child pn) None) /\
     exists pn', nodes m' !! l_current s = Some pn' /\
                 last_child pn' = Some (length (nodes (l_mem s)))) /\
  parse (String.append "***" LF) =
    Some [Node MMD_TYPE_DOCUMENT false None None
            [Node MMD_TYPE_THEMATIC_BREAK false None None []]] /\
  parse (String.append "a" (String.append LF (String.append LF
           (String.append " --- - -" LF)))) =
    Some [Node MMD_TYPE_DOCUMENT false None None
            [Node MMD_TYPE_PARAGRAPH false None None
               [Node MMD_TYPE_NORMAL_TEXT false (Some "a") None []];
             Node MMD_TYPE_THEMATIC_BREAK false None None []]] /\
  parse (String.append "---" LF) =
    Some [Node MMD_TYPE_DOCUMENT false None None
            [Node MMD_TYPE_METADATA false None None []]].
Proof.
  intros Hblock Hindent Hline Hmeta Hcur Hlast. split.
  - eapply load_line_break; eassumption.
  - repeat split; vm_compute; reflexivity.
Qed.

Lemma break_state_line : break_line (line (l_mem break_state)) "*".
Proof.
  split; [auto|]. exists [NEWLINE]. split; [reflexivity|].
  constructor; [right; reflexivity|constructor].
Qed.

Lemma thematic_break_of_three_markers_witness :
  exists m',
    load_line break_state = Some (set_block None (set_mem m' break_state)) /\
    nodes m' !! 1 =
      Some (mk_mmd MMD_TYPE_THEMATIC_BREAK false None None (Some 0)
              None None None None).
Proof.
  destruct (thematic_break_of_three_markers break_state "*"
              (mk_mmd MMD_TYPE_DOCUMENT false None None None None None None None))
    as [(m' & E & _ & Hnew & _) _].
  - reflexivity.
  - vm_compute. lia.
  - apply break_state_line.
  - discriminate.
  - reflexivity.
  - discriminate.
  - exists m'. split; [exact E|exact Hnew].
Defined.

(** C7 fails as stated: the line [- - -], the markers apart, is an item of
    an unordered list, at the start of a file and after a paragraph and an
    empty line; so is [* * *], and [_ _ _] is a paragraph. *)
Lemma spaced_markers_are_no_break :
  parse (String.append "- - -" LF) =
    Some [Node MMD_TYPE_DOCUMENT false None None
            [Node MMD_TYPE_UNORDERED_LIST false None None
               [Node MMD_TYPE_LIST_ITEM false None None
                  [Node MMD_TYPE_NORMAL_TEXT false (Some "-") None [];
                   Node MMD_TYPE_NORMAL_TEXT true (Some "-") None []]]]] /\
  parse (String.append "a" (String.append LF (String.append LF
           (String.append "- - -" LF)))) =
    Some [Node MMD_TYPE_DOCUMENT false None None
            [Node MMD_TYPE_PARAGRAPH false None None
               [Node MMD_TYPE_NORMAL_TEXT false (Some "a") None []];
             Node MMD_TYPE_UNORDERED_LIST false None None
               [Node MMD_TYPE_LIST_ITEM false None None
                  [Node MMD_TYPE_NORMAL_TEXT false (Some "-") None [];
                   Node MMD_TYPE_NORMAL_TEXT true (Some "-") None []]]]] /\
  parse (String.append "* * *" LF) =
    Some [Node MMD_TYPE_DOCUMENT false None None
            [Node MMD_TYPE_UNORDERED_LIST false None None
               [Node MMD_TYPE_LIST_ITEM false None None
                  [Node MMD_TYPE_NORMAL_TEXT false (Some "") None [];
                   Node MMD_TYPE_NORMAL_TEXT true (Some "") None []]]]] /\
  parse (String.append "_ _ _" LF) =
    Some [Node MMD_TYPE_DOCUMENT false None None
            [Node MMD_TYPE_PARAGRAPH false None None
               [Node MMD_TYPE_NORMAL_TEXT false (Some "") None [];
                Node MMD_TYPE_NORMAL_TEXT true (Some "") None [];
                Node MMD_TYPE_NORMAL_TEXT true (Some "") None []]]].
Proof. repeat split; vm_compute; reflexivity. Qed.


(** * Further properties *)

(** ** More on the reference table *)

Section reference_lookup.
Implicit Types (h : heap) (refs : list _mmd_ref_t) (r : _mmd_ref_t) (nm : string).


Lemma strcasecmp_eq_sym (a b : string) : strcasecmp_eq a b = strcasecmp_eq b a.
Proof.
  revert b. induction a as [|x a IH]; intros [|y b]; simpl; try reflexivity.
  rewrite IH, Ascii.eqb_sym. reflexivity.
Qed.

Lemma strcasecmp_eq_trans (a b c : string) :
  strcasecmp_eq a b = true -> strcasecmp_eq b c = true -> strcasecmp_eq a c = true.
Proof.
  revert b c. induction a as [|x a IH]; intros [|y b] [|z c]; simpl;
    try discriminate; try reflexivity.
  intros [Hxy Hab]%andb_true_iff [Hyz Hbc]%andb_true_iff.
  apply Ascii.eqb_eq in Hxy, Hyz. rewrite Hxy, Hyz, Ascii.eqb_refl. simpl.
  eapply IH; eauto.
Qed.

(** The lookup gives the first entry that matches. *)
Lemma ref_find_from_first refs nm i j :
  ref_find_from refs nm i = Some j ->
  forall k r, k < j - i -> refs !! k = Some r -> strcasecmp_eq nm (name r) = false.
Proof.
  revert i. induction refs as [|r0 refs IH]; intros i; simpl; [discriminate|].
  destruct (strcasecmp_eq nm (name r0)) eqn:E.
  - intros [= <-] k r Hk. lia.
  - intros H k r Hk Hr. destruct k as [|k]; simpl in Hr.
    + congruence.
    + apply (IH _ H k r); [|exact Hr].
      apply ref_find_from_Some in H as [Hle _]. lia.
Qed.



Lemma names_insert refs i r r' :
  refs !! i = Some r -> name r' = name r ->
  name <$> <[i := r']> refs = name <$> refs.
Proof.
  intros Hr Hn. rewrite list_fmap_insert, Hn. apply list_insert_id.
  rewrite list_lookup_fmap, Hr. reflexivity.
Qed.

(** What [mmd_ref_add] does to the names of the table. *)
Lemma ref_attach_names h refs i node h' refs' :
  ref_attach h refs i node = Some (h', refs') -> name <$> refs' = name <$> refs.
Proof.
  unfold ref_attach. intros H. destruct node as [nd|]; [|congruence].
  destruct (refs !! i) as [r|] eqn:Er; simpl in H; [|discriminate].
  destruct (ref_url r).
  - destruct (store _ nd h); simpl in H; [|discriminate]. congruence.
  - injection H as <- <-. eapply names_insert; eauto.
Qed.

Lemma ref_add_names h refs node nm url_ h' refs' :
  mmd_ref_add h refs node nm url_ = Some (h', refs') ->
  name <$> refs' =
    match mmd_ref_find refs nm with
    | Some _ => name <$> refs
    | None => (name <$> refs) ++ [nm]
    end.
Proof.
  unfold mmd_ref_add. intros H.
  destruct (mmd_ref_find refs nm) as [i|] eqn:Ef.
  - destruct (refs !! i) as [r|] eqn:Er; simpl in H; [|discriminate].
    destruct (ref_url r); [eauto using ref_attach_names|].
    destruct url_ as [u|]; [|eauto using ref_attach_names].
    destruct (match node with Some nd => _ | None => _ end); simpl in H; [|discriminate].
    destruct (set_urls _ _ _); simpl in H; [|discriminate].
    injection H as <- <-. eapply names_insert; eauto.
  - apply ref_attach_names in H. rewrite H, fmap_app. reflexivity.
Qed.



Lemma distinct_names_fmap refs refs' :
  name <$> refs' = name <$> refs -> distinct_names refs -> distinct_names refs'.
Proof.
  intros Hn Hd i j ri rj Hi Hj Heq.
  assert (Hi' : (name <$> refs) !! i = Some (name ri)).
  { rewrite <- Hn, list_lookup_fmap, Hi. reflexivity. }
  assert (Hj' : (name <$> refs) !! j = Some (name rj)).
  { rewrite <- Hn, list_lookup_fmap, Hj. reflexivity. }
  rewrite list_lookup_fmap in Hi', Hj'.
  destruct (refs !! i) as [ri0|] eqn:Ei; [|discriminate].
  destruct (refs !! j) as [rj0|] eqn:Ej; [|discriminate].
  simpl in Hi', Hj'. injection Hi' as Hi'. injection Hj' as Hj'.
  apply (Hd i j ri0 rj0 Ei Ej). congruence.
Qed.

Lemma distinct_names_snoc refs r :
  distinct_names refs -> mmd_ref_find refs (name r) = None ->
  distinct_names (refs ++ [r]).
Proof.
  intros Hd Hf i j ri rj Hi Hj Heq.
  pose proof (ref_find_from_None _ _ _ Hf) as Hnone.
  apply lookup_app_Some in Hi as [Hi|[Hil Hi]];
    apply lookup_app_Some in Hj as [Hj|[Hjl Hj]].
  - eapply Hd; eauto.
  - apply list_lookup_singleton_Some in Hj as [_ <-].
    rewrite strcasecmp_eq_sym, Hnone in Heq; [discriminate|].
    eapply list_elem_of_lookup_2; eauto.
  - apply list_lookup_singleton_Some in Hi as [_ <-].
    rewrite Hnone in Heq; [discriminate|].
    eapply list_elem_of_lookup_2; eauto.
  - apply list_lookup_singleton_Some in Hi as [Hi _].
    apply list_lookup_singleton_Some in Hj as [Hj _]. lia.
Qed.

Lemma ref_add_distinct h refs node nm url_ h' refs' :
  distinct_names refs -> mmd_ref_add h refs node nm url_ = Some (h', refs') ->
  distinct_names refs'.
Proof.
  intros Hd H. pose proof (ref_add_names _ _ _ _ _ _ _ H) as Hn.
  destruct (mmd_ref_find refs nm) as [i|] eqn:Ef.
  - eapply distinct_names_fmap; eauto.
  - apply (distinct_names_fmap (refs ++ [mk_ref nm None []])).
    + rewrite Hn, fmap_app. reflexivity.
    + apply distinct_names_snoc; [exact Hd|exact Ef].
Qed.
End reference_lookup.

(** X1: [mmd_ref_find] returns the index of the first entry of the table
    whose name is the name looked up, case ignored: the entry at the index
    matches and no entry before it does; it returns [NULL] only when no
    entry of the table matches. *)
Theorem ref_find_first_match (refs : list _mmd_ref_t) (nm : string) :
  match mmd_ref_find refs nm with
  | Some i =>
      exists r, refs !! i = Some r /\ strcasecmp_eq nm (name r) = true /\
        forall j r', j < i -> refs !! j = Some r' ->
          strcasecmp_eq nm (name r') = false
  | None => forall r, r ∈ refs -> strcasecmp_eq nm (name r) = false
  end.
Proof.
  destruct (mmd_ref_find refs nm) as [i|] eqn:E.
  - destruct (mmd_ref_find_Some _ _ _ E) as (r & Hr & Hn).
    exists r. split; [exact Hr|]. split; [exact Hn|].
    intros j r' Hj. apply (ref_find_from_first _ _ _ _ E). lia.
  - apply (ref_find_from_None _ _ _ E).
Qed.


Section reference_invariants.
Implicit Types (h : heap) (refs : list _mmd_ref_t) (r : _mmd_ref_t) (nm : string).







End reference_invariants.



(** X3: [mmd_ref_add] keeps the names of the table distinct, case ignored:
    when no two entries of the table match each other none do afterwards,
    and the entry [mmd_ref_find] then finds for the name is the only one
    that matches it. *)
Theorem ref_add_keeps_names_distinct (h : heap) (refs : list _mmd_ref_t)
    (node : option ptr) (nm : string) (url_ : option string) (h' : heap)
    (refs' : list _mmd_ref_t) :
  distinct_names refs -> mmd_ref_add h refs node nm url_ = Some (h', refs') ->
  distinct_names refs' /\
  forall i j r, mmd_ref_find refs' nm = Some i -> refs' !! j = Some r ->
    strcasecmp_eq nm (name r) = true -> j = i.
Proof.
  intros Hd H. pose proof (ref_add_distinct _ _ _ _ _ _ _ Hd H) as Hd'.
  split; [exact Hd'|]. intros i j r Hf Hr Hn.
  destruct (mmd_ref_find_Some _ _ _ Hf) as (ri & Hri & Hni).
  apply (Hd' j i r ri Hr Hri). rewrite strcasecmp_eq_sym in Hn.
  eapply strcasecmp_eq_trans; eauto.
Qed.


Lemma ref_add_keeps_names_distinct_witness :
  distinct_names [mk_ref "bar" None []; mk_ref "Baz" None [1]] /\
  forall i j r,
    mmd_ref_find [mk_ref "bar" None []; mk_ref "Baz" None [1]] "Baz" = Some i ->
    [mk_ref "bar" None []; mk_ref "Baz" None [1]] !! j = Some r ->
    strcasecmp_eq "Baz" (name r) = true -> j = i.
Proof.
  apply (ref_add_keeps_names_distinct [calloc_node; calloc_node]
           [mk_ref "bar" None []] (Some 1) "Baz" None
           [calloc_node; calloc_node]); [|reflexivity].
  intros [|[|?]] [|[|?]] ri rj Hi Hj; simpl in Hi, Hj; simplify_eq; auto.
Defined.







(** ** Walking the tree *)

Section navigation.
Variables (h : heap).
Hypothesis Hcons : consistent h.

Lemma consistent_children p n :
  h !! p = Some n ->
  exists cs, children h p cs /\ first_child n = head cs /\ last_child n = last cs.
Proof.
  intros Hp. destruct (Hcons p n Hp) as [[cs Hc] _]. exists cs.
  split; [exact Hc|]. destruct Hc as [(n' & E & Hf & Hl) _].
  assert (n' = n) as -> by congruence. auto.
Qed.

Lemma consistent_siblings p n :
  h !! p = Some n ->
  match parent n with
  | Some q =>
      exists cs k, children h q cs /\ cs !! k = Some p /\
        prev_sibling n = prev_of cs k /\ next_sibling n = cs !! S k
  | None => prev_sibling n = None /\ next_sibling n = None
  end.
Proof.
  intros Hp. destruct (Hcons p n Hp) as [_ Hpar].
  destruct (parent n) as [q|]; [|exact Hpar].
  destruct Hpar as (cs & Hc & [k Hk]%list_elem_of_lookup_1).
  destruct (children_member _ _ _ _ _ Hc Hk) as (m & Em & _ & Hpv & Hnx).
  assert (m = n) as -> by congruence. eauto 10.
Qed.

Lemma next_then_prev p n q :
  h !! p = Some n -> next_sibling n = Some q ->
  exists m, h !! q = Some m /\ prev_sibling m = Some p /\ parent m = parent n.
Proof.
  intros Hp Hn. pose proof (consistent_siblings p n Hp) as Hs.
  destruct (parent n) as [par|]; [|destruct Hs; congruence].
  destruct Hs as (cs & k & Hc & Hk & _ & Hnx). rewrite Hn in Hnx. symmetry in Hnx.
  destruct (children_member _ _ _ _ _ Hc Hnx) as (m & Em & Hpar & Hpv & _).
  exists m. split; [exact Em|]. split; [|exact Hpar]. rewrite Hpv. exact Hk.
Qed.

Lemma prev_then_next p n q :
  h !! p = Some n -> prev_sibling n = Some q ->
  exists m, h !! q = Some m /\ next_sibling m = Some p /\ parent m = parent n.
Proof.
  intros Hp Hn. pose proof (consistent_siblings p n Hp) as Hs.
  destruct (parent n) as [par|]; [|destruct Hs; congruence].
  destruct Hs as (cs & k & Hc & Hk & Hpv & _). rewrite Hn in Hpv.
  destruct k as [|k]; [discriminate|]. simpl in Hpv. symmetry in Hpv.
  destruct (children_member _ _ _ _ _ Hc Hpv) as (m & Em & Hpar & _ & Hnx).
  exists m. split; [exact Em|]. split; [|exact Hpar]. rewrite Hnx. exact Hk.
Qed.

Lemma first_child_links p n q :
  h !! p = Some n -> first_child n = Some q ->
  exists m, h !! q = Some m /\ parent m = Some p /\ prev_sibling m = None.
Proof.
  intros Hp Hf. destruct (consistent_children p n Hp) as (cs & Hc & Hhead & _).
  rewrite Hf in Hhead. symmetry in Hhead. rewrite head_lookup in Hhead.
  destruct (children_member _ _ _ _ _ Hc Hhead) as (m & Em & Hpar & Hpv & _).
  eauto.
Qed.

Lemma last_child_links p n q :
  h !! p = Some n -> last_child n = Some q ->
  exists m, h !! q = Some m /\ parent m = Some p /\ next_sibling m = None.
Proof.
  intros Hp Hl. destruct (consistent_children p n Hp) as (cs & Hc & _ & Hlast).
  rewrite Hl in Hlast. symmetry in Hlast.
  pose proof Hlast as Hk. rewrite last_lookup in Hk.
  destruct (children_member _ _ _ _ _ Hc Hk) as (m & Em & Hpar & _ & _).
  exists m. split; [exact Em|]. split; [exact Hpar|].
  eapply children_last_next; eauto.
Qed.

Lemma first_last_none p n :
  h !! p = Some n -> (first_child n = None <-> last_child n = None).
Proof.
  intros Hp. destruct (consistent_children p n Hp) as (cs & _ & -> & ->).
  rewrite last_None. destruct cs; simpl; split; congruence.
Qed.
End navigation.

(** X7: the accessors on a consistent heap, for an allocated node: the
    previous sibling of its next sibling is the node, and the next sibling
    of its previous sibling is, and siblings have the same parent; its first
    child has it as parent and no previous sibling, its last child has it as
    parent and no next sibling; it has no first child exactly when it has no
    last child; and a node without parent has no siblings. *)
Theorem navigation_round_trips (h : heap) (p : ptr) :
  consistent h -> p < length h ->
  (forall q, mmdGetNextSibling h (Some p) = Some (Some q) ->
     mmdGetPrevSibling h (Some q) = Some (Some p) /\
     mmdGetParent h (Some q) = mmdGetParent h (Some p)) /\
  (forall q, mmdGetPrevSibling h (Some p) = Some (Some q) ->
     mmdGetNextSibling h (Some q) = Some (Some p) /\
     mmdGetParent h (Some q) = mmdGetParent h (Some p)) /\
  (forall q, mmdGetFirstChild h (Some p) = Some (Some q) ->
     mmdGetParent h (Some q) = Some (Some p) /\
     mmdGetPrevSibling h (Some q) = Some None) /\
  (forall q, mmdGetLastChild h (Some p) = Some (Some q) ->
     mmdGetParent h (Some q) = Some (Some p) /\
     mmdGetNextSibling h (Some q) = Some None) /\
  (mmdGetFirstChild h (Some p) = Some None <->
   mmdGetLastChild h (Some p) = Some None) /\
  (mmdGetParent h (Some p) = Some None ->
   mmdGetPrevSibling h (Some p) = Some None /\
   mmdGetNextSibling h (Some p) = Some None).
Proof.
  intros Hcons [n Hp]%lookup_lt_is_Some_2.
  unfold mmdGetNextSibling, mmdGetPrevSibling, mmdGetParent, mmdGetFirstChild,
    mmdGetLastChild.
  rewrite Hp. cbn [mbind option_bind]. repeat split.
  - injection H as H.
    destruct (next_then_prev h Hcons p n q Hp H) as (m & -> & Hpv & _).
    simpl. congruence.
  - injection H as H.
    destruct (next_then_prev h Hcons p n q Hp H) as (m & -> & _ & Hpar).
    simpl. congruence.
  - injection H as H.
    destruct (prev_then_next h Hcons p n q Hp H) as (m & -> & Hnx & _).
    simpl. congruence.
  - injection H as H.
    destruct (prev_then_next h Hcons p n q Hp H) as (m & -> & _ & Hpar).
    simpl. congruence.
  - injection H as H.
    destruct (first_child_links h Hcons p n q Hp H) as (m & -> & Hpar & _).
    simpl. congruence.
  - injection H as H.
    destruct (first_child_links h Hcons p n q Hp H) as (m & -> & _ & Hpv).
    simpl. congruence.
  - injection H as H.
    destruct (last_child_links h Hcons p n q Hp H) as (m & -> & Hpar & _).
    simpl. congruence.
  - injection H as H.
    destruct (last_child_links h Hcons p n q Hp H) as (m & -> & _ & Hnx).
    simpl. congruence.
  - intros [= H]. f_equal. apply (first_last_none h Hcons p n Hp). exact H.
  - intros [= H]. f_equal. apply (first_last_none h Hcons p n Hp). exact H.
  - injection H as H. pose proof (consistent_siblings h Hcons p n Hp) as Hs.
    rewrite H in Hs. f_equal. apply Hs.
  - injection H as H. pose proof (consistent_siblings h Hcons p n Hp) as Hs.
    rewrite H in Hs. f_equal. apply Hs.
Qed.


Lemma navigation_round_trips_witness :
  (forall q, mmdGetNextSibling example_heap (Some 1) = Some (Some q) ->
     mmdGetPrevSibling example_heap (Some q) = Some (Some 1) /\
     mmdGetParent example_heap (Some q) = mmdGetParent example_heap (Some 1)) /\
  (forall q, mmdGetPrevSibling example_heap (Some 1) = Some (Some q) ->
     mmdGetNextSibling example_heap (Some q) = Some (Some 1) /\
     mmdGetParent example_heap (Some q) = mmdGetParent example_heap (Some 1)) /\
  (forall q, mmdGetFirstChild example_heap (Some 1) = Some (Some q) ->
     mmdGetParent example_heap (Some q) = Some (Some 1) /\
     mmdGetPrevSibling example_heap (Some q) = Some None) /\
  (forall q, mmdGetLastChild example_heap (Some 1) = Some (Some q) ->
     mmdGetParent example_heap (Some q) = Some (Some 1) /\
     mmdGetNextSibling example_heap (Some q) = Some None) /\
  (mmdGetFirstChild example_heap (Some 1) = Some None <->
   mmdGetLastChild example_heap (Some 1) = Some None) /\
  (mmdGetParent example_heap (Some 1) = Some None ->
   mmdGetPrevSibling example_heap (Some 1) = Some None /\
   mmdGetNextSibling example_heap (Some 1) = Some None).
Proof.
  apply (navigation_round_trips example_heap 1 example_consistent).
  vm_compute. lia.
Defined.

(** ** [mmd_add] followed by [mmd_remove] *)

Lemma add_then_remove_nodes (h : heap) (par : ptr) (ty : mmd_type_t) (ws : bool)
    (tx ur : option string) :
  consistent h -> par < length h ->
  exists h1 h2,
    mmd_add true h (Some par) ty ws tx ur = Some (h1, Some (length h)) /\
    mmd_remove h1 (length h) = Some h2 /\
    h2 = h ++ [mk_mmd ty ws tx ur None None None None None].
Proof.
  intros Hcons [pn Hpar]%lookup_lt_is_Some_2.
  pose proof (lookup_lt_Some _ _ _ Hpar) as Hparlt.
  destruct (consistent_children h Hcons par pn Hpar) as (cs & Hc & Hfirst & Hlast).
  assert (Hlastlt : forall l, last_child pn = Some l -> l < length h).
  { intros l Hl. apply (children_allocated _ _ _ _ Hc).
    apply last_Some_elem_of. congruence. }
  destruct (mmd_add_child h par pn ty ws tx ur Hpar Hlastlt)
    as (h1 & E1 & Hlen1 & Hnew & Hold).
  destruct (mmd_remove_links h1 (length h) _ par Hnew eq_refl)
    as (h2 & E2 & Hlen2 & Hrem).
  { lia. }
  { cbn. intros pv Hpv. specialize (Hlastlt pv Hpv). lia. }
  { cbn. discriminate. }
  exists h1, h2. split; [exact E1|]. split; [exact E2|].
  apply list_eq. intros i. destruct (decide (i < length h)) as [Hi|Hi].
  - destruct (lookup_lt_is_Some_2 h i Hi) as [n En].
    rewrite lookup_app_l by exact Hi.
    rewrite (Hrem i _ (Hold i n En)), En. cbn.
    rewrite !(decide_False (P := i = length h)) by lia.
    f_equal. destruct n as [nty nws ntx nur npar nfc nlc nps nns]. cbn. f_equal.
    + destruct (decide (i = par)) as [->|Hne].
      * assert (pn = mk_mmd nty nws ntx nur npar nfc nlc nps nns) as -> by congruence.
        cbn in *. destruct nlc as [l|].
        -- rewrite decide_False by (intros [_ ?]; discriminate). reflexivity.
        -- rewrite decide_True by (split; reflexivity).
           symmetry in Hlast. apply last_None in Hlast. subst cs. exact (eq_sym Hfirst).
      * rewrite decide_False by (intros [? _]; contradiction). reflexivity.
    + destruct (decide (i = par)) as [->|Hne].
      * assert (pn = mk_mmd nty nws ntx nur npar nfc nlc nps nns) as -> by congruence.
        rewrite decide_True by (split; reflexivity). reflexivity.
      * rewrite decide_False by (intros [? _]; contradiction). reflexivity.
    + destruct (decide (last_child pn = Some i)) as [Hl|Hl]; [|reflexivity].
      rewrite Hlast in Hl.
      pose proof (children_last_next _ _ _ _ _ Hc Hl En) as Hn. cbn in Hn. congruence.
  - assert (Hi' : length h <= i) by lia.
    rewrite lookup_app_r by exact Hi'.
    destruct (decide (i = length h)) as [->|Hne].
    + rewrite Nat.sub_diag. cbn [lookup list_lookup].
      rewrite (Hrem _ _ Hnew). cbn. rewrite !decide_True by reflexivity.
      repeat (case_decide; destruct_and?; try lia); reflexivity.
    + rewrite lookup_ge_None_2 by lia.
      destruct (i - length h) as [|d] eqn:Ed; [lia|]. reflexivity.
Qed.

(** X6: [mmd_remove] undoes the linking of [mmd_add]: adding a node under
    an allocated parent of a consistent heap and removing it again leaves
    every node that was there as it was; the new node stays allocated, with
    its type, whitespace, text and URL and without parent and siblings. *)
Theorem add_then_remove (h : heap) (par : ptr) (ty : mmd_type_t) (ws : bool)
    (tx ur : option string) :
  consistent h -> par < length h ->
  exists h1 h2,
    mmd_add true h (Some par) ty ws tx ur = Some (h1, Some (length h)) /\
    mmd_remove h1 (length h) = Some h2 /\
    h2 = h ++ [mk_mmd ty ws tx ur None None None None None].
Proof. apply add_then_remove_nodes. Qed.

Lemma add_then_remove_witness :
  exists h1 h2,
    mmd_add true example_heap (Some 0) MMD_TYPE_PARAGRAPH false None None =
      Some (h1, Some (length example_heap)) /\
    mmd_remove h1 (length example_heap) = Some h2 /\
    h2 = example_heap ++
           [mk_mmd MMD_TYPE_PARAGRAPH false None None None None None None None].
Proof.
  apply (add_then_remove example_heap 0 MMD_TYPE_PARAGRAPH false None None
           example_consistent).
  vm_compute. lia.
Defined.


(** ** [mmdCopyAllText]: what it reads *)

Lemma children_agree (h h' : heap) (nd : ptr) (cs : list ptr) :
  children h nd cs -> h' !! nd = h !! nd -> (forall c, c ∈ cs -> h' !! c = h !! c) ->
  children h' nd cs.
Proof.
  intros [(n & E & Hf) Hmem] Hnd Hcs. split.
  - exists n. rewrite Hnd. auto.
  - intros k c Hk. rewrite (Hcs c) by (eapply list_elem_of_lookup_2; eauto).
    apply Hmem, Hk.
Qed.

Lemma text_items_agree (h h' : heap) (cs : list ptr) :
  (forall c, c ∈ cs -> h' !! c = h !! c) -> text_items h' cs = text_items h cs.
Proof.
  intros Hcs. induction cs as [|c cs IH]; [reflexivity|].
  rewrite !text_items_cons. rewrite (Hcs c) by (apply elem_of_cons; auto).
  rewrite IH by (intros; apply Hcs, elem_of_cons; auto). reflexivity.
Qed.

(** X8: [mmdCopyAllText] reads the node and its children only: on two heaps
    that agree on them it gives the same result, whatever the nodes below
    the children hold.  On [NULL] it returns [NULL]; on a node without
    children it dereferences [NULL], a failure of the call. *)
Theorem collect_text_reads_children_only (h h' : heap) (nd : ptr) (cs : list ptr)
    (fuel : nat) (alloc_ok : nat -> bool) :
  children h nd cs -> cs <> [] -> nd ∉ cs -> length cs < fuel ->
  h' !! nd = h !! nd -> (forall c, c ∈ cs -> h' !! c = h !! c) ->
  mmdCopyAllText fuel h' alloc_ok (Some nd) = mmdCopyAllText fuel h alloc_ok (Some nd) /\
  mmdCopyAllText fuel h alloc_ok None = Some None /\
  (forall p n, h !! p = Some n -> first_child n = None ->
     mmdCopyAllText fuel h alloc_ok (Some p) = None).
Proof.
  intros Hc Hne Hself Hfuel Hnd Hcs. split; [|split].
  - rewrite (mmdCopyAllText_children h nd cs Hc Hself _ fuel Hne Hfuel).
    rewrite (mmdCopyAllText_children h' nd cs (children_agree _ _ _ _ Hc Hnd Hcs)
               Hself _ fuel Hne Hfuel).
    rewrite (text_items_agree _ _ _ Hcs). reflexivity.
  - destruct fuel as [|fuel]; [lia|]. reflexivity.
  - intros p n Hp Hf. unfold mmdCopyAllText, mmdGetFirstChild.
    rewrite Hp. cbn [mbind option_bind]. rewrite Hf.
    destruct fuel as [|fuel]; [lia|]. reflexivity.
Qed.

Lemma collect_text_reads_children_only_witness :
  mmdCopyAllText 3 (example_heap ++ [calloc_node]) (fun _ => true) (Some 0) =
    mmdCopyAllText 3 example_heap (fun _ => true) (Some 0) /\
  mmdCopyAllText 3 example_heap (fun _ => true) None = Some None /\
  (forall p n, example_heap !! p = Some n -> first_child n = None ->
     mmdCopyAllText 3 example_heap (fun _ => true) (Some p) = None).
Proof.
  apply (collect_text_reads_children_only example_heap (example_heap ++ [calloc_node])
           0 [1; 2] 3 (fun _ => true)).
  - apply example_children.
  - discriminate.
  - apply example_root_not_child.
  - simpl. lia.
  - reflexivity.
  - intros c [->|[->|H]%elem_of_cons]%elem_of_cons; [reflexivity..|inversion H].
Defined.

(** ** [mmdGetMetadata] *)

Section metadata.
Implicit Types (h : heap) (cs : list ptr) (texts : list string) (s t : string).

Lemma metadata_loop_children h md cs texts prefix_ :
  children h md cs -> node_texts h cs texts ->
  forall l2 l1 texts2 fuel,
    cs = l1 ++ l2 -> node_texts h l2 texts2 -> length l2 < fuel ->
    metadata_loop fuel h prefix_ (head l2) = Some (metadata_value prefix_ texts2).
Proof.
  intros Hc _. induction l2 as [|c l2 IH]; intros l1 texts2 fuel Hcs Ht Hfuel.
  - inversion Ht; subst. destruct fuel; [simpl in Hfuel; lia|]. reflexivity.
  - inversion Ht as [|? t ? texts2' (n & En & Etx) Hrest]; subst.
    destruct fuel as [|fuel]; [simpl in Hfuel; lia|]. simpl in Hfuel.
    cbn [head metadata_loop metadata_value]. rewrite En. cbn [mbind option_bind].
    rewrite Etx. cbn [mbind option_bind].
    destruct (String.prefix prefix_ t); [reflexivity|].
    assert (Hk : (l1 ++ c :: l2) !! length l1 = Some c).
    { apply list_lookup_middle. reflexivity. }
    destruct (children_member _ _ _ _ _ Hc Hk) as (m & Em & _ & _ & Hnx).
    assert (m = n) as -> by congruence. rewrite Hnx.
    rewrite (lookup_app_r l1) by lia.
    replace (S (length l1) - length l1) with 1 by lia.
    change ((c :: l2) !! 1) with (l2 !! 0). rewrite <- head_lookup.
    apply (IH (l1 ++ [c])); [rewrite <- app_assoc; reflexivity|exact Hrest|lia].
Qed.

(** The lookup on a document whose first child is a metadata node. *)
Lemma mmdGetMetadata_children h d dn md mn cs texts keyword fuel :
  h !! d = Some dn -> first_child dn = Some md ->
  h !! md = Some mn -> type mn = MMD_TYPE_METADATA ->
  children h md cs -> node_texts h cs texts -> length cs < fuel ->
  mmdGetMetadata fuel h (Some d) keyword =
    Some (metadata_value (metadata_prefix keyword) texts).
Proof.
  intros Hd Hf Hmd Hty Hc Ht Hfuel. unfold mmdGetMetadata.
  rewrite Hd. cbn [mbind option_bind]. rewrite Hf, Hmd. cbn [mbind option_bind].
  rewrite Hty. unfold is_type. rewrite bool_decide_true by reflexivity.
  destruct Hc as [(n & En & Hhead & Hlast) Hmem].
  assert (n = mn) as -> by congruence. rewrite Hhead.
  apply (metadata_loop_children h md cs texts _ (conj (ex_intro _ mn (conj En (conj Hhead Hlast))) Hmem) Ht cs []);
    [reflexivity|exact Ht|exact Hfuel].
Qed.

Lemma prefix_append s t : String.prefix s (String.append s t) = true.
Proof.
  induction s as [|c s IH]; simpl; [destruct t; reflexivity|].
  destruct (ascii_dec c c); [exact IH|contradiction].
Qed.

Lemma string_drop_append s t : string_drop (String.length s) (String.append s t) = t.
Proof. induction s as [|c s IH]; simpl; [destruct t; reflexivity|exact IH]. Qed.

Lemma metadata_prefix_short keyword :
  String.length keyword <= 254 -> metadata_prefix keyword = String.append keyword ":".
Proof.
  intros Hlen. unfold metadata_prefix. rewrite take_ge.
  - apply string_of_list_ascii_of_string.
  - assert (H : forall a b, length (list_ascii_of_string (String.append a b)) =
                  String.length a + String.length b).
    { intros a b. induction a as [|c a IH]; simpl.
      - induction b as [|c b IH]; simpl; [reflexivity|]. rewrite IH. reflexivity.
      - rewrite IH. reflexivity. }
    rewrite H. simpl. lia.
Qed.

Lemma skip_space_append sp v :
  Forall (fun c => isspace c = true) (list_ascii_of_string sp) ->
  skip_space v = v -> skip_space (String.append sp v) = v.
Proof.
  intros Hsp Hv. induction sp as [|c sp IH]; simpl; [exact Hv|].
  inversion Hsp as [|? ? Hc Hrest]; subst. rewrite Hc. apply IH, Hrest.
Qed.

Lemma metadata_value_app prefix_ pre texts :
  Forall (fun t => String.prefix prefix_ t = false) pre ->
  metadata_value prefix_ (pre ++ texts) = metadata_value prefix_ texts.
Proof.
  induction pre as [|t pre IH]; intros H; [reflexivity|].
  inversion H as [|? ? Ht Hrest]; subst. simpl. rewrite Ht. apply IH, Hrest.
Qed.

Lemma metadata_value_None prefix_ texts :
  metadata_value prefix_ texts = None <->
  Forall (fun t => String.prefix prefix_ t = false) texts.
Proof.
  induction texts as [|t texts IH]; simpl; [split; [constructor|reflexivity]|].
  destruct (String.prefix prefix_ t) eqn:E.
  - split; [discriminate|]. intros H. inversion H; congruence.
  - rewrite IH. split; [intros H; constructor; assumption|].
    intros H. inversion H; assumption.
Qed.
End metadata.


Lemma list_ascii_of_string_append (a b : string) :
  list_ascii_of_string (String.append a b) =
    list_ascii_of_string a ++ list_ascii_of_string b.
Proof. induction a as [|c a IH]; simpl; [reflexivity|]. rewrite IH. reflexivity. Qed.

Lemma metadata_prefix_long (keyword : string) :
  255 <= String.length keyword ->
  metadata_prefix keyword =
    string_of_list_ascii (take 255 (list_ascii_of_string keyword)).
Proof.
  intros Hlen. unfold metadata_prefix. rewrite list_ascii_of_string_append.
  rewrite take_app_le; [reflexivity|].
  clear -Hlen. revert Hlen. generalize 255.
  induction keyword as [|c k IH]; simpl; intros n Hn; [lia|].
  destruct n as [|n]; [lia|]. specialize (IH n). lia.
Qed.

(** X9: [mmdGetMetadata] on a document whose first child is a metadata node
    with children that all carry text: the result is the rest, after the
    whitespace that follows the prefix, of the first text that starts with
    the prefix, and [NULL] when no text does.  For a keyword of at most 254
    bytes the prefix is the keyword and a colon, so that the line
    [keyword: value] below lines of other keywords gives [value]; of a
    longer keyword only the first 255 bytes are compared, without a
    colon. *)
Theorem metadata_lookup (h : heap) (d md : ptr) (dn mn : mmd_t) (cs : list ptr)
    (texts : list string) (keyword : string) (fuel : nat) :
  h !! d = Some dn -> first_child dn = Some md ->
  h !! md = Some mn -> type mn = MMD_TYPE_METADATA ->
  children h md cs -> node_texts h cs texts -> length cs < fuel ->
  mmdGetMetadata fuel h (Some d) keyword =
    Some (metadata_value (metadata_prefix keyword) texts) /\
  (String.length keyword <= 254 ->
   forall pre sp v post,
     texts = pre ++ String.append (String.append keyword ":") (String.append sp v)
                    :: post ->
     Forall (fun t => String.prefix (String.append keyword ":") t = false) pre ->
     Forall (fun c => isspace c = true) (list_ascii_of_string sp) ->
     skip_space v = v ->
     mmdGetMetadata fuel h (Some d) keyword = Some (Some v)) /\
  (Forall (fun t => String.prefix (metadata_prefix keyword) t = false) texts ->
   mmdGetMetadata fuel h (Some d) keyword = Some None) /\
  (String.length keyword <= 254 ->
   metadata_prefix keyword = String.append keyword ":") /\
  (255 <= String.length keyword ->
   metadata_prefix keyword =
     string_of_list_ascii (take 255 (list_ascii_of_string keyword))).
Proof.
  intros Hd Hf Hmd Hty Hc Ht Hfuel.
  pose proof (mmdGetMetadata_children h d dn md mn cs texts keyword fuel
                Hd Hf Hmd Hty Hc Ht Hfuel) as E.
  split; [exact E|]. split; [|split; [|split]].
  - intros Hlen pre sp v post -> Hpre Hsp Hv. rewrite E. f_equal.
    rewrite (metadata_prefix_short _ Hlen), metadata_value_app by exact Hpre.
    cbn [metadata_value]. rewrite prefix_append, string_drop_append.
    rewrite skip_space_append by assumption. reflexivity.
  - intros Hnone. rewrite E. f_equal. apply metadata_value_None, Hnone.
  - apply metadata_prefix_short.
  - apply metadata_prefix_long.
Qed.


Lemma metadata_heap_nodes :
  metadata_heap =
    [mk_mmd MMD_TYPE_DOCUMENT false None None None (Some 1) (Some 1) None None;
     mk_mmd MMD_TYPE_METADATA false None None (Some 0) (Some 2) (Some 3) None None;
     mk_mmd MMD_TYPE_METADATA_TEXT false (Some "title: Hello") None (Some 1)
            None None None (Some 3);
     mk_mmd MMD_TYPE_METADATA_TEXT false (Some "author:   A. Writer") None (Some 1)
            None None (Some 2) None].
Proof. vm_compute. reflexivity. Qed.

Lemma metadata_lookup_witness :
  mmdGetMetadata 3 metadata_heap (Some 0) "author" = Some (Some "A. Writer") /\
  mmdGetMetadata 3 metadata_heap (Some 0) "title" = Some (Some "Hello") /\
  mmdGetMetadata 3 metadata_heap (Some 0) "Title" = Some None.
Proof.
  assert (Hc : children metadata_heap 1 [2; 3]).
  { rewrite metadata_heap_nodes. solve_children. }
  assert (Ht : node_texts metadata_heap [2; 3] ["title: Hello"; "author:   A. Writer"]).
  { rewrite metadata_heap_nodes.
    repeat constructor; eexists; (split; [reflexivity|reflexivity]). }
  assert (Hfuel : length [2; 3] < 3) by (simpl; lia).
  split; [|split].
  - destruct (metadata_lookup metadata_heap 0 1 _ _ [2; 3] _ "author" 3
                ltac:(rewrite metadata_heap_nodes; reflexivity) eq_refl
                ltac:(rewrite metadata_heap_nodes; reflexivity) eq_refl Hc Ht Hfuel)
      as (_ & H & _).
    apply (H ltac:(simpl; lia) ["title: Hello"] "   " "A. Writer" []);
      [reflexivity|repeat constructor..|reflexivity].
  - destruct (metadata_lookup metadata_heap 0 1 _ _ [2; 3] _ "title" 3
                ltac:(rewrite metadata_heap_nodes; reflexivity) eq_refl
                ltac:(rewrite metadata_heap_nodes; reflexivity) eq_refl Hc Ht Hfuel)
      as (_ & H & _).
    apply (H ltac:(simpl; lia) [] " " "Hello" ["author:   A. Writer"]);
      [reflexivity|repeat constructor..|reflexivity].
  - destruct (metadata_lookup metadata_heap 0 1 _ _ [2; 3] _ "Title" 3
                ltac:(rewrite metadata_heap_nodes; reflexivity) eq_refl
                ltac:(rewrite metadata_heap_nodes; reflexivity) eq_refl Hc Ht Hfuel)
      as (_ & _ & H & _).
    apply H. repeat constructor.
Defined.


(** ** [mmdFree] *)

Section trees.
Implicit Types (h : heap) (t : ptree) (cs : list ptree) (p q : ptr).

Lemma ptree_ind' (P : ptree -> Prop) :
  (forall p cs, Forall P cs -> P (PNode p cs)) -> forall t, P t.
Proof.
  intros H. fix IH 1. intros [p cs]. apply H.
  induction cs as [|t cs IHcs]; constructor; [apply IH|exact IHcs].
Qed.

Lemma root_in_ptrs t : root_of t ∈ ptrs t.
Proof. destruct t. simpl. apply elem_of_cons. auto. Qed.

Lemma roots_in_ptrs cs q : q ∈ root_of <$> cs -> q ∈ cs ≫= ptrs.
Proof.
  intros (t & -> & Ht)%list_elem_of_fmap. apply list_elem_of_bind.
  exists t. split; [apply root_in_ptrs|exact Ht].
Qed.

Lemma postorder_perm t : postorder t ≡ₚ ptrs t.
Proof.
  induction t as [p cs IH] using ptree_ind'. simpl.
  rewrite <- Permutation_cons_append. constructor.
  induction IH as [|t cs Ht _ IHcs]; [reflexivity|].
  cbn. rewrite Ht, IHcs. reflexivity.
Qed.

Lemma shape_agree h h' t :
  shape h t -> (forall q, q ∈ ptrs t -> h' !! q = h !! q) -> shape h' t.
Proof.
  induction t as [p cs IH] using ptree_ind'. intros Hs Hq.
  inversion Hs as [? ? Hc Hall]; subst. constructor.
  - apply (children_agree h); [exact Hc| |].
    + apply Hq. simpl. apply elem_of_cons. auto.
    + intros c Hin. apply Hq. simpl. apply elem_of_cons. right.
      apply roots_in_ptrs, Hin.
  - rewrite Forall_forall in IH, Hall |- *. intros t Ht.
    apply (IH t Ht (Hall t Ht)). intros q Hin. apply Hq. simpl.
    apply elem_of_cons. right. apply list_elem_of_bind. eauto.
Qed.

Lemma children_chain h p (rs : list ptr) : children h p rs -> chain h p rs.
Proof.
  intros [_ Hmem] k c Hk. destruct (Hmem k c Hk) as (m & E & Hp & _ & Hn). eauto.
Qed.

Lemma chain_tail h p c (rs : list ptr) : chain h p (c :: rs) -> chain h p rs.
Proof. intros H k c' Hk. apply (H (S k) c'). exact Hk. Qed.

Lemma chain_agree h h' p (rs : list ptr) :
  chain h p rs -> (forall c, c ∈ rs -> h' !! c = h !! c) -> chain h' p rs.
Proof.
  intros H Hq k c Hk. rewrite (Hq c) by (eapply list_elem_of_lookup_2; eauto).
  apply H, Hk.
Qed.

(** The children of a node of the tree are below the root. *)
Lemma shape_children_below h t q cq c :
  shape h t -> q ∈ ptrs t -> children h q cq -> c ∈ cq ->
  match t with PNode _ cs => c ∈ cs ≫= ptrs end.
Proof.
  revert q. induction t as [p cs IH] using ptree_ind'. intros q Hs Hq Hc Hin.
  inversion Hs as [? ? Hcp Hall]; subst. simpl in Hq.
  apply elem_of_cons in Hq as [->|Hq].
  - rewrite (children_unique _ _ _ _ Hc Hcp) in Hin. apply roots_in_ptrs, Hin.
  - apply list_elem_of_bind in Hq as (t & Hq & Ht).
    rewrite Forall_forall in IH, Hall.
    specialize (IH t Ht q (Hall t Ht) Hq Hc Hin). destruct t as [p' cs'].
    apply list_elem_of_bind. exists (PNode p' cs'). split; [|exact Ht].
    simpl. apply elem_of_cons. auto.
Qed.

(** A node below the root has its parent in the tree. *)
Lemma shape_parent_inside h t q n :
  shape h t -> match t with PNode _ cs => q ∈ cs ≫= ptrs end ->
  h !! q = Some n -> exists p, parent n = Some p /\ p ∈ ptrs t.
Proof.
  induction t as [p cs IH] using ptree_ind'. intros Hs Hq Hn.
  inversion Hs as [? ? Hcp Hall]; subst.
  apply list_elem_of_bind in Hq as (t & Hq & Ht).
  rewrite Forall_forall in IH, Hall.
  destruct t as [p' cs']. simpl in Hq. apply elem_of_cons in Hq as [->|Hq].
  - exists p. split; [|simpl; apply elem_of_cons; auto].
    eapply children_parent; [exact Hcp| |exact Hn].
    apply list_elem_of_fmap. exists (PNode p' cs'). auto.
  - destruct (IH _ Ht (Hall _ Ht) Hq Hn) as (p0 & Hp0 & Hin).
    exists p0. split; [exact Hp0|]. simpl. apply elem_of_cons. right.
    apply list_elem_of_bind. eauto.
Qed.
End trees.


Section free_loop_facts.
Variable node : ptr.
Implicit Types (h : heap) (t : ptree) (cs : list ptree) (p q : ptr)
  (freed : list ptr).

Lemma load_live h freed q n : q ∉ freed -> h !! q = Some n -> load h freed q = Some n.
Proof. intros Hq Hn. unfold load. rewrite decide_False by exact Hq. exact Hn. Qed.

Lemma free_forest p cs :
  Forall (frees_subtree node) cs -> cs <> [] ->
  forall h freed,
    Forall (shape h) cs -> NoDup (cs ≫= ptrs) -> node ∉ cs ≫= ptrs ->
    (forall q, q ∈ cs ≫= ptrs -> q ∉ freed) ->
    chain h p (root_of <$> cs) ->
    exists h' k, k <= 2 * length (cs ≫= ptrs) /\
      (forall q, q ∉ cs ≫= ptrs -> h' !! q = h !! q) /\
      forall fuel,
        free_loop (k + fuel) h freed node (head (root_of <$> cs)) =
          free_loop fuel h' (freed ++ (cs ≫= postorder)) node
            (if decide (p = node) then None else Some p).
Proof.
  induction 1 as [|t cs Ht Hcs IH]; intros Hne h freed Hshape Hnd Hnode Hfreed Hchain;
    [congruence|].
  clear Hne. cbn in Hnd, Hnode, Hfreed |- *.
  apply NoDup_app in Hnd as (Hnd1 & Hdisj & Hnd2).
  apply Forall_cons in Hshape as [Hs1 Hs2].
  destruct (Hchain 0 (root_of t) eq_refl) as (m & Em & Hpar & Hnext).
  destruct (Ht h freed m Hs1 Hnd1) as (h1 & k1 & Hk1 & Hout1 & Hrun1).
  { intros Hin. apply Hnode, elem_of_app. auto. }
  { intros q Hq. apply Hfreed, elem_of_app. auto. }
  { exact Em. }
  destruct cs as [|t2 cs2].
  - exists h1, k1. cbn. rewrite !app_nil_r. split; [lia|]. split; [exact Hout1|].
    intros fuel. rewrite Hrun1. unfold next_after. rewrite Hnext, Hpar. cbn.
    destruct (decide (p = node)) as [->|Hp].
    + rewrite decide_True by reflexivity. reflexivity.
    + rewrite decide_False by congruence. reflexivity.
  - destruct (IH ltac:(discriminate) h1 (freed ++ postorder t))
      as (h2 & k2 & Hk2 & Hout2 & Hrun2).
    + rewrite Forall_forall in Hs2 |- *. intros t' Ht'.
      apply (shape_agree h); [apply Hs2, Ht'|].
      intros q Hq. apply Hout1. intros Hq1. apply (Hdisj q Hq1).
      apply list_elem_of_bind. eauto.
    + exact Hnd2.
    + intros Hin. apply Hnode, elem_of_app. auto.
    + intros q Hq [Hin|Hin]%elem_of_app.
      * apply (Hfreed q); [apply elem_of_app; auto|exact Hin].
      * rewrite postorder_perm in Hin. apply (Hdisj q Hin Hq).
    + apply (chain_agree h); [eapply chain_tail; exact Hchain|].
      intros c Hc. apply Hout1. intros Hq1. apply (Hdisj c Hq1).
      apply roots_in_ptrs, Hc.
    + exists h2, (k1 + k2). split; [rewrite length_app; lia|]. split.
      * intros q Hq. apply not_elem_of_app in Hq as [Hq1 Hq2].
        rewrite (Hout2 q Hq2). apply Hout1, Hq1.
      * intros fuel. rewrite <- Nat.add_assoc, Hrun1.
        unfold next_after. rewrite Hnext. cbn [fmap list_fmap lookup list_lookup].
        rewrite app_assoc. apply Hrun2.
Qed.

Lemma free_subtree t : frees_subtree node t.
Proof.
  induction t as [c cs IH] using ptree_ind'.
  intros h freed cn Hs Hnd Hnode Hfreed Hcn. cbn [root_of] in *.
  inversion Hs as [? ? Hc Hall]; subst.
  pose proof Hc as [(n & En & Hfirst & _) _].
  assert (n = cn) as -> by congruence.
  assert (Hclive : c ∉ freed).
  { apply Hfreed. simpl. apply elem_of_cons. auto. }
  cbn [ptrs] in Hnd, Hnode. apply NoDup_cons in Hnd as [Hc_out Hnd].
  destruct cs as [|t1 cs1].
  - exists h, 1. cbn. split; [lia|]. split; [reflexivity|]. intros fuel.
    rewrite (load_live _ _ _ _ Hclive Hcn). cbn [mbind option_bind].
    simpl in Hfirst. rewrite Hfirst. unfold mmd_free.
    rewrite (load_live _ _ _ _ Hclive Hcn). reflexivity.
  - assert (Hne : t1 :: cs1 <> []) by discriminate.
    set (cs := t1 :: cs1) in *.
    assert (Hc_node : c <> node).
    { intros ->. apply Hnode, elem_of_cons. auto. }
    set (h1 := <[c := set_first_child None cn]> h).
    assert (Hh1 : forall q, q <> c -> h1 !! q = h !! q).
    { intros q Hq. unfold h1. apply list_lookup_insert_ne. congruence. }
    assert (Hh1c : h1 !! c = Some (set_first_child None cn)).
    { unfold h1. apply list_lookup_insert_eq. eapply lookup_lt_Some; eauto. }
    destruct (free_forest c cs IH Hne h1 freed)
      as (h2 & k2 & Hk2 & Hout2 & Hrun2).
    + rewrite Forall_forall in Hall |- *. intros t' Ht'.
      apply (shape_agree h); [apply Hall, Ht'|].
      intros q Hq. apply Hh1. intros ->. apply Hc_out.
      apply list_elem_of_bind. eauto.
    + exact Hnd.
    + intros Hin. apply Hnode, elem_of_cons. auto.
    + intros q Hq. apply Hfreed, elem_of_cons. auto.
    + apply (chain_agree h); [apply children_chain, Hc|].
      intros q Hq. apply Hh1. intros ->. apply Hc_out, roots_in_ptrs, Hq.
    + exists h2, (S (k2 + 1)). split; [cbn [ptrs length]; lia|]. split.
      * intros q Hq. cbn [ptrs] in Hq. apply not_elem_of_cons in Hq as [Hq1 Hq2].
        rewrite (Hout2 q Hq2). apply Hh1, Hq1.
      * intros fuel. cbn [Nat.add free_loop].
        rewrite (load_live _ _ _ _ Hclive Hcn). cbn [mbind option_bind].
        rewrite Hfirst. change (head (root_of <$> cs)) with (Some (root_of t1)).
        cbv iota. rewrite (store_Some _ _ _ _ Hcn). cbn [mbind option_bind].
        fold h1. change (Some (root_of t1)) with (head (root_of <$> cs)).
        rewrite <- Nat.add_assoc, Hrun2. rewrite decide_False by exact Hc_node.
        cbn [Nat.add free_loop].
        assert (Hlive2 : c ∉ freed ++ (cs ≫= postorder)).
        { intros [Hin|Hin]%elem_of_app; [contradiction|].
          apply Hc_out. apply list_elem_of_bind in Hin as (t' & Hin & Ht').
          rewrite postorder_perm in Hin. apply list_elem_of_bind. eauto. }
        assert (Hc2 : h2 !! c = Some (set_first_child None cn)).
        { rewrite (Hout2 c Hc_out). exact Hh1c. }
        rewrite (load_live _ _ _ _ Hlive2 Hc2). cbn [mbind option_bind].
        cbn [first_child set_first_child]. unfold mmd_free.
        rewrite (load_live _ _ _ _ Hlive2 Hc2). cbn [mbind option_bind].
        cbn [postorder]. rewrite app_assoc. reflexivity.
Qed.
End free_loop_facts.


Lemma root_not_below (p : ptr) (cs : list ptree) : NoDup (ptrs (PNode p cs)) -> p ∉ cs ≫= ptrs.
Proof. simpl. intros [H _]%NoDup_cons. exact H. Qed.

Lemma shape_allocated (h : heap) (t : ptree) (q : ptr) :
  shape h t -> q ∈ ptrs t -> q < length h.
Proof.
  revert q. induction t as [p cs IH] using ptree_ind'. intros q Hs Hq.
  inversion Hs as [? ? Hc Hall]; subst. simpl in Hq.
  apply elem_of_cons in Hq as [->|Hq].
  - destruct Hc as [(m & Em & _) _]. eapply lookup_lt_Some; eauto.
  - apply list_elem_of_bind in Hq as (t2 & Hq & Ht2).
    rewrite Forall_forall in IH, Hall. eapply IH; eauto.
Qed.

(** The parent and the siblings of the root are not in the tree. *)
Lemma parent_outside (h : heap) (p : ptr) (cs : list ptree) (n : mmd_t) (q : ptr) :
  consistent h -> shape h (PNode p cs) -> NoDup (ptrs (PNode p cs)) ->
  h !! p = Some n -> parent n = Some q -> q ∉ ptrs (PNode p cs).
Proof.
  intros Hcons Hshape Hnd Hn Hp Hq.
  pose proof (consistent_siblings h Hcons _ n Hn) as Hs.
  rewrite Hp in Hs. destruct Hs as (cq & k & Hc & Hk & _).
  apply (root_not_below p cs Hnd).
  apply (shape_children_below h (PNode p cs) q cq p Hshape Hq Hc).
  eapply list_elem_of_lookup_2; exact Hk.
Qed.

Lemma sibling_outside (h : heap) (p : ptr) (cs : list ptree) (n : mmd_t) (s : ptr) :
  consistent h -> shape h (PNode p cs) -> NoDup (ptrs (PNode p cs)) ->
  h !! p = Some n -> prev_sibling n = Some s \/ next_sibling n = Some s ->
  s ∉ ptrs (PNode p cs).
Proof.
  intros Hcons Hshape Hnd Hn Hs Hin.
  pose proof (consistent_siblings h Hcons _ n Hn) as Hsib.
  destruct (parent n) as [q|] eqn:Hp; [|destruct Hsib; destruct Hs; congruence].
  destruct Hsib as (cq & k & Hc & Hk & Hpv & Hnx).
  assert (Hs' : exists k', cq !! k' = Some s /\ k' <> k).
  { destruct Hs as [Hs|Hs].
    - rewrite Hs in Hpv. destruct k as [|k']; [discriminate|].
      exists k'. split; [auto|lia].
    - rewrite Hs in Hnx. exists (S k). split; [auto|lia]. }
  destruct Hs' as (k' & Hk' & Hne).
  assert (Hsne : s <> p).
  { intros ->. apply Hne. eapply children_inj; eauto. }
  destruct (children_member _ _ _ _ _ Hc Hk') as (m & Em & Hpar & _).
  assert (Hbelow : s ∈ cs ≫= ptrs).
  { simpl in Hin. apply elem_of_cons in Hin as [->|Hin]; [congruence|exact Hin]. }
  destruct (shape_parent_inside h (PNode p cs) s m Hshape Hbelow Em)
    as (p0 & Hp0 & Hp0in).
  apply (parent_outside h p cs n q Hcons Hshape Hnd Hn Hp). congruence.
Qed.

(** [mmd_remove] of the root leaves the tree as it is. *)
Lemma remove_keeps_shape (h : heap) (p : ptr) (cs : list ptree) (h1 : heap) :
  consistent h -> shape h (PNode p cs) -> NoDup (ptrs (PNode p cs)) ->
  mmd_remove h p = Some h1 -> shape h1 (PNode p cs).
Proof.
  intros Hcons Hshape Hnd E.
  assert (Hroot : exists n, h !! p = Some n).
  { unfold mmd_remove in E. destruct (h !! p); [eauto|discriminate]. }
  destruct Hroot as [n Hn].
  destruct (parent n) as [par|] eqn:Hp.
  2:{ rewrite (mmd_remove_free h _ n Hn Hp) in E. injection E as <-. auto. }
  pose proof (consistent_siblings h Hcons _ n Hn) as Hsib. rewrite Hp in Hsib.
  destruct Hsib as (cq & k & Hc & Hk & Hpv & Hnx).
  destruct (mmd_remove_links h p n par Hn Hp) as (h1' & E' & Hlen & Hold).
  { destruct Hc as [(pm & Epm & _) _]. eapply lookup_lt_Some; eauto. }
  { intros pv Hpv'. apply (children_allocated _ _ _ _ Hc).
    rewrite Hpv in Hpv'. destruct k as [|k']; [discriminate|].
    eapply list_elem_of_lookup_2; exact Hpv'. }
  { intros nx Hnx'. apply (children_allocated _ _ _ _ Hc).
    rewrite Hnx in Hnx'. eapply list_elem_of_lookup_2; exact Hnx'. }
  assert (h1' = h1) as -> by congruence. clear E'.
  pose proof (root_not_below p cs Hnd) as Hrootout.
  assert (Hsame : forall q, q ∈ cs ≫= ptrs -> h1 !! q = h !! q).
  { intros q Hq.
    assert (Hqt : q ∈ ptrs (PNode p cs)) by (simpl; apply elem_of_cons; auto).
    assert (Hne : q <> p) by (intros ->; contradiction).
    destruct (lookup_lt_is_Some_2 h q (shape_allocated h _ q Hshape Hqt)) as [m Em].
    rewrite (Hold q m Em), Em. f_equal.
    rewrite !(decide_False (P := q = p)) by exact Hne.
    rewrite (decide_False (P := q = par /\ prev_sibling n = None)).
    2:{ intros [-> _]. exact (parent_outside h p cs n par Hcons Hshape Hnd Hn Hp Hqt). }
    rewrite (decide_False (P := q = par /\ next_sibling n = None)).
    2:{ intros [-> _]. exact (parent_outside h p cs n par Hcons Hshape Hnd Hn Hp Hqt). }
    rewrite (decide_False (P := next_sibling n = Some q)).
    2:{ intros Hs. apply (sibling_outside h p cs n q Hcons Hshape Hnd Hn (or_intror Hs) Hqt). }
    rewrite (decide_False (P := prev_sibling n = Some q)).
    2:{ intros Hs. apply (sibling_outside h p cs n q Hcons Hshape Hnd Hn (or_introl Hs) Hqt). }
    destruct m; reflexivity. }
  inversion Hshape as [? ? Hc' Hall]; subst. constructor.
  - destruct Hc' as [(m & Em & Hf & Hl) Hmem]. assert (m = n) as -> by congruence.
    split.
    + eexists. split; [apply Hold, Hn|]. cbn.
      assert (Hpp : p <> par).
      { intros ->. apply (parent_outside h par cs n par Hcons Hshape Hnd Hn Hp).
        simpl. apply elem_of_cons. auto. }
      rewrite !decide_False by (intros [? _]; contradiction). auto.
    + intros k' c Hk'. rewrite Hsame; [apply Hmem, Hk'|].
      apply roots_in_ptrs. eapply list_elem_of_lookup_2; eauto.
  - rewrite Forall_forall in Hall |- *. intros t' Ht'.
    apply (shape_agree h); [apply Hall, Ht'|].
    intros q Hq. apply Hsame, list_elem_of_bind. eauto.
Qed.

Lemma mmdFree_tree (h : heap) (t : ptree) (fuel : nat) :
  consistent h -> shape h t -> NoDup (ptrs t) -> 2 * length (ptrs t) < fuel ->
  exists h1 h2,
    mmd_remove h (root_of t) = Some h1 /\ consistent h1 /\
    mmdFree fuel h (Some (root_of t)) = Some (h2, postorder t) /\
    (forall q, q ∉ ptrs t -> h2 !! q = h1 !! q).
Proof.
  intros Hcons Hshape Hnd Hfuel. destruct t as [p cs]. cbn [root_of].
  assert (Hlt : p < length h).
  { apply (shape_allocated h _ p Hshape). simpl. apply elem_of_cons. auto. }
  destruct (mmd_remove_keeps_consistent h p Hcons Hlt)
    as (h1 & n1 & E1 & Hcons1 & Hn1 & _).
  pose proof (remove_keeps_shape h p cs h1 Hcons Hshape Hnd E1) as Hshape1.
  exists h1. unfold mmdFree. cbn [mbind option_bind]. rewrite E1.
  cbn [mbind option_bind]. rewrite Hn1. cbn [mbind option_bind].
  pose proof (root_not_below p cs Hnd) as Hroot.
  inversion Hshape1 as [? ? Hc1 Hall1]; subst.
  pose proof Hc1 as [(m & Em & Hfirst & _) _]. assert (m = n1) as -> by congruence.
  rewrite Hfirst. simpl in Hnd. apply NoDup_cons in Hnd as [_ Hnd'].
  destruct cs as [|t1 cs1].
  - exists h1. destruct fuel as [|fuel']; [lia|]. cbn.
    unfold mmd_free, load. rewrite decide_False by (apply not_elem_of_nil).
    rewrite Hn1. cbn. auto.
  - assert (Hne : t1 :: cs1 <> []) by discriminate.
    set (cs := t1 :: cs1) in *.
    destruct (free_forest p p cs) with (h := h1) (freed := @nil ptr)
      as (h2 & k & Hk & Hout & Hrun).
    + rewrite Forall_forall. intros t' _. apply free_subtree.
    + exact Hne.
    + exact Hall1.
    + exact Hnd'.
    + exact Hroot.
    + intros q _. apply not_elem_of_nil.
    + apply children_chain, Hc1.
    + exists h2. cbn [ptrs length] in Hfuel.
      replace fuel with (k + S (fuel - k - 1)) by lia.
      rewrite Hrun. rewrite decide_True by reflexivity. cbn [free_loop].
      cbn [mbind option_bind app]. unfold mmd_free.
      rewrite (load_live h2 _ p n1).
      * cbn. split; [auto|]. split; [auto|]. split; [reflexivity|].
        intros q Hq. apply Hout. intros Hin. apply Hq, elem_of_cons. auto.
      * intros Hin. apply list_elem_of_bind in Hin as (t' & Hin & Ht').
        rewrite postorder_perm in Hin. apply Hroot, list_elem_of_bind. eauto.
      * rewrite (Hout p Hroot). exact Hn1.
Qed.


(** X10: [mmdFree] on the root of a tree of a consistent heap whose nodes
    are distinct: it returns, having unlinked the root as [mmd_remove] does,
    and has freed every node of the tree exactly once, the children of a
    node before the node and the root last, without an access to a node it
    had freed; apart from the unlinking it has left the nodes outside the
    tree as they were. *)
Theorem mmdFree_frees_tree (h : heap) (t : ptree) (fuel : nat) :
  consistent h -> shape h t -> NoDup (ptrs t) -> 2 * length (ptrs t) < fuel ->
  exists h1 h2,
    mmd_remove h (root_of t) = Some h1 /\ consistent h1 /\
    mmdFree fuel h (Some (root_of t)) = Some (h2, postorder t) /\
    postorder t ≡ₚ ptrs t /\
    (forall q, q ∉ ptrs t -> h2 !! q = h1 !! q).
Proof.
  intros Hcons Hshape Hnd Hfuel.
  destruct (mmdFree_tree h t fuel Hcons Hshape Hnd Hfuel)
    as (h1 & h2 & E1 & Hcons1 & E2 & Hout).
  exists h1, h2. split; [exact E1|]. split; [exact Hcons1|]. split; [exact E2|].
  split; [apply postorder_perm|exact Hout].
Qed.

Lemma metadata_heap_children :
  children metadata_heap 0 [1] /\ children metadata_heap 1 [2; 3] /\
  children metadata_heap 2 [] /\ children metadata_heap 3 [].
Proof.
  rewrite metadata_heap_nodes. split; [|split; [|split]]; solve_children.
Qed.

Lemma metadata_heap_consistent : consistent metadata_heap.
Proof.
  destruct metadata_heap_children as (H0 & H1 & H2 & H3).
  assert (Hin : forall (x : ptr) l, x ∈ x :: l) by (intros; apply elem_of_cons; auto).
  intros p n Hp. rewrite metadata_heap_nodes in Hp.
  destruct p as [|[|[|[|p]]]]; simpl in Hp; simplify_eq; cbn [parent]; split.
  - exists [1]. exact H0.
  - split; reflexivity.
  - exists [2; 3]. exact H1.
  - exists [1]. split; [exact H0|apply Hin].
  - exists []. exact H2.
  - exists [2; 3]. split; [exact H1|apply Hin].
  - exists []. exact H3.
  - exists [2; 3]. split; [exact H1|]. apply elem_of_cons. right. apply Hin.
Qed.

Lemma mmdFree_frees_tree_witness :
  exists h2, mmdFree 9 metadata_heap (Some 0) = Some (h2, [2; 3; 1; 0]).
Proof.
  destruct metadata_heap_children as (H0 & H1 & H2 & H3).
  destruct (mmdFree_frees_tree metadata_heap
              (PNode 0 [PNode 1 [PNode 2 []; PNode 3 []]]) 9
              metadata_heap_consistent)
    as (h1 & h2 & _ & _ & E & _).
  - repeat first [assumption | apply Forall_nil_2 | apply Forall_cons_2
                  | apply shape_node].
  - apply (bool_decide_unpack _). vm_compute. exact I.
  - simpl. lia.
  - exists h2. exact E.
Defined.


(** ** The loader changes the nodes by [mmd_add] and by stores of URLs and types *)

Section growth.
Implicit Types (h : heap) (m : mem) (p q : ptr).

Lemma grows_trans h1 h2 h3 : grows h1 h2 -> grows h2 h3 -> grows h1 h3.
Proof.
  induction 1 as [|h1 h2 h2' Hstep _ IH]; [auto|].
  intros H. eapply grows_step; [exact Hstep|]. apply IH, H.
Qed.

Lemma grows_once h h' : heap_step h h' -> grows h h'.
Proof. intros H. eapply grows_step; [exact H|apply grows_refl]. Qed.

Lemma cont_valid h p : cont h p -> p < length h.
Proof. intros (n & E & _). eapply lookup_lt_Some; eauto. Qed.

Lemma mmd_add_new h par ty ws tx ur h' t :
  mmd_add true h par ty ws tx ur = Some (h', t) -> t = Some (length h).
Proof.
  unfold mmd_add. intros H.
  repeat match type of H with
    | (?x ≫= _) = Some _ => destruct x; cbn [mbind option_bind] in H; [|discriminate H]
    end.
  congruence.
Qed.

(** A change keeps the nodes there are, with their types but for a
    paragraph, which may get another container type. *)
Lemma heap_step_type h h' p n :
  heap_step h h' -> h !! p = Some n ->
  exists n', h' !! p = Some n' /\
    (type n' = type n \/
     (type n = MMD_TYPE_PARAGRAPH /\ is_container (type n') = true)).
Proof.
  intros Hstep Hp.
  destruct Hstep as [h par ty ws tx ur h' t Hc Htx E|h q u h' E|h q n0 ty h' Hq Hty Hct E].
  - pose proof (mmd_add_types _ _ _ _ _ _ _ _ E) as Ht.
    assert (Hl : (type <$> h') !! p = Some (type n)).
    { rewrite Ht. apply lookup_app_l_Some. rewrite list_lookup_fmap, Hp. reflexivity. }
    rewrite list_lookup_fmap in Hl. destruct (h' !! p) as [n'|] eqn:En'; [|discriminate].
    injection Hl as Hl. eauto.
  - rewrite (store_lookup _ _ _ _ p E), Hp. destruct (decide (p = q)); cbn; eauto.
  - rewrite (store_lookup _ _ _ _ p E), Hp. destruct (decide (p = q)) as [->|]; cbn.
    + eexists. split; [reflexivity|]. right.
      assert (n0 = n) as -> by congruence. auto.
    + eauto.
Qed.

Lemma cont_step h h' p : heap_step h h' -> cont h p -> cont h' p.
Proof.
  intros Hstep (n & Hp & Hc).
  destruct (heap_step_type _ _ _ _ Hstep Hp) as (n' & Hn' & [Ht|[_ Ht]]);
    exists n'; (split; [exact Hn'|]); congruence.
Qed.

Lemma cont_grows h h' p : grows h h' -> cont h p -> cont h' p.
Proof. induction 1; eauto using cont_step. Qed.

Lemma heap_step_length h h' : heap_step h h' -> length h <= length h'.
Proof.
  intros [h0 par ty ws tx ur h1 t Hc Htx E|h0 q u h1 E|h0 q n0 ty h1 Hq Hty Hct E].
  - pose proof (mmd_add_types _ _ _ _ _ _ _ _ E) as Ht.
    apply (f_equal length) in Ht. rewrite length_app, !length_fmap in Ht. simpl in Ht. lia.
  - rewrite (store_length _ _ _ _ E). lia.
  - rewrite (store_length _ _ _ _ E). lia.
Qed.

Lemma grows_length h h' : grows h h' -> length h <= length h'.
Proof.
  induction 1 as [|h1 h2 h3 Hs _ IH]; [lia|].
  apply heap_step_length in Hs. lia.
Qed.

(** *** The heap of a document stays one *)

Lemma children_store (f : mmd_t -> mmd_t) p h h' q (cs : list ptr) :
  (forall n, parent (f n) = parent n /\ first_child (f n) = first_child n /\
             last_child (f n) = last_child n /\
             prev_sibling (f n) = prev_sibling n /\
             next_sibling (f n) = next_sibling n) ->
  store f p h = Some h' -> children h q cs -> children h' q cs.
Proof.
  intros Hf E [(n & En & Hfirst & Hlast) Hmem]. split.
  - rewrite (store_lookup _ _ _ _ q E), En.
    destruct (Hf n) as (_ & Hf1 & Hf2 & _).
    destruct (decide (q = p)); cbn; eexists; (split; [reflexivity|]);
      rewrite ?Hf1, ?Hf2; auto.
  - intros k c Hk. destruct (Hmem k c Hk) as (m & Em & Hp & Hpv & Hnx).
    rewrite (store_lookup _ _ _ _ c E), Em.
    destruct (Hf m) as (Hf1 & _ & _ & Hf2 & Hf3).
    destruct (decide (c = p)); cbn; eexists; (split; [reflexivity|]);
      rewrite ?Hf1, ?Hf2, ?Hf3; auto.
Qed.

Lemma consistent_store (f : mmd_t -> mmd_t) p h h' :
  (forall n, parent (f n) = parent n /\ first_child (f n) = first_child n /\
             last_child (f n) = last_child n /\
             prev_sibling (f n) = prev_sibling n /\
             next_sibling (f n) = next_sibling n) ->
  store f p h = Some h' -> consistent h -> consistent h'.
Proof.
  intros Hf E Hcons q n' Hq.
  rewrite (store_lookup _ _ _ _ q E) in Hq.
  assert (Hn : exists n, h !! q = Some n /\ parent n' = parent n /\
                 prev_sibling n' = prev_sibling n /\ next_sibling n' = next_sibling n).
  { destruct (h !! q) as [n|] eqn:En; [|destruct (decide (q = p)); discriminate].
    exists n. split; [reflexivity|].
    destruct (decide (q = p)); cbn in Hq; injection Hq as <-; [|auto].
    destruct (Hf n) as (-> & _ & _ & -> & ->). auto. }
  destruct Hn as (n & En & -> & -> & ->).
  destruct (Hcons q n En) as [[cs Hc] Hpar]. split.
  - exists cs. eapply children_store; eauto.
  - destruct (parent n); [|exact Hpar].
    destruct Hpar as (cq & Hcq & Hin). exists cq. split; [|exact Hin].
    eapply children_store; eauto.
Qed.

Lemma tree_heap_step h h' : heap_step h h' -> tree_heap h -> tree_heap h'.
Proof.
  intros Hstep (Hcons & (rn & Hr & Hrty & Hrpar) & Hord & Hj).
  destruct Hstep as [h par ty ws tx ur h' t (pn & Hpar & Hpc) Htx E
                    |h q u h' E|h q n0 ty h' Hq Hty Hct E].
  - destruct (Hcons par pn Hpar) as [[csp Hcp] _].
    destruct (mmd_add_child h par pn ty ws tx ur Hpar) as (h1 & E1 & Hlen & Hnew & Hold).
    { intros l Hl. apply (children_allocated _ _ _ _ Hcp).
      destruct Hcp as [(n & En & _ & Hlast) _].
      assert (n = pn) as -> by congruence.
      apply last_Some_elem_of. congruence. }
    assert (h1 = h') as -> by congruence.
    pose proof (lookup_lt_Some _ _ _ Hpar) as Hparlt.
    split; [|split; [|split]].
    + apply (add_consistent h h' par pn ty ws tx ur Hpar Hnew Hold Hcons Hlen).
    + eexists. split; [apply Hold, Hr|]. cbn. auto.
    + intros q n Hq Hq0. destruct (decide (q < length h)) as [Hlt|Hge].
      * destruct (lookup_lt_is_Some_2 h q Hlt) as [n0 En0].
        rewrite (Hold q n0 En0) in Hq. injection Hq as <-. cbn.
        apply (Hord q n0 En0 Hq0).
      * assert (q = length h) as ->.
        { apply lookup_lt_Some in Hq. lia. }
        rewrite Hnew in Hq. injection Hq as <-. cbn. eauto.
    + intros q n Hq. destruct (decide (q < length h)) as [Hlt|Hge].
      * destruct (lookup_lt_is_Some_2 h q Hlt) as [n0 En0].
        rewrite (Hold q n0 En0) in Hq. injection Hq as <-. cbn.
        destruct (Hj q n0 En0) as [Hfc Htxt]. split; [|exact Htxt].
        destruct (decide (q = par)) as [->|]; [|exact Hfc].
        intros _. congruence.
      * assert (q = length h) as ->.
        { apply lookup_lt_Some in Hq. lia. }
        rewrite Hnew in Hq. injection Hq as <-. cbn. split; [congruence|exact Htx].
  - assert (Hsame : forall x n', h' !! x = Some n' ->
              exists n, h !! x = Some n /\ type n' = type n /\ text n' = text n /\
                parent n' = parent n /\ first_child n' = first_child n).
    { intros x n' Hx. rewrite (store_lookup _ _ _ _ x E) in Hx.
      destruct (h !! x) as [n|] eqn:En; [|destruct (decide (x = q)); discriminate].
      exists n. split; [reflexivity|].
      destruct (decide (x = q)); cbn in Hx; injection Hx as <-; auto. }
    split; [|split; [|split]].
    + eapply consistent_store; [|exact E|exact Hcons]. intros n. cbn. auto.
    + rewrite (store_lookup _ _ _ _ 0 E), Hr.
      destruct (decide (0 = q)); cbn; eexists; (split; [reflexivity|]); auto.
    + intros x n' Hx Hx0. destruct (Hsame x n' Hx) as (n & En & _ & _ & -> & _).
      eauto.
    + intros x n' Hx. destruct (Hsame x n' Hx) as (n & En & -> & -> & _ & ->).
      eauto.
  - assert (Hsame : forall x n', h' !! x = Some n' ->
              exists n, h !! x = Some n /\ text n' = text n /\
                parent n' = parent n /\ first_child n' = first_child n /\
                (type n' = type n \/
                 (x = q /\ type n = MMD_TYPE_PARAGRAPH /\ type n' = ty))).
    { intros x n' Hx. rewrite (store_lookup _ _ _ _ x E) in Hx.
      destruct (h !! x) as [n|] eqn:En; [|destruct (decide (x = q)); discriminate].
      exists n. split; [reflexivity|].
      destruct (decide (x = q)) as [->|]; cbn in Hx; injection Hx as <-; cbn.
      - assert (n0 = n) as -> by congruence. auto 10.
      - auto. }
    split; [|split; [|split]].
    + eapply consistent_store; [|exact E|exact Hcons]. intros n. cbn. auto.
    + destruct (lookup_lt_is_Some_2 h' 0) as [n' Hn'].
      { rewrite (store_length _ _ _ _ E). eapply lookup_lt_Some; eauto. }
      destruct (Hsame 0 n' Hn') as (n & En & _ & Hp & _ & Ht).
      assert (n = rn) as -> by congruence.
      exists n'. split; [exact Hn'|]. split; [|congruence].
      destruct Ht as [Ht|(_ & Ht & _)]; congruence.
    + intros x n' Hx Hx0. destruct (Hsame x n' Hx) as (n & En & _ & -> & _).
      eauto.
    + intros x n' Hx. destruct (Hsame x n' Hx) as (n & En & -> & _ & -> & Ht).
      destruct (Hj x n En) as [Hfc Htxt].
      destruct Ht as [->|(_ & Hpty & ->)]; [auto|].
      split; [auto|]. intros Hne. specialize (Htxt Hne). rewrite Hpty in Htxt.
      discriminate.
Qed.

Lemma tree_heap_grows h h' : grows h h' -> tree_heap h -> tree_heap h'.
Proof. induction 1; eauto using tree_heap_step. Qed.

Lemma tree_heap_start :
  tree_heap [mk_mmd MMD_TYPE_DOCUMENT false None None None None None None None].
Proof.
  split; [|split; [|split]].
  - apply (consistent_extend [] _ consistent_nil); reflexivity.
  - eexists. split; [reflexivity|]. auto.
  - intros [|q] n Hq Hq0; [congruence|]. discriminate.
  - intros [|q] n Hq; [|discriminate]. injection Hq as <-. cbn.
    split; [congruence|]. congruence.
Qed.
End growth.


Ltac inv_step :=
  match goal with
  | H : None = Some _ |- _ => discriminate H
  | H : Some _ = None |- _ => discriminate H
  | H : true = false |- _ => discriminate H
  | H : false = true |- _ => discriminate H
  | H : Some _ = Some _ |- _ => injection H as H; try subst
  | H : (_, _) = (_, _) |- _ => injection H as H; try subst
  | H : (?x ≫= _) = Some _ |- _ =>
      let E := fresh "E" in
      destruct x eqn:E; cbn [mbind option_bind] in H; [|discriminate H]
  | H : (_ <$> ?x) = Some _ |- _ =>
      let E := fresh "E" in
      destruct x eqn:E; cbn [fmap option_fmap option_map] in H; [|discriminate H]
  | H : (let '(_, _) := ?p in _) = Some _ |- _ => destruct p
  | H : (if ?c then _ else _) = Some _ |- _ => destruct c eqn:?
  | H : (match ?x with _ => _ end) = Some _ |- _ => destruct x eqn:?
  | H : (let '(_, _) := ?p in _) = (_, _) |- _ => destruct p
  | H : (if ?c then _ else _) = (_, _) |- _ => destruct c eqn:?
  end.

Lemma add_step (m : mem) (par : ptr) (ty : mmd_type_t) (ws : bool)
    (tx ur : option string) (m' : mem) (b : ptr) :
  cont (nodes m) par -> (tx <> None -> is_container ty = false) ->
  add m par ty ws tx ur = Some (m', b) ->
  grows (nodes m) (nodes m') /\ root (doc m') = root (doc m) /\
  (is_container ty = true -> cont (nodes m') b).
Proof.
  unfold add. intros Hc Htx H.
  destruct (mmd_add _ _ _ _ _ _ _) as [[h' t]|] eqn:E; simpl in H; [|discriminate].
  pose proof (mmd_add_new _ _ _ _ _ _ _ _ E) as ->. simpl in H.
  injection H as <- <-. split; [|split; [reflexivity|]].
  - apply grows_once. econstructor; eauto.
  - intros Hty. simpl. pose proof (mmd_add_types _ _ _ _ _ _ _ _ E) as Ht.
    assert (Hl : (type <$> h') !! length (nodes m) = Some ty).
    { rewrite Ht, lookup_app_r by (rewrite length_fmap; lia).
      rewrite length_fmap, Nat.sub_diag. reflexivity. }
    rewrite list_lookup_fmap in Hl.
    destruct (h' !! length (nodes m)) as [n|] eqn:En; [|discriminate].
    injection Hl as Hl. exists n. split; [exact En|]. congruence.
Qed.

Lemma set_urls_grows (h : heap) (ps : list ptr) (u : string) (h' : heap) :
  set_urls h ps u = Some h' -> grows h h'.
Proof.
  revert h. induction ps as [|p ps IH]; intros h H; simpl in H.
  - injection H as <-. apply grows_refl.
  - destruct (store _ p h) as [h1|] eqn:E; simpl in H; [|discriminate].
    eapply grows_step; [eapply step_url; exact E|]. apply IH, H.
Qed.

Lemma mmd_ref_add_grows (h : heap) (refs : list _mmd_ref_t) (node : option ptr)
    (nm : string) (u : option string) (h' : heap) (refs' : list _mmd_ref_t) :
  mmd_ref_add h refs node nm u = Some (h', refs') -> grows h h'.
Proof.
  assert (Hattach : forall refs0 j, ref_attach h refs0 j node = Some (h', refs') ->
            grows h h').
  { unfold ref_attach. intros refs0 j H. destruct node as [nd|].
    2:{ injection H as <- _. apply grows_refl. }
    destruct (refs0 !! j) as [r|]; simpl in H; [|discriminate].
    destruct (ref_url r).
    - destruct (store _ nd h) as [h1|] eqn:E; simpl in H; [|discriminate].
      injection H as <- <-. apply grows_once. eapply step_url; exact E.
    - injection H as <- _. apply grows_refl. }
  unfold mmd_ref_add. intros H.
  destruct (mmd_ref_find refs nm) as [i|]; [|eauto].
  destruct (refs !! i) as [r|]; simpl in H; [|discriminate].
  destruct (ref_url r); [eauto|]. destruct u as [u|]; [|eauto].
  destruct (match node with Some nd => _ | None => _ end) as [h1|] eqn:E1;
    simpl in H; [|discriminate].
  destruct (set_urls h1 _ _) as [h2|] eqn:E2; simpl in H; [|discriminate].
  injection H as <- <-. apply (grows_trans _ h1); [|eapply set_urls_grows; eauto].
  destruct node as [nd|].
  - apply grows_once. eapply step_url; exact E1.
  - injection E1 as <-. apply grows_refl.
Qed.

Lemma ref_add_step (m : mem) (node : option ptr) (nm : string) (u : option string)
    (m' : mem) :
  ref_add m node nm u = Some m' ->
  grows (nodes m) (nodes m') /\ root (doc m') = root (doc m).
Proof.
  unfold ref_add. intros H.
  destruct (mmd_ref_add _ _ _ _ _) as [[h' refs']|] eqn:E; simpl in H; [|discriminate].
  injection H as <-. simpl. split; [|auto]. eapply mmd_ref_add_grows; eauto.
Qed.

Lemma mmd_parse_link_step (m : mem) (p : nat) (m' : mem) (q : nat)
    (t u r : option nat) :
  mmd_parse_link m p = Some (m', q, t, u, r) ->
  grows (nodes m) (nodes m') /\ root (doc m') = root (doc m).
Proof.
  unfold mmd_parse_link. generalize (S (length (line m))). intros fuel H.
  cbv zeta in H.
  destruct (link_scan _ _ _ _ _) as [[[buf q0] early]|]; simpl in H; [|discriminate].
  destruct early; [injection H as <- _ _ _ _; split; [apply grows_refl|reflexivity]|].
  destruct (is_nul _); [injection H as <- _ _ _ _; split; [apply grows_refl|reflexivity]|].
  destruct (Ascii.eqb _ "(").
  { destruct (link_scan _ _ _ _ _) as [[[buf1 q1] early1]|]; simpl in H; [|discriminate].
    destruct early1; injection H as <- _ _ _ _; split;
      first [apply grows_refl|reflexivity]. }
  destruct (Ascii.eqb _ "[").
  { destruct (link_scan _ _ _ _ _) as [[[buf1 q1] early1]|]; simpl in H; [|discriminate].
    destruct early1; injection H as <- _ _ _ _; split;
      first [apply grows_refl|reflexivity]. }
  destruct (Ascii.eqb _ ":").
  - destruct (ref_add _ _ _ _) as [m1|] eqn:E; simpl in H; [|discriminate].
    injection H as <- _ _ _ _. apply ref_add_step in E. exact E.
  - injection H as <- _ _ _ _. split; [apply grows_refl|reflexivity].
Qed.

Create HintDb grow.
#[local] Hint Resolve cont_grows grows_refl : grow.

Ltac norm :=
  cbn [nodes doc line root references i_mem i_lineptr i_text i_type i_whitespace
       l_mem l_fp l_current l_block l_blank_code l_columns l_num_columns l_rows
       with_nodes with_line with_references set_mem set_current set_block
       set_blank_code set_fp the_root fst snd] in *.

Ltac solve_cont := norm; solve [eauto 12 with grow].

Ltac solve_leaf :=
  norm;
  solve [ intros _; reflexivity
        | intros _; assumption
        | intros ?; congruence
        | assumption
        | reflexivity ].

Ltac split_facts H :=
  repeat match type of H with
    | _ /\ _ => let H' := fresh "F" in destruct H as [H' H]
    end.

Ltac base_fact :=
  match goal with
  | H : add (match ?c with _ => _ end) _ _ _ _ _ = Some _ |- _ => destruct c; norm
  | H : add ?m ?par ?ty ?ws ?tx ?ur = Some _ |- _ =>
      apply add_step in H; [split_facts H|solve_cont|solve_leaf]
  | H : ref_add _ _ _ _ = Some _ |- _ => apply ref_add_step in H; split_facts H
  | H : mmd_parse_link _ _ = Some _ |- _ => apply mmd_parse_link_step in H; split_facts H
  end.

Ltac grows_chain :=
  norm;
  repeat match goal with
    | H : grows ?a _ |- _ =>
        match a with context [match ?c with _ => _ end] => destruct c; norm end
    | H : grows _ ?b |- _ =>
        match b with context [match ?c with _ => _ end] => destruct c; norm end
    | |- grows ?a _ =>
        match a with context [match ?c with _ => _ end] => destruct c; norm end
    | |- grows _ ?b =>
        match b with context [match ?c with _ => _ end] => destruct c; norm end
    end;
  repeat first [apply grows_refl | eassumption | (eapply grows_trans; [eassumption|])].

Ltac root_chain :=
  norm;
  repeat match goal with
    | H : root (doc ?a) = _ |- _ =>
        match a with context [match ?c with _ => _ end] => destruct c; norm end
    | H : _ = root (doc ?a) |- _ =>
        match a with context [match ?c with _ => _ end] => destruct c; norm end
    | |- context [root (doc ?a)] =>
        match a with context [match ?c with _ => _ end] => destruct c; norm end
    end;
  congruence.

Section inline_growth.
Implicit Types (h : heap) (m : mem) (s : inline_state).

Lemma flush_text_ok cut reset par s s' :
  cont (nodes (i_mem s)) par -> is_container (i_type s) = false ->
  flush_text cut reset par s = Some s' ->
  grows (nodes (i_mem s)) (nodes (i_mem s')) /\
  root (doc (i_mem s')) = root (doc (i_mem s)) /\ i_type s' = i_type s.
Proof.
  unfold flush_text. intros Hc Hty H.
  repeat inv_step; repeat base_fact; subst; (split; [grows_chain|split; [root_chain|reflexivity]]).
Qed.

Lemma inline_space_ok par s s' :
  cont (nodes (i_mem s)) par -> is_container (i_type s) = false ->
  inline_space par s = Some s' ->
  grows (nodes (i_mem s)) (nodes (i_mem s')) /\
  root (doc (i_mem s')) = root (doc (i_mem s)) /\ i_type s' = i_type s.
Proof.
  unfold inline_space. intros Hc Hty H. cbv zeta in H.
  repeat inv_step; repeat base_fact; subst;
    (split; [grows_chain|split; [root_chain|reflexivity]]).
Qed.

Lemma after_link_state m lineptr ty s' r :
  after_link m lineptr ty = (s', r) -> i_mem s' = m /\ i_type s' = ty.
Proof. unfold after_link. destruct (is_nul _); intros [= <- <-]; auto. Qed.
End inline_growth.

Ltac inline_fact :=
  match goal with
  | H : flush_text _ _ _ _ = Some _ |- _ =>
      apply flush_text_ok in H; [split_facts H|solve_cont|solve_leaf]
  | H : inline_space _ _ = Some _ |- _ =>
      apply inline_space_ok in H; [split_facts H|solve_cont|solve_leaf]
  | H : after_link _ _ _ = _ |- _ => apply after_link_state in H; split_facts H
  end.

Ltac inline_goal :=
  subst; norm;
  split; [grows_chain|split; [root_chain|norm; first [reflexivity|congruence]]].

Section inline_growth_branches.
Implicit Types (h : heap) (m : mem) (s : inline_state).

Lemma inline_image_ok par s s' r :
  cont (nodes (i_mem s)) par -> is_container (i_type s) = false ->
  inline_image par s = Some (s', r) ->
  grows (nodes (i_mem s)) (nodes (i_mem s')) /\
  root (doc (i_mem s')) = root (doc (i_mem s)) /\ is_container (i_type s') = false.
Proof.
  unfold inline_image. intros Hc Hty H.
  repeat inv_step; repeat first [inline_fact|base_fact]; inline_goal.
Qed.

Lemma inline_link_ok par s s' r :
  cont (nodes (i_mem s)) par -> is_container (i_type s) = false ->
  inline_link par s = Some (s', r) ->
  grows (nodes (i_mem s)) (nodes (i_mem s')) /\
  root (doc (i_mem s')) = root (doc (i_mem s)) /\ is_container (i_type s') = false.
Proof.
  unfold inline_link. intros Hc Hty H. cbv zeta in H.
  repeat inv_step; repeat first [inline_fact|base_fact]; inline_goal.
Qed.

Lemma inline_autolink_ok par close s s' :
  cont (nodes (i_mem s)) par -> is_container (i_type s) = false ->
  inline_autolink par close s = Some s' ->
  grows (nodes (i_mem s)) (nodes (i_mem s')) /\
  root (doc (i_mem s')) = root (doc (i_mem s)) /\ is_container (i_type s') = false.
Proof.
  unfold inline_autolink. intros Hc Hty H. cbv zeta in H.
  repeat inv_step; repeat first [inline_fact|base_fact]; inline_goal.
Qed.

Lemma inline_emphasis_ok par s s' :
  cont (nodes (i_mem s)) par -> is_container (i_type s) = false ->
  inline_emphasis par s = Some s' ->
  grows (nodes (i_mem s)) (nodes (i_mem s')) /\
  root (doc (i_mem s')) = root (doc (i_mem s)) /\ is_container (i_type s') = false.
Proof.
  unfold inline_emphasis. intros Hc Hty H. cbv zeta in H.
  repeat inv_step; repeat first [inline_fact|base_fact]; inline_goal.
Qed.

Lemma inline_strike_ok par s s' :
  cont (nodes (i_mem s)) par -> is_container (i_type s) = false ->
  inline_strike par s = Some s' ->
  grows (nodes (i_mem s)) (nodes (i_mem s')) /\
  root (doc (i_mem s')) = root (doc (i_mem s)) /\ is_container (i_type s') = false.
Proof.
  unfold inline_strike. intros Hc Hty H.
  repeat inv_step; repeat first [inline_fact|base_fact]; inline_goal.
Qed.

Lemma inline_code_ok par s s' :
  cont (nodes (i_mem s)) par -> is_container (i_type s) = false ->
  inline_code par s = Some s' ->
  grows (nodes (i_mem s)) (nodes (i_mem s')) /\
  root (doc (i_mem s')) = root (doc (i_mem s)) /\ is_container (i_type s') = false.
Proof.
  unfold inline_code. intros Hc Hty H. cbv zeta in H.
  repeat inv_step; repeat first [inline_fact|base_fact]; inline_goal.
Qed.
End inline_growth_branches.


Section inline_growth_loop.
Implicit Types (h : heap) (m : mem) (s : inline_state).

Lemma inline_step_ok par s s' r :
  cont (nodes (i_mem s)) par -> is_container (i_type s) = false ->
  inline_step par s = Some (s', r) ->
  grows (nodes (i_mem s)) (nodes (i_mem s')) /\
  root (doc (i_mem s')) = root (doc (i_mem s)) /\ is_container (i_type s') = false.
Proof.
  unfold inline_step. intros Hc Hty H. cbv zeta in H.
  repeat inv_step;
    repeat match goal with
      | H : inline_space _ _ = Some _ |- _ =>
          apply inline_space_ok in H; [split_facts H|solve_cont|solve_leaf]
      | H : inline_image _ _ = Some _ |- _ =>
          apply inline_image_ok in H; [split_facts H|solve_cont|solve_leaf]
      | H : inline_link _ _ = Some _ |- _ =>
          apply inline_link_ok in H; [split_facts H|solve_cont|solve_leaf]
      | H : inline_autolink _ _ _ = Some _ |- _ =>
          apply inline_autolink_ok in H; [split_facts H|solve_cont|solve_leaf]
      | H : inline_emphasis _ _ = Some _ |- _ =>
          apply inline_emphasis_ok in H; [split_facts H|solve_cont|solve_leaf]
      | H : inline_strike _ _ = Some _ |- _ =>
          apply inline_strike_ok in H; [split_facts H|solve_cont|solve_leaf]
      | H : inline_code _ _ = Some _ |- _ =>
          apply inline_code_ok in H; [split_facts H|solve_cont|solve_leaf]
      end; inline_goal.
Qed.

Lemma inline_loop_ok fuel par s m' :
  cont (nodes (i_mem s)) par -> is_container (i_type s) = false ->
  inline_loop fuel par s = Some m' ->
  grows (nodes (i_mem s)) (nodes m') /\ root (doc m') = root (doc (i_mem s)).
Proof.
  revert s. induction fuel as [|fuel IH]; intros s Hc Hty H; [discriminate|].
  cbn [inline_loop] in H.
  destruct (is_nul (char_at s 0)).
  - repeat inv_step; repeat base_fact; subst; (split; [grows_chain|root_chain]).
  - destruct (inline_step par s) as [[s1 r]|] eqn:E; cbn [mbind option_bind] in H;
      [|discriminate].
    apply inline_step_ok in E as (Hg & Hr & Hty1); [|assumption..].
    destruct r.
    + injection H as <-. auto.
    + apply IH in H as (Hg2 & Hr2); norm; eauto with grow.
      split; [eapply grows_trans; eauto|congruence].
Qed.

Lemma mmd_parse_inline_ok m par line_ m' :
  cont (nodes m) par -> mmd_parse_inline m par line_ = Some m' ->
  grows (nodes m) (nodes m') /\ root (doc m') = root (doc m).
Proof.
  unfold mmd_parse_inline. intros Hc H.
  destruct (nodes m !! par); cbn [mbind option_bind] in H; [|discriminate].
  apply inline_loop_ok in H; [exact H|exact Hc|reflexivity].
Qed.
End inline_growth_loop.

(** *** The loop over the lines *)

Lemma root_cont (h : heap) : tree_heap h -> cont h 0.
Proof.
  intros (_ & (n & Hn & Hty & _) & _). exists n. split; [exact Hn|].
  rewrite Hty. reflexivity.
Qed.

Lemma parent_cont (h : heap) (x : ptr) (n : mmd_t) (p : ptr) :
  tree_heap h -> h !! x = Some n -> parent n = Some p -> cont h p.
Proof.
  intros (Hcons & _ & _ & Hj) Hx Hp.
  destruct (Hcons x n Hx) as [_ Hpar]. rewrite Hp in Hpar.
  destruct Hpar as (cs & [(pn & Epn & Hfirst & _) _] & Hin).
  exists pn. split; [exact Epn|]. apply (Hj p pn Epn). rewrite Hfirst.
  destruct cs; [inversion Hin|discriminate].
Qed.

Lemma parent_of_cont (m : mem) (x p : ptr) :
  tree_heap (nodes m) -> parent_of m x = Some p -> cont (nodes m) p.
Proof.
  unfold parent_of. intros Ht H.
  destruct (nodes m !! x) as [n|] eqn:E; cbn in H; [|discriminate].
  eapply parent_cont; eauto.
Qed.

Lemma type_of_cont (m : mem) (x : ptr) (t : mmd_type_t) :
  type_of m x = Some t -> is_container t = true -> cont (nodes m) x.
Proof.
  unfold type_of. intros H Ht.
  destruct (nodes m !! x) as [n|] eqn:E; cbn in H; [|discriminate].
  injection H as <-. exists n. auto.
Qed.

Lemma is_type_true (t u : mmd_type_t) : is_type t u = true -> t = u.
Proof. unfold is_type. intros H. apply bool_decide_eq_true in H. exact H. Qed.

#[local] Hint Extern 1 (is_container _ = true) => reflexivity : grow.
#[local] Hint Extern 2 (is_container _ = true) => assumption : grow.

Ltac solve_tree :=
  norm; first [assumption | (eapply tree_heap_grows; [|eassumption]); grows_chain].

Ltac link_fact :=
  match goal with
  | H : parent_of _ _ = Some _ |- _ => apply parent_of_cont in H; [|solve_tree]
  | H1 : nodes ?m !! ?x = Some ?n, H2 : parent ?n = Some ?p |- _ =>
      lazymatch goal with
      | _ : cont (nodes m) p |- _ => fail
      | _ => assert (cont (nodes m) p) by (eapply parent_cont; [solve_tree|exact H1|exact H2])
      end
  | H1 : type_of ?m ?x = Some ?t, H2 : is_type ?t ?u = true |- _ =>
      apply is_type_true in H2; subst t
  | H1 : type_of ?m ?x = Some ?t |- _ =>
      lazymatch goal with
      | _ : cont (nodes m) x |- _ => fail
      | _ => assert (cont (nodes m) x) by (apply (type_of_cont _ _ _ H1); solve [eauto with grow])
      end
  | H : mmd_parse_inline _ _ _ = Some _ |- _ =>
      apply mmd_parse_inline_ok in H; [split_facts H|solve_cont]
  end.

Lemma column_container (columns : list mmd_type_t) (col : nat) :
  Forall (fun t => is_container t = true) columns ->
  is_container (column columns col) = true.
Proof.
  intros H. unfold column. destruct (columns !! col) as [t|] eqn:E; [|reflexivity].
  exact (proj1 (Forall_lookup _ _) H col t E).
Qed.

Lemma heading_plus_container (k : nat) : is_container (heading_plus k) = true.
Proof. do 6 (destruct k as [|k]; [reflexivity|]). reflexivity. Qed.

Lemma store_type_step (m : mem) (b : ptr) (ty : mmd_type_t) (h' : heap) :
  type_of m b = Some MMD_TYPE_PARAGRAPH -> is_container ty = true ->
  store (set_type ty) b (nodes m) = Some h' -> grows (nodes m) h'.
Proof.
  unfold type_of. intros Ht Hty E.
  destruct (nodes m !! b) as [n|] eqn:En; cbn in Ht; [|discriminate].
  injection Ht as Ht. apply grows_once. eapply step_type; eauto.
Qed.

#[local] Hint Resolve column_container heading_plus_container : grow.
#[local] Hint Extern 3 (is_container (if ?c then _ else _) = true) =>
  destruct c : grow.
#[local] Hint Extern 3 (is_container (default _ ?c) = true) =>
  destruct c; cbn [default from_option] : grow.

Ltac bool_fact :=
  match goal with
  | H : _ && _ = true |- _ => apply andb_true_iff in H; destruct H
  | H : bool_decide _ = true |- _ => apply bool_decide_eq_true in H
  | H : Some _ = Some _ |- _ => injection H as H; try subst
  end.

Ltac block_facts :=
  repeat match goal with
    | Hb : forall b, Some ?n = Some b -> _ |- _ => specialize (Hb n eq_refl)
    | Hb : forall b, None = Some b -> _ |- _ => clear Hb
    end.

Ltac loader_goal :=
  subst; norm; block_facts;
  split;
  [ grows_chain
  | unfold loader_ok; norm;
    split; [root_chain|];
    split; [solve_cont|];
    split;
    [ intros ? Hb_; simplify_eq; solve_cont
    | first [assumption | apply Forall_replicate; reflexivity
            | solve [eauto with grow]
            | solve [repeat first [apply Forall_nil_2
                                  |apply Forall_cons_2; [reflexivity|]]] ] ] ].

Section loader_growth.
Implicit Types (h : heap) (m : mem) (s : loader).

Lemma load_indented_ok s s' :
  tree_heap (nodes (l_mem s)) -> loader_ok s -> load_indented s = Some s' ->
  grows (nodes (l_mem s)) (nodes (l_mem s')) /\ loader_ok s'.
Proof.
  unfold load_indented, loader_ok. intros Htree (Hroot & Hcur & Hblk & Hcol) H.
  pose proof (root_cont _ Htree) as Hr0. unfold the_root in H. rewrite ?Hroot in H.
  repeat inv_step; repeat first [link_fact|base_fact]; loader_goal.
Qed.

Lemma load_fence_ok s s' :
  tree_heap (nodes (l_mem s)) -> loader_ok s -> load_fence s = Some s' ->
  grows (nodes (l_mem s)) (nodes (l_mem s')) /\ loader_ok s'.
Proof.
  unfold load_fence, add_block, loader_ok. intros Htree (Hroot & Hcur & Hblk & Hcol) H.
  pose proof (root_cont _ Htree) as Hr0. unfold the_root in H. rewrite ?Hroot in H.
  repeat inv_step; repeat first [link_fact|base_fact]; loader_goal.
Qed.

Lemma load_metadata_ok fuel m fp block m' fp' :
  cont (nodes m) block -> load_metadata fuel m fp block = Some (m', fp') ->
  grows (nodes m) (nodes m') /\ root (doc m') = root (doc m).
Proof.
  revert m fp. induction fuel as [|fuel IH]; intros m fp Hc H; [discriminate|].
  cbn [load_metadata] in H.
  destruct (fgets sizeof_line fp) as [[chunk fp1]|].
  2:{ injection H as <- _. split; [apply grows_refl|reflexivity]. }
  cbv zeta in H.
  destruct (has_prefix _ 0 "---" || has_prefix _ 0 "...").
  { injection H as <- _. split; [apply grows_refl|reflexivity]. }
  destruct (add _ _ _ _ _ _) as [[m1 b]|] eqn:E; cbn [mbind option_bind] in H;
    [|discriminate].
  repeat base_fact; (apply IH in H as (Hg & Hr); [|solve_cont]);
    (split; [grows_chain|root_chain]).
Qed.

Lemma load_start_ok s f :
  tree_heap (nodes (l_mem s)) -> loader_ok s -> load_start s = Some f ->
  match f with
  | Continue s' => grows (nodes (l_mem s)) (nodes (l_mem s')) /\ loader_ok s'
  | Next s' _ => grows (nodes (l_mem s)) (nodes (l_mem s')) /\ loader_ok s'
  end.
Proof.
  unfold load_start. intros Htree Hok H. cbv zeta in H.
  pose proof Hok as (Hroot & Hcur & Hblk & Hcol).
  pose proof (root_cont _ Htree) as Hr0. unfold the_root in H. rewrite ?Hroot in H.
  repeat inv_step;
    repeat first
      [ match goal with
        | H : load_indented _ = Some _ |- _ =>
            apply load_indented_ok in H; [destruct H|assumption..]
        | H : load_fence _ = Some _ |- _ =>
            apply load_fence_ok in H; [destruct H|assumption..]
        | H : load_metadata _ _ _ _ = Some _ |- _ =>
            apply load_metadata_ok in H; [split_facts H|solve_cont]
        end
      | link_fact | base_fact ];
    first [ solve [split; [first [assumption|apply grows_refl]|assumption]]
          | loader_goal ].
Qed.
End loader_growth.


Ltac easy_goal :=
  solve [split; [first [assumption|apply grows_refl]|assumption]].

Section loader_growth_tables.
Implicit Types (h : heap) (m : mem) (s : loader).

Lemma load_quote_ok s lineptr s' q :
  tree_heap (nodes (l_mem s)) -> loader_ok s -> load_quote s lineptr = Some (s', q) ->
  grows (nodes (l_mem s)) (nodes (l_mem s')) /\ loader_ok s'.
Proof.
  unfold load_quote. intros Htree Hok H. cbv zeta in H.
  pose proof Hok as (Hroot & Hcur & Hblk & Hcol).
  pose proof (root_cont _ Htree) as Hr0. unfold the_root in H. rewrite ?Hroot in H.
  repeat inv_step; repeat first [link_fact|base_fact];
    first [easy_goal|loader_goal].
Qed.

Lemma separator_cell_container buf start columns col :
  Forall (fun t => is_container t = true) columns ->
  Forall (fun t => is_container t = true) (separator_cell buf start columns col).
Proof.
  intros H. unfold separator_cell. cbv zeta.
  destruct (_ && _); [apply Forall_insert; auto|].
  destruct (Ascii.eqb _ _); [apply Forall_insert; auto|exact H].
Qed.

Lemma table_cells_ok fuel m block row columns lineptr col m' columns' col' :
  (forall r, row = Some r -> cont (nodes m) r) ->
  Forall (fun t => is_container t = true) columns ->
  table_cells fuel m block row columns lineptr col = Some (m', columns', col') ->
  grows (nodes m) (nodes m') /\ root (doc m') = root (doc m) /\
  Forall (fun t => is_container t = true) columns'.
Proof.
  revert m columns lineptr col.
  induction fuel as [|fuel IH]; intros m columns lineptr col Hrow Hcol H.
  { injection H as <- <- _. auto using grows_refl. }
  cbn [table_cells] in H.
  destruct lineptr as [p|]; [|injection H as <- <- _; auto using grows_refl].
  destruct (is_nul _); [injection H as <- <- _; auto using grows_refl|].
  cbv zeta in H.
  set (m0 := match strchr (line m) (S p) "|" with
             | Some q => with_line (poke (line m) q NUL) m
             | None => m
             end) in *.
  assert (Hm0 : nodes m0 = nodes m /\ doc m0 = doc m).
  { unfold m0. destruct (strchr _ _ _); auto. }
  destruct Hm0 as [Hn0 Hd0]. destruct block as [b|].
  - destruct (type_of _ b) as [bt|]; cbn [mbind option_bind] in H; [|discriminate].
    destruct row as [r|]; cbn [mbind option_bind] in H; [|discriminate].
    specialize (Hrow r eq_refl).
    destruct (add _ r _ _ _ _) as [[m1 cell]|] eqn:E1; cbn [mbind option_bind] in H;
      [|discriminate].
    destruct (mmd_parse_inline m1 cell p) as [m2|] eqn:E2; cbn [mbind option_bind] in H;
      [|discriminate].
    apply add_step in E1 as (Hg1 & Hr1 & Hcell);
      [|rewrite Hn0; exact Hrow|intros Hne; congruence].
    rewrite Hn0 in Hg1. rewrite Hd0 in Hr1.
    assert (Hc : cont (nodes m1) cell).
    { apply Hcell. destruct (is_type _ _); [reflexivity|apply column_container, Hcol]. }
    apply mmd_parse_inline_ok in E2 as (Hg2 & Hr2); [|exact Hc].
    apply IH in H as (Hg3 & Hr3 & Hcol3).
    + split; [|split; [congruence|exact Hcol3]].
      eapply grows_trans; [exact Hg1|]. eapply grows_trans; eauto.
    + intros r' [= <-]. eapply cont_grows; [|exact Hrow].
      eapply grows_trans; eauto.
    + exact Hcol.
  - apply IH in H as (Hg & Hr & Hcol').
    + rewrite Hn0 in Hg. rewrite Hd0 in Hr. auto.
    + intros r Hr. rewrite Hn0. auto.
    + apply separator_cell_container, Hcol.
Qed.

Lemma pad_row_ok m row columns cols m' :
  cont (nodes m) row -> Forall (fun t => is_container t = true) columns ->
  pad_row m row columns cols = Some m' ->
  grows (nodes m) (nodes m') /\ root (doc m') = root (doc m).
Proof.
  revert m. induction cols as [|c cols IH]; intros m Hrow Hcol H; simpl in H.
  - injection H as <-. auto using grows_refl.
  - destruct (add _ _ _ _ _ _) as [[m1 b]|] eqn:E; cbn [mbind option_bind] in H;
      [|discriminate].
    base_fact. apply IH in H as (Hg & Hr); [|solve_cont|exact Hcol].
    split; [grows_chain|root_chain].
Qed.
End loader_growth_tables.


Section loader_growth_blocks.
Implicit Types (h : heap) (m : mem) (s : loader).

Lemma load_table_open_ok s ct width s1 :
  tree_heap (nodes (l_mem s)) -> loader_ok s ->
  type_of (l_mem s) (l_current s) = Some ct ->
  (if negb (is_type ct MMD_TYPE_TABLE) then
     c ← (if negb (bool_decide (l_current s = the_root s)) &&
             negb (is_type ct MMD_TYPE_BLOCK_QUOTE)
          then parent_of (l_mem s) (l_current s) else Some (l_current s));
     '(m, c) ← add (l_mem s) c MMD_TYPE_TABLE false None None;
     '(m, b) ← add m c MMD_TYPE_TABLE_HEADER false None None;
     Some (mk_loader m (l_fp s) c (Some b) (l_blank_code s)
             (replicate width MMD_TYPE_TABLE_BODY_CELL_LEFT) 0 (-1)%Z)
   else if (0 <? l_rows s)%Z then
     if (l_rows s =? 1)%Z then add_block s (l_current s) MMD_TYPE_TABLE_BODY
     else Some s
   else Some (set_block None s)) = Some s1 ->
  grows (nodes (l_mem s)) (nodes (l_mem s1)) /\ loader_ok s1.
Proof.
  intros Htree Hok Ect E1. unfold add_block in E1.
  pose proof Hok as (Hroot & Hcur & Hblk & Hcol).
  pose proof (root_cont _ Htree) as Hr0. unfold the_root in E1. rewrite ?Hroot in E1.
  repeat inv_step; repeat first [link_fact|base_fact];
    first [easy_goal|loader_goal].
Qed.

Lemma load_table_row_ok s m2 row :
  loader_ok s ->
  match l_block s with
  | Some b =>
      '(m, r) ← add (l_mem s) b MMD_TYPE_TABLE_ROW false None None;
      Some (m, Some r)
  | None => Some (l_mem s, None)
  end = Some (m2, row) ->
  grows (nodes (l_mem s)) (nodes m2) /\ root (doc m2) = 0 /\
  forall r, row = Some r -> cont (nodes m2) r.
Proof.
  intros (Hroot & Hcur & Hblk & Hcol) E2. destruct (l_block s) as [b|].
  - specialize (Hblk b eq_refl).
    destruct (add _ b _ _ _ _) as [[m r]|] eqn:E; cbn [mbind option_bind] in E2;
      [|discriminate].
    injection E2 as <- <-. apply add_step in E as (Hg & Hr & Hc);
      [|exact Hblk|intros Hne; congruence].
    split; [exact Hg|]. split; [congruence|]. intros r' [= <-]. apply Hc. reflexivity.
  - injection E2 as <- <-. split; [apply grows_refl|]. split; [exact Hroot|].
    intros r Hr. discriminate.
Qed.

Lemma load_table_pad_ok (m4 : mem) (block row : option ptr)
    (columns : list mmd_type_t) (col num : nat) m5 num_columns :
  (forall r, row = Some r -> cont (nodes m4) r) ->
  Forall (fun t => is_container t = true) columns ->
  (if num <? col then Some (m4, col)
   else
     match block with
     | Some b =>
         bt ← type_of m4 b;
         if negb (is_type bt MMD_TYPE_TABLE_HEADER) then
           r ← row;
           m ← pad_row m4 r columns (seq col (num - col));
           Some (m, num)
         else Some (m4, num)
     | None => Some (m4, num)
     end) = Some (m5, num_columns) ->
  grows (nodes m4) (nodes m5) /\ root (doc m5) = root (doc m4).
Proof.
  intros Hrow Hcol4 E5.
  destruct (_ <? col); [injection E5 as <- _; auto using grows_refl|].
  destruct block as [b|]; [|injection E5 as <- _; auto using grows_refl].
  destruct (type_of m4 b) as [bt|]; cbn [mbind option_bind] in E5; [|discriminate].
  destruct (negb _); [|injection E5 as <- _; auto using grows_refl].
  destruct row as [r|]; cbn [mbind option_bind] in E5; [|discriminate].
  destruct (pad_row _ _ _ _) as [m6|] eqn:E6; cbn [mbind option_bind] in E5;
    [|discriminate].
  injection E5 as <- _. apply pad_row_ok in E6 as (Hg6 & Hr6).
  - split; [exact Hg6|congruence].
  - apply Hrow. reflexivity.
  - exact Hcol4.
Qed.

Lemma load_table_tail_ok s1 m2 row lineptr s' :
  loader_ok s1 -> grows (nodes (l_mem s1)) (nodes m2) -> root (doc m2) = 0 ->
  (forall r, row = Some r -> cont (nodes m2) r) ->
  (let lineptr := if Ascii.eqb (peek (line m2) lineptr) "|" then S lineptr else lineptr in
   let end_ := lineptr + strlen (line m2) lineptr - 1 in
   let m := if lineptr <? end_ then
              let end_ := trim_end (line m2) lineptr end_ in
              if (lineptr <? end_) && Ascii.eqb (peek (line m2) end_) "|"
              then with_line (poke (line m2) end_ NUL) m2 else m2
            else m2 in
   '(m, columns, col) ← table_cells 256 m (l_block s1) row (l_columns s1) (Some lineptr) 0;
   '(m, num_columns) ←
     (if l_num_columns s1 <? col then Some (m, col)
      else
        match l_block s1 with
        | Some b =>
            bt ← type_of m b;
            if negb (is_type bt MMD_TYPE_TABLE_HEADER) then
              r ← row;
              m ← pad_row m r columns (seq col (l_num_columns s1 - col));
              Some (m, l_num_columns s1)
            else Some (m, l_num_columns s1)
        | None => Some (m, l_num_columns s1)
        end);
   Some (mk_loader m (l_fp s1) (l_current s1) (l_block s1) (l_blank_code s1)
           columns num_columns (l_rows s1 + 1)%Z)) = Some s' ->
  grows (nodes (l_mem s1)) (nodes (l_mem s')) /\ loader_ok s'.
Proof.
  intros (Hroot & Hcur & Hblk & Hcol) Hg2 Hroot2 Hrow.
  generalize (if Ascii.eqb (peek (line m2) lineptr) "|" then S lineptr else lineptr).
  intros lp. cbv zeta. generalize (lp + strlen (line m2) lp - 1). intros e.
  assert (Hm3 : forall m3 : mem, nodes m3 = nodes m2 /\ doc m3 = doc m2 ->
            ('(m, columns, col) ← table_cells 256 m3 (l_block s1) row (l_columns s1)
                                   (Some lp) 0;
             '(m, num_columns) ←
               (if l_num_columns s1 <? col then Some (m, col)
                else
                  match l_block s1 with
                  | Some b =>
                      bt ← type_of m b;
                      if negb (is_type bt MMD_TYPE_TABLE_HEADER) then
                        r ← row;
                        m ← pad_row m r columns (seq col (l_num_columns s1 - col));
                        Some (m, l_num_columns s1)
                      else Some (m, l_num_columns s1)
                  | None => Some (m, l_num_columns s1)
                  end);
             Some (mk_loader m (l_fp s1) (l_current s1) (l_block s1) (l_blank_code s1)
                     columns num_columns (l_rows s1 + 1)%Z)) = Some s' ->
            grows (nodes (l_mem s1)) (nodes (l_mem s')) /\ loader_ok s').
  { intros m3 [Hn3 Hd3] H.
    destruct (table_cells _ _ _ _ _ _ _) as [[[m4 columns] col]|] eqn:E4;
      cbn [mbind option_bind] in H; [|discriminate].
    apply table_cells_ok in E4 as (Hg4 & Hr4 & Hcol4);
      [|rewrite Hn3; exact Hrow|exact Hcol].
    rewrite Hn3 in Hg4. rewrite Hd3, Hroot2 in Hr4.
    match type of H with (?x ≫= _) = _ => destruct x as [[m5 num_columns]|] eqn:E5 end;
      cbn [mbind option_bind] in H; [|discriminate].
    injection H as <-.
    apply load_table_pad_ok in E5 as [Hg5 Hr5];
      [|intros r Hr; eapply cont_grows; [exact Hg4|apply Hrow, Hr]|exact Hcol4].
    assert (Hg : grows (nodes (l_mem s1)) (nodes m5)).
    { eapply grows_trans; [exact Hg2|]. eapply grows_trans; eauto. }
    split; [exact Hg|].
    unfold loader_ok. cbn [l_mem l_current l_block l_columns].
    split; [congruence|]. split; [eapply cont_grows; eauto|].
    split; [|exact Hcol4]. intros b Hb. eapply cont_grows; eauto. }
  intros H. refine (Hm3 _ _ H). destruct (lp <? e); [|auto]. destruct (_ && _); auto.
Qed.

Lemma load_table_ok s lineptr s' :
  tree_heap (nodes (l_mem s)) -> loader_ok s -> load_table s lineptr = Some s' ->
  grows (nodes (l_mem s)) (nodes (l_mem s')) /\ loader_ok s'.
Proof.
  unfold load_table. intros Htree Hok H.
  apply bind_Some in H as (ct & Ect & H).
  apply bind_Some in H as (s1 & E1 & H).
  apply (load_table_open_ok s ct 256 s1 Htree Hok Ect) in E1 as [Hg1 Hok1].
  apply bind_Some in H as ([m2 row] & E2 & H).
  apply (load_table_row_ok s1 m2 row Hok1) in E2 as (Hg2 & Hroot2 & Hrow).
  apply (load_table_tail_ok s1 m2 row lineptr s' Hok1 Hg2 Hroot2 Hrow) in H
    as [Hg Hok'].
  split; [eapply grows_trans; eauto|exact Hok'].
Qed.

Lemma load_table_or_blank_ok s lineptr f :
  tree_heap (nodes (l_mem s)) -> loader_ok s ->
  load_table_or_blank s lineptr = Some f ->
  match f with
  | Continue s' => grows (nodes (l_mem s)) (nodes (l_mem s')) /\ loader_ok s'
  | Next s' _ => grows (nodes (l_mem s)) (nodes (l_mem s')) /\ loader_ok s'
  end.
Proof.
  unfold load_table_or_blank. intros Htree Hok H. cbv zeta in H.
  pose proof Hok as (Hroot & Hcur & Hblk & Hcol).
  destruct (type_of (l_mem s) (l_current s)) as [ct|] eqn:Ect;
    cbn [mbind option_bind] in H; [|discriminate].
  destruct (is_nul _).
  { injection H as <-. loader_goal. }
  destruct (table_test _ _ _ _) as [table fp]. destruct table.
  - destruct (load_table _ _) as [s1|] eqn:E1; cbn in H; [|discriminate].
    injection H as <-. apply load_table_ok in E1; [exact E1|exact Htree|exact Hok].
  - destruct (is_type ct MMD_TYPE_TABLE).
    + norm. repeat inv_step. repeat link_fact. loader_goal.
    + injection H as <-. loader_goal.
Qed.

Lemma cont_type m b t :
  cont (nodes m) b -> type_of m b = Some t -> is_container t = true.
Proof.
  unfold type_of. intros (n & Hn & Ht) H. rewrite Hn in H. cbn in H. congruence.
Qed.

Lemma load_plus_ok s s' :
  tree_heap (nodes (l_mem s)) -> loader_ok s -> load_plus s = Some s' ->
  grows (nodes (l_mem s)) (nodes (l_mem s')) /\ loader_ok s'.
Proof.
  unfold load_plus, add_block. intros Htree Hok H.
  pose proof Hok as (Hroot & Hcur & Hblk & Hcol).
  repeat inv_step; repeat first [link_fact|base_fact];
    first [easy_goal|loader_goal].
Qed.

Lemma load_setext_ok s b lineptr c :
  loader_ok s -> type_of (l_mem s) b = Some MMD_TYPE_PARAGRAPH ->
  load_setext s b lineptr = Some c ->
  match c with
  | Finished s' => grows (nodes (l_mem s)) (nodes (l_mem s')) /\ loader_ok s'
  | Content s' _ ty =>
      grows (nodes (l_mem s)) (nodes (l_mem s')) /\ loader_ok s' /\
      is_container ty = true
  end.
Proof.
  unfold load_setext. intros Hok Hb H. cbv zeta in H.
  pose proof Hok as (Hroot & Hcur & Hblk & Hcol).
  destruct (is_nul _).
  - destruct (store _ b _) as [h|] eqn:E; cbn [mbind option_bind] in H; [|discriminate].
    injection H as <-.
    assert (Hg : grows (nodes (l_mem s)) h).
    { eapply store_type_step; [exact Hb| |exact E]. destruct (Ascii.eqb _ _); reflexivity. }
    split; [exact Hg|]. unfold loader_ok. norm.
    split; [exact Hroot|]. split; [eapply cont_grows; eauto|].
    split; [intros ? [=]|exact Hcol].
  - injection H as <-. split; [apply grows_refl|]. split; [exact Hok|reflexivity].
Qed.

Lemma enter_list_ok s list_type quoted s' :
  tree_heap (nodes (l_mem s)) -> loader_ok s -> is_container list_type = true ->
  enter_list s list_type quoted = Some s' ->
  grows (nodes (l_mem s)) (nodes (l_mem s')) /\ loader_ok s'.
Proof.
  unfold enter_list. intros Htree Hok Hty H. cbv zeta in H.
  pose proof Hok as (Hroot & Hcur & Hblk & Hcol).
  pose proof (root_cont _ Htree) as Hr0. unfold the_root in H. rewrite ?Hroot in H.
  repeat inv_step;
    try (destruct quoted; [destruct (is_type _ MMD_TYPE_BLOCK_QUOTE)|]);
    repeat first [link_fact|base_fact];
    first [easy_goal|loader_goal].
Qed.

Lemma load_heading_ok s lineptr c :
  tree_heap (nodes (l_mem s)) -> loader_ok s -> load_heading s lineptr = Some c ->
  match c with
  | Finished s' => grows (nodes (l_mem s)) (nodes (l_mem s')) /\ loader_ok s'
  | Content s' _ ty =>
      grows (nodes (l_mem s)) (nodes (l_mem s')) /\ loader_ok s' /\
      is_container ty = true
  end.
Proof.
  unfold load_heading. intros Htree Hok H. cbv zeta in H.
  pose proof Hok as (Hroot & Hcur & Hblk & Hcol).
  pose proof (root_cont _ Htree) as Hr0.
  destruct (type_of _ _) as [ct|]; cbn [mbind option_bind] in H; [|discriminate].
  set (s1 := if negb (is_type ct MMD_TYPE_BLOCK_QUOTE)
             then set_current (the_root s) s else s) in H.
  assert (Hok1 : loader_ok s1).
  { unfold s1. destruct (negb _); [|exact Hok].
    unfold loader_ok, the_root. cbn [set_current l_mem l_current l_block l_columns].
    rewrite Hroot. auto. }
  assert (Hn : l_mem s1 = l_mem s) by (unfold s1; destruct (negb _); reflexivity).
  clearbody s1. destruct Hok1 as (R & C & B & L).
  destruct (_ <=? 6); injection H as <-.
  - split; [|split; [|apply heading_plus_container]].
    + cbn [set_block set_mem with_line l_mem nodes]. rewrite Hn. apply grows_refl.
    + unfold loader_ok.
      cbn [set_block set_mem with_line l_mem nodes doc l_current l_block l_columns].
      split; [exact R|]. split; [exact C|]. split; [intros ? [=]|exact L].
  - split; [rewrite Hn; apply grows_refl|]. split; [|reflexivity].
    unfold loader_ok. auto.
Qed.
End loader_growth_blocks.


Section loader_growth_lines.
Implicit Types (h : heap) (m : mem) (s : loader).

Lemma load_classify_ok s lineptr c :
  tree_heap (nodes (l_mem s)) -> loader_ok s -> load_classify s lineptr = Some c ->
  classified_ok s c.
Proof.
  unfold load_classify, classified_ok. intros Htree Hok H. cbv zeta in H.
  pose proof Hok as (Hroot & Hcur & Hblk & Hcol).
  destruct (String.eqb _ "+").
  { destruct (load_plus s) as [s1|] eqn:E; cbn in H; [|discriminate].
    injection H as <-. eapply load_plus_ok; eauto. }
  match type of H with (?x ≫= _) = _ => destruct x as [bt|] eqn:Ebt end;
    cbn [mbind option_bind] in H; [|discriminate].
  assert (Hbt : forall t, bt = Some t -> is_container t = true).
  { intros t ->. destruct (l_block s) as [b|]; [|discriminate].
    destruct (type_of (l_mem s) b) as [t'|] eqn:Et; cbn in Ebt; [|discriminate].
    injection Ebt as ->. eapply cont_type; [apply Hblk; reflexivity|exact Et]. }
  match type of H with
  | match ?x with _ => _ end = _ => destruct x as [b|] eqn:Eb
  end.
  { destruct (bool_decide _ && _) eqn:Ec; [|discriminate].
    apply andb_true_iff in Ec as [Ec _]. apply bool_decide_eq_true in Ec. subst bt.
    rewrite Eb in Ebt. destruct (type_of (l_mem s) b) as [t'|] eqn:Et; cbn in Ebt;
      [|discriminate].
    injection Ebt as ->. eapply load_setext_ok; eauto. }
  clear Eb. destruct (_ && isspace _).
  { destruct (enter_list _ _ _) as [s1|] eqn:E; cbn [mbind option_bind] in H;
      [|discriminate].
    injection H as <-. apply enter_list_ok in E as [Hg Hok1]; auto. }
  destruct (isdigit _).
  { destruct (_ && _).
    - destruct (enter_list _ _ _) as [s1|] eqn:E; cbn [mbind option_bind] in H;
        [|discriminate].
      injection H as <-. apply enter_list_ok in E as [Hg Hok1]; auto.
    - injection H as <-. split; [apply grows_refl|]. split; [exact Hok|].
      destruct bt as [t|]; [apply Hbt; reflexivity|reflexivity]. }
  destruct (Ascii.eqb _ "#").
  { eapply load_heading_ok; eauto. }
  destruct bt as [t|]; injection H as <-.
  - split; [apply grows_refl|]. split; [exact Hok|]. apply Hbt. reflexivity.
  - split; [|split; [|reflexivity]]; destruct (decide _); norm;
      first [apply grows_refl|exact Hok|idtac].
    unfold loader_ok. norm. split; [exact Hroot|]. split; [|auto].
    unfold the_root. rewrite Hroot. apply root_cont, Htree.
Qed.

Lemma load_content_ok s lineptr type_ s' :
  tree_heap (nodes (l_mem s)) -> loader_ok s -> is_container type_ = true ->
  load_content s lineptr type_ = Some s' ->
  grows (nodes (l_mem s)) (nodes (l_mem s')) /\ loader_ok s'.
Proof.
  unfold load_content, add_block. intros Htree Hok Hty H. cbv zeta in H.
  pose proof Hok as (Hroot & Hcur & Hblk & Hcol).
  pose proof (root_cont _ Htree) as Hr0. unfold the_root in H. rewrite ?Hroot in H.
  repeat inv_step;
    repeat match goal with
      | H : context [if is_type ?t MMD_TYPE_CODE_BLOCK then _ else _] |- _ =>
          destruct (is_type t MMD_TYPE_CODE_BLOCK)
      end;
    norm; repeat inv_step; repeat first [link_fact|base_fact];
    first [easy_goal|loader_goal].
Qed.

Lemma load_line_ok s s' :
  tree_heap (nodes (l_mem s)) -> loader_ok s -> load_line s = Some s' ->
  grows (nodes (l_mem s)) (nodes (l_mem s')) /\ loader_ok s'.
Proof.
  unfold load_line. intros Htree Hok H.
  destruct (load_start s) as [f|] eqn:E1; cbn [mbind option_bind] in H; [|discriminate].
  apply load_start_ok in E1; [|assumption..].
  destruct f as [s1|s1 p1]; [injection H as <-; exact E1|].
  destruct E1 as [Hg1 Hok1].
  assert (Ht1 : tree_heap (nodes (l_mem s1))) by (eapply tree_heap_grows; eauto).
  destruct (load_quote s1 p1) as [[s2 p2]|] eqn:E2; cbn [mbind option_bind] in H;
    [|discriminate].
  apply load_quote_ok in E2 as [Hg2 Hok2]; [|assumption..].
  assert (Ht2 : tree_heap (nodes (l_mem s2))) by (eapply tree_heap_grows; eauto).
  destruct (load_table_or_blank s2 p2) as [f|] eqn:E3; cbn [mbind option_bind] in H;
    [|discriminate].
  apply load_table_or_blank_ok in E3; [|assumption..].
  destruct f as [s3|s3 p3].
  { injection H as <-. destruct E3 as [Hg3 Hok3].
    split; [|exact Hok3]. eapply grows_trans; [exact Hg1|]. eapply grows_trans; eauto. }
  destruct E3 as [Hg3 Hok3].
  assert (Ht3 : tree_heap (nodes (l_mem s3))) by (eapply tree_heap_grows; eauto).
  destruct (load_classify s3 p3) as [c|] eqn:E4; cbn [mbind option_bind] in H;
    [|discriminate].
  apply load_classify_ok in E4; [|assumption..].
  assert (Hg : grows (nodes (l_mem s)) (nodes (l_mem s3))).
  { eapply grows_trans; [exact Hg1|]. eapply grows_trans; eauto. }
  destruct c as [s4|s4 p4 ty]; cbn in E4.
  { injection H as <-. destruct E4 as [Hg4 Hok4].
    split; [|exact Hok4]. eapply grows_trans; eauto. }
  destruct E4 as (Hg4 & Hok4 & Hty).
  assert (Ht4 : tree_heap (nodes (l_mem s4))) by (eapply tree_heap_grows; eauto).
  apply load_content_ok in H as [Hg5 Hok5]; [|assumption..].
  split; [|exact Hok5]. eapply grows_trans; [exact Hg|]. eapply grows_trans; eauto.
Qed.

Lemma load_loop_ok fuel s s' :
  tree_heap (nodes (l_mem s)) -> loader_ok s -> load_loop fuel s = Some s' ->
  grows (nodes (l_mem s)) (nodes (l_mem s')) /\ loader_ok s'.
Proof.
  revert s. induction fuel as [|fuel IH]; intros s Htree Hok H; [discriminate|].
  cbn [load_loop] in H.
  destruct (fgets sizeof_line (l_fp s)) as [[chunk fp]|].
  2:{ injection H as <-. split; [apply grows_refl|exact Hok]. }
  destruct (load_line _) as [s1|] eqn:E; cbn [mbind option_bind] in H; [|discriminate].
  apply load_line_ok in E as [Hg1 Hok1]; [|exact Htree|exact Hok].
  norm. apply IH in H as [Hg2 Hok2]; [|eapply tree_heap_grows; eauto|exact Hok1].
  split; [eapply grows_trans; eauto|exact Hok2].
Qed.

Lemma resolve_pending_grows h refs h' :
  resolve_pending h refs = Some h' -> grows h h'.
Proof.
  revert h. induction refs as [|r refs IH]; intros h H; simpl in H.
  - injection H as <-. apply grows_refl.
  - destruct (set_urls h _ _) as [h1|] eqn:E; cbn [mbind option_bind] in H;
      [|discriminate].
    eapply grows_trans; [eapply set_urls_grows; exact E|]. apply IH, H.
Qed.

Lemma mmdLoadFile_tree fp h r :
  mmdLoadFile fp = Some (h, r) -> r = 0 /\ tree_heap h.
Proof.
  unfold mmdLoadFile. rewrite mmd_add_free. intros H.
  apply bind_Some in H as ([h0 r0] & E0 & H). injection E0 as <- <-.
  apply bind_Some in H as (r1 & Er & H). injection Er as <-.
  apply bind_Some in H as (s & E & H).
  apply bind_Some in H as (h1 & E1 & H). injection H as <- <-.
  split; [reflexivity|].
  apply load_loop_ok in E as [Hg Hok].
  - eapply tree_heap_grows; [eapply resolve_pending_grows; exact E1|].
    eapply tree_heap_grows; [exact Hg|]. apply tree_heap_start.
  - apply tree_heap_start.
  - unfold loader_ok. cbn [l_mem nodes doc root l_current l_block l_columns].
    split; [reflexivity|]. split; [apply root_cont, tree_heap_start|].
    split; [intros ? [=]|apply Forall_replicate; reflexivity].
Qed.
End loader_growth_lines.


(** ** The heap of a document is a tree *)

Section document_tree.
Variable h : heap.
Hypothesis Htree : tree_heap h.

Lemma parent_earlier q n p : h !! q = Some n -> parent n = Some p -> p < q.
Proof.
  destruct Htree as (_ & (n0 & E0 & _ & Hp0) & Hpar & _). intros Hq Hp.
  destruct (decide (q = 0)) as [->|Hne]; [congruence|].
  destruct (Hpar q n Hq Hne) as (p' & Hp' & Hlt). congruence.
Qed.

Lemma below_le c q : below h c q -> c <= q.
Proof.
  induction 1 as [|q n p Hq Hp _ IH]; [lia|].
  pose proof (parent_earlier q n p Hq Hp). lia.
Qed.

Lemma below_up c q n p :
  below h c q -> h !! c = Some n -> parent n = Some p -> below h p q.
Proof.
  intros Hb Hc Hp. induction Hb as [|q n' p' Hq Hp' _ IH].
  - eapply below_child; [exact Hc|exact Hp|apply below_self].
  - eapply below_child; [exact Hq|exact Hp'|exact IH].
Qed.

Lemma below_linear c1 c2 q :
  below h c1 q -> below h c2 q -> below h c1 c2 \/ below h c2 c1.
Proof.
  intros H1. revert c2. induction H1 as [|q n p Hq Hp H1 IH]; intros c2 H2.
  - right. exact H2.
  - inversion H2 as [|? n' p' Hq' Hp' H2']; subst.
    + left. eapply below_child; eauto.
    + assert (p' = p) as -> by congruence. apply IH, H2'.
Qed.

Lemma ptrs_below t q : shape h t -> q ∈ ptrs t -> below h (root_of t) q.
Proof.
  revert q. induction t as [p cs IH] using ptree_ind'. intros q Hs Hq.
  inversion Hs as [? ? Hc Hall]; subst. cbn [root_of]. simpl in Hq.
  apply elem_of_cons in Hq as [->|Hq]; [apply below_self|].
  apply list_elem_of_bind in Hq as (t' & Hq & Ht').
  rewrite Forall_forall in IH, Hall.
  pose proof (IH t' Ht' q (Hall t' Ht') Hq) as Hb.
  assert (Hr : root_of t' ∈ root_of <$> cs) by (apply list_elem_of_fmap; eauto).
  apply list_elem_of_lookup in Hr as [k Hk].
  destruct Hc as [_ Hmem]. destruct (Hmem k _ Hk) as (m & Em & Hpm & _).
  eapply below_up; eauto.
Qed.

Lemma siblings_apart p (cs : list ptr) c1 c2 :
  children h p cs -> c1 ∈ cs -> c2 ∈ cs -> below h c1 c2 -> c1 = c2.
Proof.
  intros Hc H1 H2 Hb. destruct Hc as [_ Hmem].
  apply list_elem_of_lookup in H1 as [k1 Hk1]. apply list_elem_of_lookup in H2 as [k2 Hk2].
  destruct (Hmem k1 c1 Hk1) as (m1 & E1 & Hp1 & _).
  destruct (Hmem k2 c2 Hk2) as (m2 & E2 & Hp2 & _).
  inversion Hb as [|? n p' Hq Hp' Hb']; subst; [reflexivity|].
  assert (p' = p) as -> by congruence.
  pose proof (below_le _ _ Hb'). pose proof (parent_earlier c1 m1 p E1 Hp1). lia.
Qed.

Lemma same_root (cs : list ptree) t1 t2 :
  NoDup (root_of <$> cs) -> t1 ∈ cs -> t2 ∈ cs -> root_of t1 = root_of t2 -> t1 = t2.
Proof.
  intros Hnd H1 H2 Hr.
  apply list_elem_of_lookup in H1 as [k1 Hk1]. apply list_elem_of_lookup in H2 as [k2 Hk2].
  assert (k1 = k2) as ->; [|congruence].
  apply (NoDup_lookup _ k1 k2 (root_of t1) Hnd); rewrite list_lookup_fmap.
  - rewrite Hk1. reflexivity.
  - rewrite Hk2, Hr. reflexivity.
Qed.

Lemma subtrees_exist (rs : list ptr) :
  (forall c, c ∈ rs -> exists t, root_of t = c /\ shape h t /\ NoDup (ptrs t)) ->
  exists cs, root_of <$> cs = rs /\ Forall (shape h) cs /\
             Forall (fun t => NoDup (ptrs t)) cs.
Proof.
  induction rs as [|c rs IH]; intros H.
  - exists []. split; [reflexivity|]. split; constructor.
  - destruct (H c) as (t & Hr & Hs & Hnd); [apply elem_of_cons; auto|].
    destruct IH as (cs & Hcs & Hall & Hnds).
    { intros c' Hc'. apply H, elem_of_cons. auto. }
    exists (t :: cs). split; [rewrite fmap_cons, Hr, Hcs; reflexivity|]. split; constructor; auto.
Qed.

Lemma subtree_exists k p :
  length h - p <= k -> p < length h ->
  exists t, root_of t = p /\ shape h t /\ NoDup (ptrs t).
Proof.
  revert p. induction k as [|k IH]; intros p Hk Hp; [lia|].
  destruct (lookup_lt_is_Some_2 h p Hp) as [n Hn].
  destruct Htree as (Hcons & _).
  destruct (Hcons p n Hn) as [[rs Hc] _].
  assert (Hlt : forall c, c ∈ rs -> p < c /\ c < length h).
  { intros c Hin. split; [|eapply children_allocated; eauto].
    apply list_elem_of_lookup in Hin as [i Hi]. destruct Hc as [_ Hmem].
    destruct (Hmem i c Hi) as (m & Em & Hpm & _). eapply parent_earlier; eauto. }
  destruct (subtrees_exist rs) as (cs & Hcs & Hall & Hnds).
  { intros c Hin. destruct (Hlt c Hin). apply IH; lia. }
  exists (PNode p cs). split; [reflexivity|]. subst rs.
  split; [constructor; assumption|].
  assert (Hge : forall t q, t ∈ cs -> q ∈ ptrs t -> p < q).
  { intros t q Ht Hq. rewrite Forall_forall in Hall.
    pose proof (below_le _ _ (ptrs_below t q (Hall t Ht) Hq)).
    destruct (Hlt (root_of t)); [apply list_elem_of_fmap; eauto|lia]. }
  simpl. apply NoDup_cons. split.
  - intros (t & Hq & Ht)%list_elem_of_bind. pose proof (Hge t p Ht Hq). lia.
  - apply NoDup_bind.
    + intros t1 t2 q H1 H2 Hq1 Hq2. rewrite Forall_forall in Hall.
      pose proof (children_NoDup _ _ _ Hc) as Hnd.
      assert (Hr1 : root_of t1 ∈ root_of <$> cs) by (apply list_elem_of_fmap; eauto).
      assert (Hr2 : root_of t2 ∈ root_of <$> cs) by (apply list_elem_of_fmap; eauto).
      apply (same_root cs); auto.
      destruct (below_linear _ _ q (ptrs_below t1 q (Hall t1 H1) Hq1)
                  (ptrs_below t2 q (Hall t2 H2) Hq2)) as [Hb|Hb].
      * eapply siblings_apart; eauto.
      * symmetry. eapply siblings_apart; eauto.
    + rewrite Forall_forall in Hnds. exact Hnds.
    + eapply NoDup_fmap_1. eapply children_NoDup; eauto.
Qed.

Lemma tree_covers t q : shape h t -> root_of t = 0 -> q < length h -> q ∈ ptrs t.
Proof.
  intros Hs Hr. induction q as [q IH] using lt_wf_ind. intros Hq.
  destruct (decide (q = 0)) as [->|Hne]; [rewrite <- Hr; apply root_in_ptrs|].
  destruct (lookup_lt_is_Some_2 h q Hq) as [n Hn].
  pose proof Htree as (Hcons & _ & Hpar & _).
  destruct (Hpar q n Hn Hne) as (p & Hp & Hlt).
  destruct (Hcons q n Hn) as [_ Hin]. rewrite Hp in Hin. destruct Hin as (cs & Hc & Hin).
  assert (Hpt : p ∈ ptrs t) by (apply IH; lia).
  pose proof (shape_children_below h t p cs q Hs Hpt Hc Hin) as Hbelow.
  destruct t as [r ts]. simpl. apply elem_of_cons. right. exact Hbelow.
Qed.

Lemma document_tree :
  exists t, root_of t = 0 /\ shape h t /\ ptrs t ≡ₚ seq 0 (length h).
Proof.
  assert (H0 : 0 < length h).
  { destruct Htree as (_ & (n & Hn & _) & _). eapply lookup_lt_Some; eauto. }
  destruct (subtree_exists (length h) 0) as (t & Hr & Hs & Hnd); [lia|exact H0|].
  exists t. split; [exact Hr|]. split; [exact Hs|].
  apply NoDup_Permutation; [exact Hnd|apply NoDup_seq|].
  intros q. rewrite elem_of_seq. split.
  - intros Hq. pose proof (shape_allocated h t q Hs Hq). lia.
  - intros [_ Hq]. apply tree_covers; auto.
Qed.
End document_tree.

Lemma mmdFree_document (h : heap) :
  tree_heap h ->
  exists h' freed, mmdFree (2 * length h + 1) h (Some 0) = Some (h', freed) /\
                   freed ≡ₚ seq 0 (length h).
Proof.
  intros Htree. destruct (document_tree h Htree) as (t & Hr & Hs & Hperm).
  assert (Hnd : NoDup (ptrs t)).
  { rewrite Hperm. apply NoDup_seq. }
  assert (Hlen : length (ptrs t) = length h).
  { rewrite Hperm. apply length_seq. }
  destruct (mmdFree_tree h t (2 * length h + 1)) as (h1 & h2 & _ & _ & E & _);
    [apply Htree|exact Hs|exact Hnd|lia|].
  rewrite Hr in E. exists h2, (postorder t). split; [exact E|].
  rewrite postorder_perm. exact Hperm.
Qed.


(** ** The documents of the loader *)

(** X11: every document [mmdLoadFile] returns is a tree: its root is the
    first node allocated, of type document and without parent; the links of
    all nodes are consistent; every other node has a parent, allocated
    before it; a node with children is not of one of the ten types of the
    text runs (normal, emphasized, strong, struck, linked and code text,
    image, hard and soft break, metadata text), and a node that carries
    text is of one of them. *)
Theorem loaded_document_is_tree (fp : FILE) (h : heap) (r : ptr) :
  mmdLoadFile fp = Some (h, r) -> r = 0 /\ tree_heap h.
Proof. apply mmdLoadFile_tree. Qed.

Lemma loaded_document_is_tree_witness : 0 = 0 /\ tree_heap sample_heap.
Proof.
  apply (loaded_document_is_tree sample_file sample_heap 0).
  vm_compute. reflexivity.
Defined.

(** X12: [mmdFree] on the root of a document that [mmdLoadFile] has returned
    returns and frees every node of the heap exactly once: the nodes freed
    are, in some order, all the nodes allocated, and none was accessed after
    it was freed. *)
Theorem free_loaded_document (fp : FILE) (h : heap) (r : ptr) :
  mmdLoadFile fp = Some (h, r) ->
  exists h' freed,
    mmdFree (2 * length h + 1) h (Some r) = Some (h', freed) /\
    freed ≡ₚ seq 0 (length h).
Proof.
  intros H. apply mmdLoadFile_tree in H as [-> Htree].
  apply mmdFree_document, Htree.
Qed.

Lemma free_loaded_document_witness :
  exists h' freed,
    mmdFree (2 * length sample_heap + 1) sample_heap (Some 0) = Some (h', freed) /\
    freed ≡ₚ seq 0 (length sample_heap).
Proof.
  apply (free_loaded_document sample_file sample_heap 0).
  vm_compute. reflexivity.
Defined.
